(** * swagger-to-mcp: the specification-to-tool compiler, embedded in Rocq

    A shallow embedding of [src/lib/schema.js], [src/lib/security.js], of
    [lib/swagger-to-mcp.js] (the version that imports the two former files)
    and of the security configuration of [bin/cli.js], followed by the
    properties of the specification that were checked against it and by
    further properties of the code.

    Conventions of the embedding.
    - A JavaScript value that comes out of [JSON.parse]/[yaml.safeLoad] is a
      [json] tree; [JUndefined] is the value of a missing property, and
      [JNative] is a built-in function, which no document holds but which
      every object inherits.  Numbers are integers: no claim below depends on
      a fraction.
    - An object is the list of its own properties in insertion order, which is
      the order of [Object.entries], [Object.keys] and of the spread syntax
      for keys that are not array indices.
    - A property that the code reads under a name written in the code
      ([operation.parameters], [param.schema]) is read among the own
      properties ([prop]): none of these names is inherited by an object.
      Where the name comes from the data, the members of [Object.prototype]
      count.  The input of a request is read under the names of the declared
      parameters, and the document under the segments of a pointer, through
      the prototype chain ([member]); an assignment under a computed name
      treats [__proto__] as the prototype, not as a property ([put]).
    - A string is a sequence of bytes, read as ASCII: [length], [slice],
      [toUpperCase], [toLowerCase] and [trim] act bytewise.
    - A function that can throw returns a [res]; the exception classes that
      the code distinguishes or that the runtime raises are the constructors
      of [exn].
    - A function that writes to an object it was handed returns the object as
      it is after the call.
    - A line written with [console.warn] is recorded as its text, the
      pictograph that opens it in UTF-8. *)

From Stdlib Require Import ZArith Ascii String DecimalString Wf_nat.
From stdpp Require Import base list strings gmap.

Local Open Scope Z_scope.

(** ** Exceptions *)

Inductive exn : Type :=
| TypeError                (* a property read on null/undefined, a call of a non-function *)
| RangeError               (* call stack exhausted *)
| Error (msg : string).    (* [throw new Error(msg)] *)

Inductive res (A : Type) : Type :=
| Ok (a : A)
| Throw (e : exn).
Arguments Ok {A} a.
Arguments Throw {A} e.

Global Instance res_bind : MBind res := λ A B k m,
  match m with
  | Ok a => k a
  | Throw e => Throw e
  end.
Global Instance res_ret : MRet res := λ A a, Ok a.
Global Instance res_fmap : FMap res := λ A B f m,
  match m with
  | Ok a => Ok (f a)
  | Throw e => Throw e
  end.

Definition is_ok {A} (m : res A) : Prop := ∃ a, m = Ok a.
Definition throws {A} (m : res A) : Prop := ∃ e, m = Throw e.

Fixpoint mapM {A B} (f : A → res B) (l : list A) : res (list B) :=
  match l with
  | [] => Ok []
  | x :: l' =>
      y ← f x;
      ys ← mapM f l';
      Ok (y :: ys)
  end.

(** ** JavaScript values *)

Module JS.

#[warning="-register-all"]
Inductive json : Type :=
| JUndefined
| JNull
| JBool (b : bool)
| JNum (n : Z)
| JStr (s : string)
| JArr (l : list json)
| JObj (o : list (string * json))
| JNative (name : string) (arity : Z).    (* [function name() { [native code] }] *)

Abbreviation obj := (list (string * json)).

(** Strings. *)

Fixpoint starts_with (p s : string) : bool :=
  match p, s with
  | EmptyString, _ => true
  | String a p', String b s' => if decide (a = b) then starts_with p' s' else false
  | String _ _, EmptyString => false
  end.

(** [s.endsWith(p)]: some tail of [s] is [p]. *)
Fixpoint ends_with (p s : string) : bool :=
  bool_decide (s = p)
  || match s with
     | String _ s' => ends_with p s'
     | EmptyString => false
     end.

Fixpoint drop_str (n : nat) (s : string) : string :=
  match n, s with
  | O, _ => s
  | S n', String _ s' => drop_str n' s'
  | S _, EmptyString => EmptyString
  end.

Fixpoint take_str (n : nat) (s : string) : string :=
  match n, s with
  | O, _ => EmptyString
  | S n', String a s' => String a (take_str n' s')
  | S _, EmptyString => EmptyString
  end.

(** [s.slice(0, -1)] *)
Definition drop_last (s : string) : string :=
  take_str (String.length s - 1)%nat s.

(** First occurrence of [pat] in [s]: the text before it and the text after it. *)
Fixpoint find_sub (pat s : string) : option (string * string) :=
  if starts_with pat s then Some (EmptyString, drop_str (String.length pat) s)
  else match s with
       | EmptyString => None
       | String a s' =>
           match find_sub pat s' with
           | Some (pre, post) => Some (String a pre, post)
           | None => None
           end
       end.

(** [s.replace(pat, rep)] for a string pattern and a replacement without [$]. *)
Definition replace_first (pat rep s : string) : string :=
  match find_sub pat s with
  | Some (pre, post) => pre +:+ rep +:+ post
  | None => s
  end.

(** [s.split(sep)] for a one-character separator. *)
Fixpoint split_on (sep : ascii) (s : string) : list string :=
  match s with
  | EmptyString => [EmptyString]
  | String a s' =>
      if decide (a = sep) then EmptyString :: split_on sep s'
      else match split_on sep s' with
           | w :: ws => String a w :: ws
           | [] => [String a EmptyString]
           end
  end.

Fixpoint join (sep : string) (l : list string) : string :=
  match l with
  | [] => EmptyString
  | [x] => x
  | x :: l' => x +:+ sep +:+ join sep l'
  end.

Fixpoint map_str (f : ascii → ascii) (s : string) : string :=
  match s with
  | EmptyString => EmptyString
  | String a s' => String (f a) (map_str f s')
  end.

Fixpoint filter_str (f : ascii → bool) (s : string) : string :=
  match s with
  | EmptyString => EmptyString
  | String a s' => if f a then String a (filter_str f s') else filter_str f s'
  end.

Definition upper_char (a : ascii) : ascii :=
  let n := nat_of_ascii a in
  if ((97 <=? n) && (n <=? 122))%nat then ascii_of_nat (n - 32) else a.

Definition lower_char (a : ascii) : ascii :=
  let n := nat_of_ascii a in
  if ((65 <=? n) && (n <=? 90))%nat then ascii_of_nat (n + 32) else a.

Definition toUpperCase : string → string := map_str upper_char.
Definition toLowerCase : string → string := map_str lower_char.

Fixpoint trim_start (s : string) : string :=
  match s with
  | String a s' => if Ascii.is_space a then trim_start s' else s
  | EmptyString => EmptyString
  end.

Definition trim (s : string) : string :=
  String.rev (trim_start (String.rev (trim_start s))).

Definition is_digit (a : ascii) : bool :=
  let n := nat_of_ascii a in ((48 <=? n) && (n <=? 57))%nat.

(** Decimal notation of an integer, as [String(n)] prints it. *)
Definition dec_of_Z (n : Z) : string := NilZero.string_of_int (Z.to_int n).
Definition dec_of_nat (n : nat) : string := NilZero.string_of_uint (Nat.to_uint n).

(** Values. *)

Definition truthy (v : json) : bool :=
  match v with
  | JUndefined | JNull => false
  | JBool b => b
  | JNum n => negb (n =? 0)
  | JStr s => negb (bool_decide (s = EmptyString))
  | JArr _ | JObj _ | JNative _ _ => true
  end.

(** [typeof v === 'object'] ([null] included). *)
Definition typeof_object (v : json) : bool :=
  match v with
  | JNull | JArr _ | JObj _ => true
  | _ => false
  end.

Definition is_undefined (v : json) : bool :=
  match v with JUndefined => true | _ => false end.

Definition is_true (v : json) : bool :=
  match v with JBool true => true | _ => false end.

Definition isArray (v : json) : bool :=
  match v with JArr _ => true | _ => false end.

(** [a || b] *)
Definition or_else (a b : json) : json := if truthy a then a else b.

(** Own properties of an object. *)

Fixpoint lookup_key (k : string) (o : obj) : json :=
  match o with
  | [] => JUndefined
  | (k', v) :: o' => if decide (k' = k) then v else lookup_key k o'
  end.

(** The own property [k] of [o] is set to [v], as the assignment [o.k = v]
    under a name written in the code, an object literal and the spread
    syntax do it: an existing property keeps its place, a new one goes
    last. *)
Fixpoint assign (k : string) (v : json) (o : obj) : obj :=
  match o with
  | [] => [(k, v)]
  | (k', v') :: o' => if decide (k' = k) then (k, v) :: o' else (k', v') :: assign k v o'
  end.

(** [delete o[k]] *)
Definition remove (k : string) (o : obj) : obj :=
  filter (λ kv, kv.1 ≠ k) o.

Definition keys (o : obj) : list string := o.*1.

(** [{...o, ...src}]: each property of [src] is defined in turn on the copy
    of [o]. *)
Definition assign_all (src o : obj) : obj :=
  fold_left (λ acc kv, assign kv.1 kv.2 acc) src o.

(** [o[k] = v] under a name that comes from the data.  On an object that has
    no own property [__proto__], that name is the accessor of
    [Object.prototype]: the assignment hands [v] to the setter, which
    replaces the prototype of [o] when [v] is an object or [null], and no
    own property is made.  The objects that the code writes in this way it
    reads afterwards by their own properties only. *)
Definition put (k : string) (v : json) (o : obj) : obj :=
  if bool_decide (k = "__proto__") && negb (bool_decide (k ∈ keys o)) then o
  else assign k v o.

(** [Object.assign(o, src)] for an object source: each own property of
    [src] is assigned in turn. *)
Definition Object_assign (src o : obj) : obj :=
  fold_left (λ acc kv, put kv.1 kv.2 acc) src o.

(** The index an array-index property name denotes. *)
Definition index_of_key (k : string) : option nat :=
  match k with
  | EmptyString => None
  | String a k' =>
      if bool_decide (k = "0") then Some O
      else if bool_decide (a = "0"%char) then None
      else match NilEmpty.uint_of_string k with
           | Some u => Some (Nat.of_uint u)
           | None => None
           end
  end.

Fixpoint indexed_from (i : nat) (l : list json) : obj :=
  match l with
  | [] => []
  | v :: l' => (dec_of_nat i, v) :: indexed_from (S i) l'
  end.

Fixpoint chars (s : string) : list json :=
  match s with
  | EmptyString => []
  | String a s' => JStr (String a EmptyString) :: chars s'
  end.

(** Own enumerable properties, as the spread syntax [{...v}] and
    [Object.assign] copy them: none for a primitive that is not a string. *)
Definition own_entries (v : json) : obj :=
  match v with
  | JObj o => o
  | JArr l => indexed_from 0 l
  | JStr s => indexed_from 0 (chars s)
  | _ => []
  end.

(** [Object.entries(v)]: throws on [null] and [undefined]. *)
Definition entries (v : json) : res obj :=
  match v with
  | JUndefined | JNull => Throw TypeError
  | _ => Ok (own_entries v)
  end.

(** The property read [v.k] or [v[k]] under a name written in the code.  Of
    these names a function has [name] and [length]. *)
Definition prop (v : json) (k : string) : res json :=
  match v with
  | JUndefined | JNull => Throw TypeError
  | JObj o => Ok (lookup_key k o)
  | JNative name arity =>
      if bool_decide (k = "name") then Ok (JStr name)
      else if bool_decide (k = "length") then Ok (JNum arity)
      else Ok JUndefined
  | JArr l =>
      if bool_decide (k = "length") then Ok (JNum (Z.of_nat (length l)))
      else match index_of_key k with
           | Some i => Ok (default JUndefined (l !! i))
           | None => Ok JUndefined
           end
  | JStr s =>
      if bool_decide (k = "length") then Ok (JNum (Z.of_nat (String.length s)))
      else match index_of_key k with
           | Some i => Ok (default JUndefined (chars s !! i))
           | None => Ok JUndefined
           end
  | JBool _ | JNum _ => Ok JUndefined
  end.

(** The optional read [v?.k]. *)
Definition prop_opt (v : json) (k : string) : json :=
  match prop v k with
  | Ok x => x
  | Throw _ => JUndefined
  end.

(** What every object inherits: the members of [Object.prototype].  Under
    [__proto__] an object finds the prototype itself, which has no
    enumerable property of its own and stands here as an empty object; that
    its own prototype is [null] is not modelled. *)
Definition Object_prototype : obj :=
  [("constructor", JNative "Object" 1);
   ("__defineGetter__", JNative "__defineGetter__" 2);
   ("__defineSetter__", JNative "__defineSetter__" 2);
   ("hasOwnProperty", JNative "hasOwnProperty" 1);
   ("__lookupGetter__", JNative "__lookupGetter__" 1);
   ("__lookupSetter__", JNative "__lookupSetter__" 1);
   ("isPrototypeOf", JNative "isPrototypeOf" 1);
   ("propertyIsEnumerable", JNative "propertyIsEnumerable" 1);
   ("toString", JNative "toString" 0);
   ("valueOf", JNative "valueOf" 0);
   ("__proto__", JObj []);
   ("toLocaleString", JNative "toLocaleString" 0)].

(** [o[k]] for an object as [JSON.parse] or an object literal makes it: the
    own property, or else what the object inherits under that name. *)
Definition member_of (o : obj) (k : string) : json :=
  if bool_decide (k ∈ keys o) then lookup_key k o else lookup_key k Object_prototype.

(** The read [v[k]] under a name that comes from the data: the name of a
    declared parameter, read from the input of a tool, or a segment of a
    pointer, read from the document.  What an array, a string, a number or
    a boolean inherits from its own prototype is not modelled. *)
Definition member (v : json) (k : string) : res json :=
  match v with
  | JObj o => Ok (member_of o k)
  | _ => prop v k
  end.

(** [String(v)], which is also the conversion of a template literal, of a
    property key and of [Array.prototype.join].  An object converts through
    the [toString] that it inherits; one that holds a [toString] or a
    [valueOf] of its own is outside the model. *)
Fixpoint to_str (v : json) : string :=
  match v with
  | JUndefined => "undefined"
  | JNull => "null"
  | JBool true => "true"
  | JBool false => "false"
  | JNum n => dec_of_Z n
  | JStr s => s
  | JArr l =>
      join "," (map (λ x, match x with
                          | JUndefined | JNull => EmptyString
                          | _ => to_str x
                          end) l)
  | JObj _ => "[object Object]"
  | JNative name _ => "function " +:+ name +:+ "() { [native code] }"
  end.

(** [arr.join(sep)] *)
Definition join_values (sep : string) (l : list json) : string :=
  join sep (map (λ x, match x with
                      | JUndefined | JNull => EmptyString
                      | _ => to_str x
                      end) l).

(** Structural equality, which is [===] on primitives. *)
Fixpoint json_eqb (a b : json) : bool :=
  match a, b with
  | JUndefined, JUndefined | JNull, JNull => true
  | JBool x, JBool y => bool_decide (x = y)
  | JNum x, JNum y => x =? y
  | JStr x, JStr y => bool_decide (x = y)
  | JArr x, JArr y =>
      (fix go (x y : list json) : bool :=
         match x, y with
         | [], [] => true
         | u :: x', v :: y' => json_eqb u v && go x' y'
         | _, _ => false
         end) x y
  | JObj x, JObj y =>
      (fix go (x y : obj) : bool :=
         match x, y with
         | [], [] => true
         | (k, u) :: x', (k', v) :: y' => bool_decide (k = k') && json_eqb u v && go x' y'
         | _, _ => false
         end) x y
  | JNative x _, JNative y _ => bool_decide (x = y)
  | _, _ => false
  end.

(** The equality of [Set] and of [Array.prototype.includes] (SameValueZero):
    by value on primitives, by reference on arrays and objects.  The values
    compared below are distinct nodes of one parsed document, so no two
    arrays or objects among them are the same reference; a built-in function
    is the same wherever it is read. *)
Definition same_value_zero (a b : json) : bool :=
  match a, b with
  | JArr _, _ | JObj _, _ | _, JArr _ | _, JObj _ => false
  | _, _ => json_eqb a b
  end.

(** [[...new Set(l)]]: the first occurrence of each value, in order. *)
Fixpoint dedupe_from (seen l : list json) : list json :=
  match l with
  | [] => []
  | v :: l' =>
      if existsb (same_value_zero v) seen then dedupe_from seen l'
      else v :: dedupe_from (v :: seen) l'
  end.
Definition dedupe : list json → list json := dedupe_from [].

End JS.
Export JS.

(** The assignment [v.k = x] in strict mode (every file of the repository is
    an ES module).  A property written on an array under a name that is not
    an index, or on a function, is kept by it but is not part of its JSON
    content. *)
Definition set_prop (v : json) (k : string) (x : json) : res json :=
  match v with
  | JObj o => Ok (JObj (assign k x o))
  | JArr l => Ok (JArr l)
  | JNative name arity =>
      (* [name] and [length] of a function are read-only *)
      if bool_decide (k = "name") || bool_decide (k = "length") then Throw TypeError
      else Ok (JNative name arity)
  | _ => Throw TypeError
  end.

(** The document after the node at [path] has been replaced by [x]. *)
Fixpoint write_at (path : list string) (x : json) (root : json) : json :=
  match path with
  | [] => x
  | k :: path' =>
      match root with
      | JObj o => JObj (assign k (write_at path' x (lookup_key k o)) o)
      | JArr l =>
          match index_of_key k with
          | Some i => JArr (<[i := write_at path' x (default JUndefined (l !! i))]> l)
          | None => root
          end
      | _ => root
      end
  end.

(** The longest prefix of [s] whose characters pass [test], and the rest. *)
Fixpoint span_str (test : ascii → bool) (s : string) : string * string :=
  match s with
  | String a s' =>
      if test a then let '(taken, rest) := span_str test s' in (String a taken, rest)
      else (EmptyString, s)
  | EmptyString => (EmptyString, EmptyString)
  end.

(** The integer that a sequence of decimal digits denotes. *)
Fixpoint digits_value (acc : Z) (digits : string) : Z :=
  match digits with
  | String a digits' => digits_value (10 * acc + Z.of_nat (nat_of_ascii a - 48)) digits'
  | EmptyString => acc
  end.

Definition all_digits (digits : string) : bool :=
  bool_decide (filter_str is_digit digits = digits).

Definition some_nonzero (digits : string) : bool :=
  negb (bool_decide (filter_str (λ d, negb (bool_decide (d = "0"%char))) digits = "")).

(** The exponent part of a decimal literal, which may be missing: [e] or
    [E], a sign or none, and at least one digit. *)
Definition exponent_part (text : string) : option Z :=
  match text with
  | EmptyString => Some 0
  | String e signed =>
      if bool_decide (e = "e"%char) || bool_decide (e = "E"%char) then
        let '(negative, digits) :=
          match signed with
          | String "-" digits => (true, digits)
          | String "+" digits => (false, digits)
          | _ => (false, signed)
          end in
        if negb (bool_decide (digits = "")) && all_digits digits then
          Some (if negative then - digits_value 0 digits else digits_value 0 digits)
        else None
      else None
  end.

(** Whether an unsigned decimal literal ([Infinity], [12], [12.], [12.5],
    [.5], each of the last four with an exponent or without) is a number
    above zero.  The number is the nearest double: one that is not above
    2^-1075 is zero. *)
Definition positive_decimal (text : string) : bool :=
  if bool_decide (text = "Infinity") then true
  else
    let '(whole, rest) := span_str is_digit text in
    let '(fraction, rest) :=
      match rest with
      | String "." rest' => span_str is_digit rest'
      | _ => (EmptyString, rest)
      end in
    match exponent_part rest with
    | Some exponent =>
        if bool_decide (whole = "") && bool_decide (fraction = "") then false
        else
          let mantissa := digits_value 0 (whole +:+ fraction) in
          let scale := exponent - Z.of_nat (String.length fraction) in
          (0 <? mantissa)
          && ((0 <=? scale) || (10 ^ (- scale) <? mantissa * 2 ^ 1075))
    | None => false
    end.

(** The digits of the literals [0x..], [0o..] and [0b..]. *)
Definition radix_digit (radix a : ascii) : bool :=
  let n := nat_of_ascii a in
  if bool_decide (radix = "x"%char) || bool_decide (radix = "X"%char) then
    is_digit a || ((65 <=? n) && (n <=? 70))%nat || ((97 <=? n) && (n <=? 102))%nat
  else if bool_decide (radix = "o"%char) || bool_decide (radix = "O"%char) then
    ((48 <=? n) && (n <=? 55))%nat
  else if bool_decide (radix = "b"%char) || bool_decide (radix = "B"%char) then
    ((48 <=? n) && (n <=? 49))%nat
  else false.

(** Whether [Number(s)] is above zero.  The white space around the text is
    dropped; what is left is a literal with a radix prefix, which takes no
    sign, or a decimal literal after a sign or none.  The empty text is
    zero, and a text that is no literal is no number: neither is above
    zero. *)
Definition positive_numeral (s : string) : bool :=
  let text := trim s in
  let radix_literal :=
    match text with
    | String "0" (String radix digits) =>
        if negb (bool_decide (digits = ""))
           && bool_decide (filter_str (radix_digit radix) digits = digits)
        then Some (some_nonzero digits) else None
    | _ => None
    end in
  match radix_literal with
  | Some positive => positive
  | None =>
      match text with
      | String "+" unsigned => positive_decimal unsigned
      | String "-" _ => false
      | _ => positive_decimal text
      end
  end.

(** [v > 0]: a boolean counts as 1 or 0, [null] as 0; a string is read as a
    number, and so is an array, through the string it converts to; an
    object, a function and [undefined] are no number. *)
Definition gt_zero (v : json) : bool :=
  match v with
  | JNum n => 0 <? n
  | JBool b => b
  | JStr s => positive_numeral s
  | JArr _ => positive_numeral (to_str v)
  | _ => false
  end.

(** ** lib/schema.js *)

Inductive location : Type := Path | Query | Header | Cookie.

Global Instance location_eq_dec : EqDecision location.
Proof. solve_decision. Defined.

Definition location_name (l : location) : string :=
  match l with
  | Path => "path"
  | Query => "query"
  | Header => "header"
  | Cookie => "cookie"
  end.

(** [location === 'path' || location === 'query' || location === 'header' ||
    location === 'cookie'] *)
Definition location_of (v : json) : option location :=
  match v with
  | JStr s =>
      if bool_decide (s = "path") then Some Path
      else if bool_decide (s = "query") then Some Query
      else if bool_decide (s = "header") then Some Header
      else if bool_decide (s = "cookie") then Some Cookie
      else None
  | _ => None
  end.

(** The [parameters] object of [extractParameters]: one object per location
    and the body schema ([null] when there is none). *)
Record Parameters : Type := {
  p_path : obj;
  p_query : obj;
  p_header : obj;
  p_cookie : obj;
  p_body : json;
}.

(** The [required] object of [extractParameters]: one array per location. *)
Record Required : Type := {
  r_path : list json;
  r_query : list json;
  r_header : list json;
  r_cookie : list json;
}.

Definition bucket (l : location) (p : Parameters) : obj :=
  match l with
  | Path => p_path p
  | Query => p_query p
  | Header => p_header p
  | Cookie => p_cookie p
  end.

Definition set_bucket (l : location) (o : obj) (p : Parameters) : Parameters :=
  match l with
  | Path => {| p_path := o; p_query := p_query p; p_header := p_header p;
               p_cookie := p_cookie p; p_body := p_body p |}
  | Query => {| p_path := p_path p; p_query := o; p_header := p_header p;
                p_cookie := p_cookie p; p_body := p_body p |}
  | Header => {| p_path := p_path p; p_query := p_query p; p_header := o;
                 p_cookie := p_cookie p; p_body := p_body p |}
  | Cookie => {| p_path := p_path p; p_query := p_query p; p_header := p_header p;
                 p_cookie := o; p_body := p_body p |}
  end.

Definition set_body (b : json) (p : Parameters) : Parameters :=
  {| p_path := p_path p; p_query := p_query p; p_header := p_header p;
     p_cookie := p_cookie p; p_body := b |}.

Definition required_at (l : location) (r : Required) : list json :=
  match l with
  | Path => r_path r
  | Query => r_query r
  | Header => r_header r
  | Cookie => r_cookie r
  end.

(** [required[location].push(name)] *)
Definition push_required (l : location) (name : json) (r : Required) : Required :=
  match l with
  | Path => {| r_path := r_path r ++ [name]; r_query := r_query r;
               r_header := r_header r; r_cookie := r_cookie r |}
  | Query => {| r_path := r_path r; r_query := r_query r ++ [name];
                r_header := r_header r; r_cookie := r_cookie r |}
  | Header => {| r_path := r_path r; r_query := r_query r;
                 r_header := r_header r ++ [name]; r_cookie := r_cookie r |}
  | Cookie => {| r_path := r_path r; r_query := r_query r;
                 r_header := r_header r; r_cookie := r_cookie r ++ [name] |}
  end.

Definition no_parameters : Parameters :=
  {| p_path := []; p_query := []; p_header := []; p_cookie := []; p_body := JNull |}.
Definition no_required : Required :=
  {| r_path := []; r_query := []; r_header := []; r_cookie := [] |}.

(** What a run of [extractParameters] leaves behind: the two objects it
    returns, the lines it wrote with [console.warn], and the operation object
    as it is after the call. *)
Record Extraction : Type := {
  parameters : Parameters;
  required : Required;
  warnings : list string;
  operation_after : json;
}.

Definition nameless_warning : string := "⚠️  Parameter without name found, skipping".

(** One turn of the loop over [operation.parameters]. *)
Definition extract_one (acc : Parameters * Required * list string) (param : json)
  : res (Parameters * Required * list string) :=
  let '(ps, rq, log) := acc in
  location ← prop param "in";
  name ← prop param "name";
  if negb (truthy name) then Ok (ps, rq, log ++ [nameless_warning])
  else
    declared ← prop param "schema";
    let schema := or_else declared (JObj [("type", JStr "string")]) in
    ty ← prop schema "type";
    let paramSchema :=
      assign_all (own_entries schema) [("type", or_else ty (JStr "string"))] in
    description ← prop param "description";
    let paramSchema :=
      if truthy description then assign "description" description paramSchema
      else paramSchema in
    example ← prop param "example";
    let paramSchema :=
      if is_undefined example then paramSchema
      else assign "example" example paramSchema in
    match location_of location with
    | Some loc =>
        req ← prop param "required";
        Ok (set_bucket loc (put (to_str name) (JObj paramSchema) (bucket loc ps)) ps,
            (if is_true req then push_required loc name rq else rq),
            log)
    | None => Ok (ps, rq, log)
    end.

Fixpoint extract_all (acc : Parameters * Required * list string) (l : list json)
  : res (Parameters * Required * list string) :=
  match l with
  | [] => Ok acc
  | param :: l' =>
      acc' ← extract_one acc param;
      extract_all acc' l'
  end.

Definition body_schema_path : list string :=
  ["requestBody"; "content"; "application/json"; "schema"].

Definition extractParameters (operation : json) : res Extraction :=
  declared ← prop operation "parameters";
  '(ps, rq, log) ←
    match declared with
    | JArr l => extract_all (no_parameters, no_required, []) l
    | _ => Ok (no_parameters, no_required, [])
    end;
  requestBody ← prop operation "requestBody";
  if truthy requestBody then
    content ← prop requestBody "content";
    media ← (if truthy content then prop content "application/json" else Ok JUndefined);
    if truthy content && truthy media then
      declared_schema ← prop media "schema";
      let body := or_else declared_schema (JObj []) in
      body_required ← prop requestBody "required";
      if is_true body_required then
        (* [parameters.body] is the schema node of the document itself when
           the media type declares one: the write lands in the document. *)
        body' ← set_prop body "required" (JBool true);
        Ok {| parameters := set_body body' ps; required := rq; warnings := log;
              operation_after :=
                if truthy declared_schema
                then write_at body_schema_path body' operation
                else operation |}
      else
        Ok {| parameters := set_body body ps; required := rq; warnings := log;
              operation_after := operation |}
    else
      Ok {| parameters := ps; required := rq; warnings := log;
            operation_after := operation |}
  else
    Ok {| parameters := ps; required := rq; warnings := log;
          operation_after := operation |}.

Definition all_locations : list location := [Path; Query; Header; Cookie].

(** The properties and the required names that the four locations contribute
    to the input schema. *)
Definition merge_location (ps : Parameters) (rq : Required)
    (acc : obj * list json) (loc : location) : obj * list json :=
  (fold_left
     (λ props kv,
        put kv.1
          (JObj (assign "x-parameter-location" (JStr (location_name loc))
                   (own_entries kv.2)))
          props)
     (bucket loc ps) acc.1,
   acc.2 ++ required_at loc rq).

(** Returns the schema and the operation as the call leaves it. *)
Definition buildInputSchema (operation : json) : res (json * json) :=
  ex ← extractParameters operation;
  let ps := parameters ex in
  let '(props, req) :=
    fold_left (merge_location ps (required ex)) all_locations ([], []) in
  '(props, req) ←
    (if truthy (p_body ps) then
       body_properties ← prop (p_body ps) "properties";
       if truthy body_properties then
         body_required ← prop (p_body ps) "required";
         Ok (Object_assign (own_entries body_properties) props,
             match body_required with
             | JArr l => req ++ l
             | _ => req
             end)
       else
         body_type ← prop (p_body ps) "type";
         if truthy body_type then
           body_required ← prop (p_body ps) "required";
           Ok (assign "_body" (p_body ps) props,
               if is_true body_required then req ++ [JStr "_body"] else req)
         else Ok (props, req)
     else Ok (props, req));
  Ok (JObj [("type", JStr "object");
            ("properties", JObj props);
            ("required", JArr (dedupe req));
            ("additionalProperties", JBool false)],
      operation_after ex).

Definition successCodes : list string := ["200"; "201"; "204"; "206"].

Fixpoint first_success (responses : json) (codes : list string) : res (option json) :=
  match codes with
  | [] => Ok None
  | code :: codes' =>
      response ← prop responses code;
      content ← (if truthy response then prop response "content" else Ok JUndefined);
      media ← (if truthy content then prop content "application/json" else Ok JUndefined);
      if truthy response && truthy content && truthy media then
        declared ← prop media "schema";
        Ok (Some (JObj (assign "x-response-code" (JStr code)
                          (own_entries (or_else declared (JObj []))))))
      else first_success responses codes'
  end.

Definition extractOutputSchema (operation : json) : res json :=
  responses ← prop operation "responses";
  if negb (truthy responses) then Ok (JObj [])
  else
    found ← first_success responses successCodes;
    match found with
    | Some schema => Ok schema
    | None =>
        fallback ← prop responses "default";
        content ← (if truthy fallback then prop fallback "content" else Ok JUndefined);
        if truthy fallback && truthy content then
          defaultContent ← prop content "application/json";
          declared ← (if truthy defaultContent then prop defaultContent "schema"
                      else Ok JUndefined);
          if truthy defaultContent && truthy declared then Ok declared
          else Ok (JObj [])
        else Ok (JObj [])
    end.

Definition error_entry (errors : obj) (kv : string * json) : res obj :=
  let '(code, response) := kv in
  if starts_with "4" code || starts_with "5" code then
    content ← prop response "content";
    media ← (if truthy content then prop content "application/json" else Ok JUndefined);
    if truthy content && truthy media then
      declared ← prop media "schema";
      Ok (put code (or_else declared (JObj [])) errors)
    else
      description ← prop response "description";
      Ok (put code
            (JObj [("type", JStr "object");
                   ("description", or_else description (JStr "Error response"))])
            errors)
  else Ok errors.

Fixpoint foldM {A B} (f : A → B → res A) (l : list B) (a : A) : res A :=
  match l with
  | [] => Ok a
  | x :: l' => a' ← f a x; foldM f l' a'
  end.

Definition extractErrorSchemas (operation : json) : res json :=
  responses ← prop operation "responses";
  if negb (truthy responses) then Ok (JObj [])
  else
    codes ← entries responses;
    errors ← foldM error_entry codes [];
    Ok (JObj errors).

(** [`${location}: ${required[location].join(', ')}`] for the locations with a
    required parameter. *)
Definition required_hints (rq : Required) : list json :=
  flat_map
    (λ loc,
       if bool_decide (required_at loc rq = []) then []
       else [JStr (location_name loc +:+ ": " +:+ join_values ", " (required_at loc rq))])
    [Path; Query; Header].

(** Returns the description and the operation as the call leaves it. *)
Definition buildToolDescription (operation : json) (method route : string)
  : res (string * json) :=
  summary ← prop operation "summary";
  operationId ← prop operation "operationId";
  let parts :=
    if truthy summary then [summary]
    else if truthy operationId then [operationId]
    else [JStr (toUpperCase method +:+ " " +:+ route)] in
  description ← prop operation "description";
  let parts :=
    if truthy description && negb (same_value_zero description summary)
    then parts ++ [description] else parts in
  ex ← extractParameters operation;
  let requiredParams := required_hints (required ex) in
  let parts :=
    if bool_decide (requiredParams = []) then parts
    else parts ++ [JStr ("Required parameters: " +:+ join_values "; " requiredParams)] in
  tags ← prop operation "tags";
  count ← (if truthy tags then prop tags "length" else Ok JUndefined);
  parts ←
    (if truthy tags && gt_zero count then
       match tags with
       | JArr l => Ok (parts ++ [JStr ("Tags: " +:+ join_values ", " l)])
       | _ => Throw TypeError
       end
     else Ok parts);
  Ok (join_values ". " parts, operation_after ex).

(** [schema.$ref.replace(/^#\//, '').split('/')] *)
Definition ref_path (ref : string) : list string :=
  split_on "/" (if starts_with "#/" ref then drop_str 2 ref else ref).

(** The walk of a pointer through the document; [None] when a segment is to
    be read from something that is not an object, which is the case the code
    reports with a warning. *)
Fixpoint walk (resolved : json) (segments : list string) : option json :=
  match segments with
  | [] => Some resolved
  | segment :: rest =>
      if truthy resolved && typeof_object resolved then
        match member resolved segment with
        | Ok next => walk next rest
        | Throw _ => None
        end
      else None
  end.

Section ResolveBody.

(** The body of [resolveSchemaRefs] with its recursive calls, which all
    pass the same [spec], as the variable [self]. *)
Variable self : json → res json.
Variable spec : json.

(** The callback of the [reduce] over [Object.entries(result.properties)]. *)
Definition resolve_entry (acc : obj) (kv : string * json) : res obj :=
  v ← self kv.2;
  Ok (put kv.1 v acc).

Definition resolve_properties (result : obj) : res obj :=
  let properties := lookup_key "properties" result in
  if truthy properties then
    acc ← foldM resolve_entry (own_entries properties) [];
    Ok (assign "properties" (JObj acc) result)
  else Ok result.

Definition resolve_items (result : obj) : res obj :=
  let items := lookup_key "items" result in
  if truthy items then
    items' ← self items;
    Ok (assign "items" items' result)
  else Ok result.

(** [if (result[key]) result[key] = result[key].map(s => resolveSchemaRefs(s, spec))]:
    a value without [map] makes the call throw. *)
Definition resolve_list (key : string) (result : obj) : res obj :=
  match lookup_key key result with
  | JArr l =>
      l' ← mapM self l;
      Ok (assign key (JArr l') result)
  | v => if truthy v then Throw TypeError else Ok result
  end.

Definition resolve_body (schema : json) : res json :=
  if negb (truthy schema) || negb (typeof_object schema) then Ok schema
  else
    ref ← prop schema "$ref";
    if truthy ref then
      match ref with
      | JStr pointer =>
          match walk spec (ref_path pointer) with
          | None => Ok schema
          | Some resolved => self resolved
          end
      | _ => Throw TypeError
      end
    else
      result ← resolve_properties (own_entries schema);
      result ← resolve_items result;
      result ← resolve_list "allOf" result;
      result ← resolve_list "oneOf" result;
      result ← resolve_list "anyOf" result;
      Ok (JObj result).

End ResolveBody.

(** [resolveSchemaRefs] has no bound of its own on its recursion: the bound
    is the call stack, whose depth is the first argument here.  When it is
    used up the runtime throws a [RangeError]. *)
Fixpoint resolveSchemaRefs (depth : nat) (schema spec : json) : res json :=
  match depth with
  | O => Throw RangeError
  | S depth' => resolve_body (λ s, resolveSchemaRefs depth' s spec) spec schema
  end.

(** ** lib/security.js *)

Record SecurityConfig : Type := {
  allowedSchemes : list string;
  allowedHosts : list string;
  blockPrivateIPs : bool;
  allowedExtensions : list string;
  baseDirectory : option string;      (* [null] is [None] *)
  maxFileSize : Z;
}.

Definition defaultSecurityConfig : SecurityConfig := {|
  allowedSchemes := ["https"];
  allowedHosts := [];
  blockPrivateIPs := true;
  allowedExtensions := [".yaml"; ".yml"; ".json"];
  baseDirectory := None;
  maxFileSize := 10 * 1024 * 1024;
|}.

Definition char_in (lo hi : nat) (a : ascii) : bool :=
  let n := nat_of_ascii a in ((lo <=? n) && (n <=? hi))%nat.

(** [/^172\.(1[6-9]|2\d|3[01])\./] *)
Definition private_172 (h : string) : bool :=
  starts_with "172." h &&
  match drop_str 4 h with
  | String a (String b (String c _)) =>
      (bool_decide (a = "1"%char) && char_in 54 57 b
       || bool_decide (a = "2"%char) && is_digit b
       || bool_decide (a = "3"%char) && char_in 48 49 b)
      && bool_decide (c = "."%char)
  | _ => false
  end.

(** Each regular expression of the table is the test it performs. *)
Definition PRIVATE_IP_RANGES : list (string → bool) := [
  starts_with "127.";                    (* /^127\./ *)
  starts_with "10.";                     (* /^10\./ *)
  private_172;
  starts_with "192.168.";                (* /^192\.168\./ *)
  starts_with "169.254.";                (* /^169\.254\./ *)
  (λ h, bool_decide (h = "::1"));        (* /^::1$/ *)
  starts_with "fe80:";                   (* /^fe80:/ *)
  starts_with "fc00:";                   (* /^fc00:/ *)
  starts_with "fd00:"                    (* /^fd00:/ *)
].

Definition isPrivateIP (hostname : string) : bool :=
  existsb (λ range, range hostname) PRIVATE_IP_RANGES.

(** The fields of a parsed [URL] that the code reads. *)
Record URL : Type := {
  protocol : string;      (* with its final colon *)
  hostname : string;
  href : string;
}.

(** The callback of [config.allowedHosts.some]. *)
Definition host_matches (name host : string) : bool :=
  if starts_with "*." host then
    let domain := drop_str 2 host in
    bool_decide (name = domain) || ends_with ("." +:+ domain) name
  else bool_decide (name = host).

Section ValidateURL.

(** [new URL(urlString)] belongs to the platform: it returns the parsed
    URL or throws with a message. *)
Variable new_URL : string → string + URL.

Definition validateURL (urlString : string) (config : SecurityConfig) : res URL :=
  match new_URL urlString with
  | inl message => Throw (Error ("Invalid URL: " +:+ message))
  | inr parsedURL =>
      if negb (bool_decide (drop_last (protocol parsedURL) ∈ allowedSchemes config)) then
        Throw (Error ("URL scheme '" +:+ protocol parsedURL
                      +:+ "' not allowed. Allowed schemes: "
                      +:+ join ", " (allowedSchemes config)))
      else if (0 <? length (allowedHosts config))%nat
              && negb (existsb (host_matches (hostname parsedURL)) (allowedHosts config)) then
        Throw (Error ("Host '" +:+ hostname parsedURL
                      +:+ "' not in allowlist. Allowed hosts: "
                      +:+ join ", " (allowedHosts config)))
      else if blockPrivateIPs config && isPrivateIP (hostname parsedURL) then
        Throw (Error ("Access to private/internal IP addresses is blocked for security: "
                      +:+ hostname parsedURL))
      else Ok parsedURL
  end.

End ValidateURL.

(** What [validateFilePath] asks of Node: [path.resolve], [path.extname],
    [path.sep], [fs.existsSync] and the [isFile()] and [size] of
    [fs.statSync]. *)
Record Platform : Type := {
  path_resolve : string → string;
  path_extname : string → string;
  path_sep : string;
  fs_existsSync : string → bool;
  fs_isFile : string → bool;
  fs_size : string → Z;
}.

Definition validateFilePath (node : Platform) (filePath : string) (config : SecurityConfig)
  : res string :=
  let resolvedPath := path_resolve node filePath in
  let ext := toLowerCase (path_extname node resolvedPath) in
  if negb (bool_decide (ext ∈ allowedExtensions config)) then
    Throw (Error ("File extension '" +:+ ext +:+ "' not allowed. Allowed extensions: "
                  +:+ join ", " (allowedExtensions config)))
  else if negb (fs_existsSync node resolvedPath) then
    Throw (Error ("File not found: " +:+ resolvedPath))
  else if negb (fs_isFile node resolvedPath) then
    Throw (Error ("Path is not a file: " +:+ resolvedPath))
  else if maxFileSize config <? fs_size node resolvedPath then
    Throw (Error ("File size " +:+ dec_of_Z (fs_size node resolvedPath)
                  +:+ " bytes exceeds maximum allowed "
                  +:+ dec_of_Z (maxFileSize config) +:+ " bytes"))
  else
    match baseDirectory config with
    | Some base =>
        if bool_decide (base = "") then Ok resolvedPath
        else
          let baseDir := path_resolve node base in
          if negb (starts_with (baseDir +:+ path_sep node) resolvedPath)
             && negb (bool_decide (resolvedPath = baseDir)) then
            Throw (Error ("File path '" +:+ resolvedPath
                          +:+ "' is outside allowed base directory '" +:+ baseDir +:+ "'"))
          else Ok resolvedPath
    | None => Ok resolvedPath
    end.

(** [/[\x00-\x1F\x7F]/] *)
Definition is_control (a : ascii) : bool :=
  let n := nat_of_ascii a in ((n <=? 31) || (n =? 127))%nat.

(** The name is a string, as every caller hands one.  [trim] and
    [slice(0, 200)] count bytes here and UTF-16 units in JavaScript: on a
    name of ASCII characters the two agree. *)
Definition sanitizeToolName (name : string) : res string :=
  if bool_decide (name = "") then Throw (Error "Tool name must be a non-empty string")
  else
    let sanitized := take_str 200 (trim (filter_str (λ a, negb (is_control a)) name)) in
    if (String.length sanitized =? 0)%nat then
      Throw (Error "Tool name becomes empty after sanitization")
    else Ok sanitized.

Definition privileged_port_warning (port : Z) : string :=
  "⚠️  Warning: Port " +:+ dec_of_Z port
  +:+ " is a privileged port (requires elevated permissions)".

(** The port is the integer that [Number(port)] gives; a port that gives no
    integer is outside the model, as fractions are.  Returns the port and
    what the call wrote with [console.warn]. *)
Definition validatePort (port : Z) : res (Z * list string) :=
  if (port <? 1) || (65535 <? port) then
    Throw (Error ("Port must be between 1 and 65535, got: " +:+ dec_of_Z port))
  else Ok (port, if port <? 1024 then [privileged_port_warning port] else []).

(** ** The POSIX platform

    Modelled from Node's documentation of [path.posix] and of the WHATWG URL
    parser, for the concrete cases: neither is code of the repository. *)

Definition normalize_segments (segments : list string) : list string :=
  rev (fold_left
         (λ stack segment,
            if bool_decide (segment = "") || bool_decide (segment = ".") then stack
            else if bool_decide (segment = "..") then tail stack
            else segment :: stack)
         segments []).

Definition posix_resolve (cwd p : string) : string :=
  let full := if starts_with "/" p then p else cwd +:+ "/" +:+ p in
  "/" +:+ join "/" (normalize_segments (split_on "/" full)).

Definition posix_extname (p : string) : string :=
  let base := default EmptyString (last (split_on "/" p)) in
  match find_sub "." (String.rev base) with
  | Some (rev_ext, rev_stem) =>
      if bool_decide (rev_stem = "") || bool_decide (base = "..") then EmptyString
      else "." +:+ String.rev rev_ext
  | None => EmptyString
  end.

(** A file system given by the sizes of its regular files. *)
Definition posix (cwd : string) (files : list (string * Z)) : Platform := {|
  path_resolve := posix_resolve cwd;
  path_extname := posix_extname;
  path_sep := "/";
  fs_existsSync := λ p, bool_decide (p ∈ files.*1);
  fs_isFile := λ p, bool_decide (p ∈ files.*1);
  fs_size := λ p, default 0 (snd <$> find (λ f, bool_decide (f.1 = p)) files);
|}.

(** A parser for URLs of the shape [scheme://host/path] with neither
    credentials nor a port, whose host is a domain name in lower case, an
    IPv4 address in its four decimal parts or an IPv6 address in brackets in
    its shortest form: on these the WHATWG parser returns the scheme with
    its colon, the host unchanged, brackets included, and the input as
    [href]. *)
Definition plain_URL (s : string) : string + URL :=
  match find_sub "://" s with
  | Some (scheme, rest) =>
      if bool_decide (scheme = "") then inl "Invalid URL"
      else
        let host := default EmptyString (head (split_on "/" rest)) in
        if bool_decide (host = "") then inl "Invalid URL"
        else inr {| protocol := scheme +:+ ":"; hostname := host; href := s |}
  | None => inl "Invalid URL"
  end.

(** ** lib/swagger-to-mcp.js *)

Definition getBaseUrl (spec : json) : res json :=
  servers ← prop spec "servers";
  count ← (if truthy servers then prop servers "length" else Ok JUndefined);
  if truthy servers && gt_zero count then
    first ← prop servers "0";
    prop first "url"
  else
    host ← prop spec "host";
    if truthy host then
      schemes ← prop spec "schemes";
      count ← (if truthy schemes then prop schemes "length" else Ok JUndefined);
      scheme ← (if truthy schemes && gt_zero count then prop schemes "0"
                else Ok (JStr "https"));
      declared ← prop spec "basePath";
      let basePath := or_else declared (JStr "") in
      Ok (JStr (to_str scheme +:+ "://" +:+ to_str host +:+ to_str basePath))
    else Ok (JStr "").

Definition hex_digit (n : nat) : ascii :=
  if (n <? 10)%nat then ascii_of_nat (48 + n) else ascii_of_nat (55 + n).

(** The characters [encodeURIComponent] leaves alone:
    [A-Z a-z 0-9 - _ . ! ~ * ' ( )]. *)
Definition unreserved (a : ascii) : bool :=
  char_in 65 90 a || char_in 97 122 a || is_digit a
  || bool_decide (a ∈ ["-"; "_"; "."; "!"; "~"; "*"; "'"; "("; ")"]%char).

Fixpoint encodeURIComponent (s : string) : string :=
  match s with
  | EmptyString => EmptyString
  | String a s' =>
      if unreserved a then String a (encodeURIComponent s')
      else
        let n := nat_of_ascii a in
        String "%" (String (hex_digit (n / 16)) (String (hex_digit (n mod 16))
                                                    (encodeURIComponent s')))
  end.

(** The request configuration handed to the HTTP client; [params] and [data]
    are the two properties that are only set under a condition. *)
Record RequestConfig : Type := {
  cfg_method : string;
  cfg_url : string;
  cfg_headers : obj;
  cfg_timeout : Z;
  cfg_params : option obj;
  cfg_data : option json;
}.

(** One turn of the loop over the path parameters: when [input[name]] is
    not [undefined], its value takes the place of the first [{name}] of the
    URL. *)
Definition substitute (input : json) (url : string) (kv : string * json) : res string :=
  v ← member input kv.1;
  Ok (if is_undefined v then url
      else replace_first ("{" +:+ kv.1 +:+ "}") (encodeURIComponent (to_str v)) url).

(** One turn of the loops over the query and the header parameters: when
    [input[name]] is not [undefined], it is assigned under the name. *)
Definition collect (input : json) (acc : obj) (kv : string * json) : res obj :=
  v ← member input kv.1;
  Ok (if is_undefined v then acc else put kv.1 v acc).

Definition mutating (method : string) : bool :=
  bool_decide (toLowerCase method ∈ ["post"; "put"; "patch"]).

(** [delete bodyData[name]] for each name of a location. *)
Definition remove_all (names : list string) (o : obj) : obj :=
  fold_left (λ acc name, remove name acc) names o.

(** Returns the configuration and the operation as the call leaves it. *)
Definition buildRequestConfig (input operation : json) (method route : string)
    (baseUrl : json) : res (RequestConfig * json) :=
  ex ← extractParameters operation;
  let ps := parameters ex in
  url ← foldM (substitute input) (p_path ps) (to_str baseUrl +:+ route);
  queryParams ← foldM (collect input) (p_query ps) [];
  headers ← foldM (collect input) (p_header ps)
              [("Content-Type", JStr "application/json")];
  let data :=
    if mutating method then
      let bodyData :=
        remove_all (keys (p_header ps))
          (remove_all (keys (p_query ps))
             (remove_all (keys (p_path ps)) (own_entries input))) in
      if negb (is_undefined (lookup_key "_body" bodyData)) then
        Some (lookup_key "_body" bodyData)
      else if (0 <? length bodyData)%nat then Some (JObj bodyData)
      else None
    else None in
  Ok ({| cfg_method := toLowerCase method;
         cfg_url := url;
         cfg_headers := headers;
         cfg_timeout := 30000;
         cfg_params := if (0 <? length queryParams)%nat then Some queryParams else None;
         cfg_data := data |},
      operation_after ex).

Record Options : Type := {
  manifestOnly : bool;
  port : Z;
}.

(** An entry of [manifest.tools]. *)
Record ManifestTool : Type := {
  mt_name : string;
  mt_description : json;
  mt_method : string;
  mt_path : string;
  mt_tags : json;
}.

Record Manifest : Type := {
  m_name : json;
  m_version : json;
  m_description : json;
  m_tools : list ManifestTool;
  m_server_url : string;
}.

(** A registration on the server.  The handler is the closure over the
    operation's route and method: on an input it runs the validator and then
    [buildRequestConfig] on the operation found there. *)
Record Tool : Type := {
  t_name : string;
  t_description : string;
  t_inputSchema : json;
  t_outputSchema : json;
  t_route : string;
  t_method : string;
}.

(** The variables of the loop of [createMCPFromSwagger], and the document,
    which the loop writes to through [extractParameters]. *)
Record Compile : Type := {
  swagger : json;
  registeredTools : gset string;
  server_tools : list Tool;
  manifest_tools : list ManifestTool;
  toolCount : nat;
  failures : list (string * exn);     (* the lines of [console.error] *)
}.

Definition http_verbs : list string :=
  ["get"; "post"; "put"; "patch"; "delete"; "options"; "head"].

(** [route.replace(/[\/{}]/g, '_')] *)
Definition underscore_route (route : string) : string :=
  map_str (λ a, if bool_decide (a ∈ ["/"; "{"; "}"]%char) then "_"%char else a) route.

Definition with_swagger (d : json) (st : Compile) : Compile :=
  {| swagger := d; registeredTools := registeredTools st; server_tools := server_tools st;
     manifest_tools := manifest_tools st; toolCount := toolCount st;
     failures := failures st |}.

Definition with_name (name : string) (st : Compile) : Compile :=
  {| swagger := swagger st; registeredTools := {[name]} ∪ registeredTools st;
     server_tools := server_tools st; manifest_tools := manifest_tools st;
     toolCount := toolCount st; failures := failures st |}.

(** The [catch] of the loop body: the failure is printed and nothing else
    changes. *)
Definition caught (method route : string) (e : exn) (st : Compile) : Compile :=
  {| swagger := swagger st; registeredTools := registeredTools st;
     server_tools := server_tools st; manifest_tools := manifest_tools st;
     toolCount := toolCount st;
     failures := failures st ++ [(toUpperCase method +:+ " " +:+ route, e)] |}.

Section Compiler.

(** The collaborators of the compiler: whether [ajv.compile] accepts a
    schema, whether the host's [registerTool] accepts a name given the
    names it holds, and the depth of the call stack. *)
Variable ajv_compile : json → bool.
Variable registerTool : list string → string → bool.
Variable stack : nat.

(** The tool name of an operation: [`${METHOD} ${route}`] sanitized, with
    the operation identifier appended when the name is taken. *)
Definition toolName_of (registered : gset string) (method route : string)
    (operationId : json) : res string :=
  toolName ← sanitizeToolName (toUpperCase method +:+ " " +:+ route);
  Ok (if bool_decide (toolName ∈ registered)
      then toolName +:+ " (" +:+ to_str operationId +:+ ")"
      else toolName).

(** The body of the [try] from the point where the name is in the set: the
    state it reaches, and whether it completed. *)
Definition register_named (toolName : string) (operationId : json)
    (route method : string) (operation : json) (st : Compile) : Compile * res () :=
  match buildInputSchema operation with
  | Throw e => (st, Throw e)
  | Ok (inputSchema, operation) =>
      let st := with_swagger (write_at ["paths"; route; method] operation (swagger st)) st in
      match
        resolvedInputSchema ← resolveSchemaRefs stack inputSchema (swagger st);
        declaredOutput ← extractOutputSchema operation;
        outputSchema ← resolveSchemaRefs stack declaredOutput (swagger st);
        errorSchemas ← extractErrorSchemas operation;
        described ← buildToolDescription operation method route;
        Ok (resolvedInputSchema, outputSchema, described.1)
      with
      | Throw e => (st, Throw e)
      | Ok (resolvedInputSchema, outputSchema, description) =>
          if negb (ajv_compile resolvedInputSchema) then
            (st, Throw (Error "schema is invalid"))
          else if negb (registerTool (t_name <$> server_tools st) toolName) then
            (st, Throw (Error "registerTool failed"))
          else
            ({| swagger := swagger st;
                registeredTools := registeredTools st;
                server_tools :=
                  server_tools st ++
                    [{| t_name := toolName; t_description := description;
                        t_inputSchema := resolvedInputSchema;
                        t_outputSchema := outputSchema;
                        t_route := route; t_method := method |}];
                manifest_tools :=
                  manifest_tools st ++
                    [{| mt_name := toolName;
                        mt_description :=
                          or_else (prop_opt operation "summary") operationId;
                        mt_method := toUpperCase method;
                        mt_path := route;
                        mt_tags := or_else (prop_opt operation "tags") (JArr []) |}];
                toolCount := S (toolCount st);
                failures := failures st |},
             Ok ())
      end
  end.

(** One turn of the inner loop. *)
Definition compile_operation (route : string) (st : Compile) (entry : string * json)
  : Compile :=
  let '(method, operation) := entry in
  if negb (bool_decide (toLowerCase method ∈ http_verbs)) then st
  else
    match
      declared ← prop operation "operationId";
      let operationId :=
        or_else declared (JStr (method +:+ "_" +:+ underscore_route route)) in
      toolName ← toolName_of (registeredTools st) method route operationId;
      Ok (toolName, operationId)
    with
    | Throw e => caught method route e st
    | Ok (toolName, operationId) =>
        let '(st, outcome) :=
          register_named toolName operationId route method operation
            (with_name toolName st) in
        match outcome with
        | Ok _ => st
        | Throw e => caught method route e st
        end
    end.

(** The outer loop; [Object.entries(methods)] is not inside the [try], so
    that its exception ends the run. *)
Fixpoint compile_routes (routes : list (string * json)) (st : Compile)
  : Compile * res () :=
  match routes with
  | [] => (st, Ok ())
  | (route, methods) :: rest =>
      match entries methods with
      | Throw e => (st, Throw e)
      | Ok operations =>
          compile_routes rest (fold_left (compile_operation route) operations st)
      end
  end.

(** What a run produces: what the call returns ([None] is [null], otherwise
    the tools of the server), the manifest written to [mcp.json] if the run
    got that far, the document as the run leaves it, the failures that the
    loop wrote with [console.error], and what [validatePort] wrote with
    [console.warn].  The lines of [console.log], and the warnings of
    [extractParameters] and [resolveSchemaRefs] inside the loop, are not
    recorded. *)
Record Run : Type := {
  returned : res (option (list Tool));
  written : option Manifest;
  swagger_after : json;
  printed : list (string * exn);
  warned : list string;
}.

Definition no_tools_message : string :=
  "No tools were registered. Cannot start MCP server.".

Definition aborted (e : exn) (warnings : list string) (st : Compile) : Run :=
  {| returned := Throw e; written := None; swagger_after := swagger st;
     printed := failures st; warned := warnings |}.

Definition initial (document : json) : Compile :=
  {| swagger := document; registeredTools := ∅; server_tools := [];
     manifest_tools := []; toolCount := 0; failures := [] |}.

Definition createMCPFromSwagger (document : json) (options : Options) : Run :=
  match validatePort (port options) with
  | Throw e => aborted e [] (initial document)
  | Ok (validatedPort, warnings) =>
      match
        baseUrl ← getBaseUrl document;
        if negb (truthy baseUrl) then
          Throw (Error "Could not determine base URL from Swagger spec")
        else
          declared ← prop document "paths";
          entries (or_else declared (JObj []))
      with
      | Throw e => aborted e warnings (initial document)
      | Ok routes =>
          match compile_routes routes (initial document) with
          | (st, Throw e) => aborted e warnings st
          | (st, Ok _) =>
              let info := prop_opt document "info" in
              let manifest :=
                {| m_name := or_else (prop_opt info "title") (JStr "swagger-to-mcp");
                   m_version := or_else (prop_opt info "version") (JStr "1.0.0");
                   m_description :=
                     or_else (prop_opt info "description")
                       (JStr "MCP server generated from Swagger/OpenAPI");
                   m_tools := manifest_tools st;
                   m_server_url := "http://localhost:" +:+ dec_of_Z validatedPort |} in
              {| returned :=
                   if manifestOnly options then Ok None
                   else if bool_decide (toolCount st = 0%nat) then
                     Throw (Error no_tools_message)
                   else Ok (Some (server_tools st));
                 written := Some manifest;
                 swagger_after := swagger st;
                 printed := failures st;
                 warned := warnings |}
          end
      end
  end.

End Compiler.

(** ** lib/security.js: the shape of a document *)

Definition swagger2_warning : string :=
  "⚠️  Warning: Swagger 2.0 detected. Consider upgrading to OpenAPI 3.x for better support.".

(** [validateSwaggerSpec] returns [true] or throws; the value here is what a
    call that returns wrote with [console.warn]. *)
Definition validateSwaggerSpec (spec : json) : res (list string) :=
  if negb (truthy spec) || negb (typeof_object spec) then
    Throw (Error "Swagger spec must be an object")
  else
    openapi ← prop spec "openapi";
    version ← (if truthy openapi then Ok openapi else prop spec "swagger");
    if negb (truthy version) then
      Throw (Error "Missing OpenAPI/Swagger version field (openapi or swagger)")
    else
      info ← prop spec "info";
      if negb (truthy info) then Throw (Error "Missing required field: info")
      else
        title ← prop info "title";
        if negb (truthy title) then Throw (Error "Missing required field: info.title")
        else
          info ← prop spec "info";
          release ← prop info "version";
          if negb (truthy release) then Throw (Error "Missing required field: info.version")
          else
            paths ← prop spec "paths";
            if negb (truthy paths) || negb (typeof_object paths) then
              Throw (Error "Missing or invalid required field: paths (must be an object)")
            else
              let pathCount := length (keys (own_entries paths)) in
              if bool_decide (pathCount = 0%nat) then
                Throw (Error "Swagger spec must contain at least one path")
              else
                swagger ← prop spec "swagger";
                openapi ← (if truthy swagger then prop spec "openapi" else Ok JUndefined);
                Ok (if truthy swagger && negb (truthy openapi) then [swagger2_warning]
                    else []).

(** ** lib/swagger-to-mcp.js: loading a document *)

(** What [loadSwagger] asks of its libraries: [axios.get] (the [data] of the
    response), [fs.readFileSync], [yaml.safeLoad] and [JSON.parse].  Each
    returns its value or throws, and what is thrown is known by its
    [message]. *)
Record Loader : Type := {
  axios_get : string → string + json;
  fs_readFileSync : string → string + string;
  yaml_safeLoad : string → string + json;
  JSON_parse : string → string + json;
}.

Definition of_library {A} (outcome : string + A) : res A :=
  match outcome with
  | inl message => Throw (Error message)
  | inr a => Ok a
  end.

(** What a call reached outside the process for: a request of [axios.get],
    a question of [fs.existsSync] or of [fs.statSync] about a path, the
    content of a file through [fs.readFileSync]. *)
Inductive access : Type :=
| Fetched (href : string)
| Probed (path : string)
| Stat (path : string)
| ReadFile (path : string).

(** The questions that [validateFilePath] puts to the file system, in order:
    whether the resolved path exists, once its extension has passed, and
    what is there, when something is.  Both come before the base directory
    is looked at. *)
Definition validateFilePath_probes (node : Platform) (filePath : string)
    (config : SecurityConfig) : list access :=
  let resolvedPath := path_resolve node filePath in
  let ext := toLowerCase (path_extname node resolvedPath) in
  if negb (bool_decide (ext ∈ allowedExtensions config)) then []
  else if negb (fs_existsSync node resolvedPath) then [Probed resolvedPath]
  else [Probed resolvedPath; Stat resolvedPath].

(** The [message] of a thrown value; that of an exception of the runtime
    is the runtime's own text. *)
Definition message_of (runtime_message : exn → string) (e : exn) : string :=
  match e with
  | Error message => message
  | _ => runtime_message e
  end.

Section LoadSwagger.

Variable new_URL : string → string + URL.
Variable node : Platform.
Variable io : Loader.
Variable runtime_message : exn → string.

(** The [catch] of [loadSwagger]. *)
Definition load_failure (source : string) (e : exn) : exn :=
  if bool_decide (message_of runtime_message e = "") then e
  else Error ("Failed to load Swagger spec from " +:+ source +:+ ": "
              +:+ message_of runtime_message e).

(** Returns what the call reached for, in order, and its outcome. *)
Definition loadSwagger (source : string) (securityConfig : SecurityConfig)
  : list access * res json :=
  let '(accessed, outcome) :=
    if starts_with "http://" source || starts_with "https://" source then
      match validateURL new_URL source securityConfig with
      | Throw e => ([], Throw e)
      | Ok validatedURL =>
          ([Fetched (href validatedURL)],
           spec ← of_library (axios_get io (href validatedURL));
           _ ← validateSwaggerSpec spec;
           Ok spec)
      end
    else
      let probes := validateFilePath_probes node source securityConfig in
      match validateFilePath node source securityConfig with
      | Throw e => (probes, Throw e)
      | Ok validatedPath =>
          (probes ++ [ReadFile validatedPath],
           file ← of_library (fs_readFileSync io validatedPath);
           spec ← of_library (if ends_with ".yaml" source || ends_with ".yml" source
                              then yaml_safeLoad io file
                              else JSON_parse io file);
           _ ← validateSwaggerSpec spec;
           Ok spec)
      end in
  (accessed,
   match outcome with
   | Ok spec => Ok spec
   | Throw e => Throw (load_failure source e)
   end).

End LoadSwagger.

(** ** lib/swagger-to-mcp.js: the handler of a tool *)

(** What the handler reads of a value that was thrown: [err.response],
    [err.request] and [err.message]. *)
Record Thrown : Type := {
  err_response : json;
  err_request : json;
  err_message : json;
}.

Section Handler.

(** The validator that [ajv.compile] returned for the tool, the text of
    [ajv.errorsText] after it refused an input, the HTTP client, which
    resolves with the [data] of a response or rejects, and
    [JSON.stringify]. *)
Variable validate : json → bool.
Variable errorsText : json → string.
Variable axios : RequestConfig → Thrown + json.
Variable JSON_stringify : json → json.
Variable runtime_message : exn → string.

(** An exception of the process itself carries neither a response nor a
    request. *)
Definition thrown_of (e : exn) : Thrown :=
  {| err_response := JUndefined; err_request := JUndefined;
     err_message := JStr (message_of runtime_message e) |}.

(** The [catch] of the handler. *)
Definition handler_failure (err : Thrown) : res exn :=
  if truthy (err_response err) then
    status ← prop (err_response err) "status";
    errorData ← prop (err_response err) "data";
    Ok (Error ("HTTP " +:+ to_str status +:+ ": "
               +:+ to_str (or_else (or_else (prop_opt errorData "message")
                                      (prop_opt errorData "error"))
                             (JSON_stringify errorData))))
  else if truthy (err_request err) then
    Ok (Error ("No response received: " +:+ to_str (err_message err)))
  else
    Ok (Error ("Request failed: " +:+ to_str (err_message err))).

(** The requests the call sent, its outcome, and the operation as the call
    leaves it. *)
Definition handler (operation : json) (method route : string) (baseUrl : json)
    (input : json) : list RequestConfig * res json * json :=
  let '(sent, outcome, after) :=
    if negb (validate input) then
      ([], inl (thrown_of (Error ("Input validation failed: " +:+ errorsText input))),
       operation)
    else
      match buildRequestConfig input operation method route baseUrl with
      | Ok (config, after) => ([config], axios config, after)
      | Throw e =>
          (* thrown by [extractParameters], or after it had returned *)
          ([], inl (thrown_of e),
           match extractParameters operation with
           | Ok ex => operation_after ex
           | Throw _ => operation
           end)
      end in
  (sent,
   match outcome with
   | inr data => Ok data
   | inl err =>
       match handler_failure err with
       | Ok e => Throw e
       | Throw e => Throw e
       end
   end,
   after).

End Handler.

(** ** bin/cli.js: the security configuration *)

(** The options of the command line that the configuration is built from;
    an option that was not given is [None]. *)
Record Argv : Type := {
  arg_allow_http : bool;
  arg_allowed_hosts : option string;
  arg_base_directory : option string;
  arg_allow_private_ips : bool;
}.

(** [if (argv[name])] for an option that holds a string: it was given, and
    not as the empty string. *)
Definition given (value : option string) : option string :=
  match value with
  | Some text => if bool_decide (text = "") then None else Some text
  | None => None
  end.

Definition cli_securityConfig (argv : Argv) : SecurityConfig :=
  {| allowedSchemes :=
       if arg_allow_http argv then ["http"; "https"]
       else allowedSchemes defaultSecurityConfig;
     allowedHosts :=
       match given (arg_allowed_hosts argv) with
       | Some text => trim <$> split_on "," text
       | None => allowedHosts defaultSecurityConfig
       end;
     blockPrivateIPs :=
       if arg_allow_private_ips argv then false
       else blockPrivateIPs defaultSecurityConfig;
     allowedExtensions := allowedExtensions defaultSecurityConfig;
     baseDirectory :=
       match given (arg_base_directory argv) with
       | Some directory => Some directory
       | None => baseDirectory defaultSecurityConfig
       end;
     maxFileSize := maxFileSize defaultSecurityConfig |}.

(** * The vocabulary of the properties

    The predicates in which the properties are stated, and the documents on
    which the code is run. *)

(** The host names that the table of private ranges describes. *)
Definition private_pattern (h : string) : Prop :=
  (∃ r, h = "127." +:+ r)
  ∨ (∃ r, h = "10." +:+ r)
  ∨ (∃ n r, (16 ≤ n ≤ 31)%nat ∧ h = "172." +:+ dec_of_nat n +:+ "." +:+ r)
  ∨ (∃ r, h = "192.168." +:+ r)
  ∨ (∃ r, h = "169.254." +:+ r)
  ∨ h = "::1"
  ∨ (∃ r, h = "fe80:" +:+ r)
  ∨ (∃ r, h = "fc00:" +:+ r)
  ∨ (∃ r, h = "fd00:" +:+ r).

(** An entry of the allowlist admits a host name: the name is the entry, or
    the entry is [*.domain] and the name is [domain] or ends in [.domain]. *)
Definition admits (entry name : string) : Prop :=
  name = entry
  ∨ ∃ domain, entry = "*." +:+ domain
              ∧ (name = domain ∨ ∃ sub, name = sub +:+ "." +:+ domain).

Definition traversal_message (resolvedPath baseDir : string) : string :=
  "File path '" +:+ resolvedPath +:+ "' is outside allowed base directory '"
  +:+ baseDir +:+ "'".

(** An object that has no own property [__proto__]: the objects that the
    code fills under computed names all start as such, [{}] or the headers
    with their [Content-Type]. *)
Definition plain (o : obj) : Prop := "__proto__" ∉ keys o.

(** A parameter that has a name and whose [in] is none of [path], [query],
    [header] and [cookie] (or is missing). *)
Definition misplaced (param : json) : bool :=
  match prop param "in", prop param "name" with
  | Ok declared, Ok name => truthy name && bool_decide (location_of declared = None)
  | _, _ => false
  end.

(** The operation with the misplaced parameters taken out of its
    declaration. *)
Definition without_misplaced (operation : json) : json :=
  match operation with
  | JObj o =>
      match lookup_key "parameters" o with
      | JArr l => JObj (assign "parameters" (JArr (filter (λ p, ¬ misplaced p) l)) o)
      | _ => operation
      end
  | _ => operation
  end.

Definition swagger2_upload : json :=
  JObj [("parameters",
         JArr [JObj [("name", JStr "petId"); ("in", JStr "path");
                     ("required", JBool true); ("type", JStr "integer")];
               JObj [("name", JStr "file"); ("in", JStr "formData");
                     ("required", JBool true); ("type", JStr "file")];
               JObj [("name", JStr "body"); ("in", JStr "body");
                     ("schema", JObj [("type", JStr "object")])];
               JObj [("name", JStr "note")]])].

Definition is_verb (entry : string * json) : bool :=
  bool_decide (toLowerCase entry.1 ∈ http_verbs).

(** The operations of a document: the entries under a route whose key is
    an HTTP verb. *)
Definition operations_under (methods : json) : list (string * json) :=
  filter (λ entry, is_verb entry) (own_entries methods).

Definition operations_of (routes : list (string * json)) : nat :=
  sum_list_with (λ entry, length (operations_under entry.2)) routes.

(** The counter and the two tables move together. *)
Definition consistent (st : Compile) : Prop :=
  toolCount st = length (manifest_tools st)
  ∧ toolCount st = length (server_tools st).

(** The operations the loop has dealt with: registered or reported. *)
Definition accounted (st : Compile) : nat :=
  (toolCount st + length (failures st))%nat.

(** A document whose two operations cannot be registered: the parameter of
    the first points to a recursive schema, on which [resolveSchemaRefs]
    exhausts the stack, and the second is [null]. *)
Definition unregistrable : json :=
  JObj [("openapi", JStr "3.0.0");
        ("info", JObj [("title", JStr "Nodes"); ("version", JStr "1.0.0")]);
        ("servers", JArr [JObj [("url", JStr "https://api.example.com")]]);
        ("paths",
         JObj [("/nodes",
                JObj [("get",
                       JObj [("operationId", JStr "listNodes");
                             ("parameters",
                              JArr [JObj [("name", JStr "after"); ("in", JStr "query");
                                          ("schema",
                                           JObj [("$ref", JStr "#/components/schemas/Node")])]])]);
                      ("post", JNull)])]);
        ("components",
         JObj [("schemas",
                JObj [("Node",
                       JObj [("type", JStr "object");
                             ("properties",
                              JObj [("next",
                                     JObj [("$ref", JStr "#/components/schemas/Node")])])])])])].

(** A validator and a host that accept whatever they are given. *)
Definition accept_all (schema : json) : bool := true.
Definition host_accepts (held : list string) (name : string) : bool := true.

Definition collect_field (fields : obj) (acc : obj) (kv : string * json) : obj :=
  if is_undefined (member_of fields kv.1) then acc
  else put kv.1 (member_of fields kv.1) acc.

Definition substitute_field (fields : obj) (url : string) (kv : string * json) : string :=
  if is_undefined (member_of fields kv.1) then url
  else replace_first ("{" +:+ kv.1 +:+ "}")
         (encodeURIComponent (to_str (member_of fields kv.1))) url.





Definition get_pet : json :=
  JObj [("operationId", JStr "getPetById");
        ("parameters",
         JArr [JObj [("name", JStr "petId"); ("in", JStr "path");
                     ("required", JBool true);
                     ("schema", JObj [("type", JStr "integer")])]])].

Definition rename_pet : json :=
  JObj [("parameters",
         JArr [JObj [("name", JStr "id"); ("in", JStr "path");
                     ("required", JBool true);
                     ("schema", JObj [("type", JStr "integer")])]]);
        ("requestBody",
         JObj [("content",
                JObj [("application/json",
                       JObj [("schema",
                              JObj [("type", JStr "object");
                                    ("properties",
                                     JObj [("name", JObj [("type", JStr "string")])])])])])])].


(** An operation whose parameters have the names of members of
    [Object.prototype]. *)
Definition inherited_names : json :=
  JObj [("parameters",
         JArr [JObj [("name", JStr "constructor"); ("in", JStr "path")];
               JObj [("name", JStr "valueOf"); ("in", JStr "query")];
               JObj [("name", JStr "toString"); ("in", JStr "header")]])].


Definition pet_schema : json :=
  JObj [("type", JStr "object");
        ("properties", JObj [("name", JObj [("type", JStr "string")]);
                             ("tag", JObj [("type", JStr "string")])]);
        ("required", JArr [JStr "name"])].

Definition json_body (required_flag : list (string * json)) (schema : json) : json :=
  JObj (required_flag ++ [("content", JObj [("application/json", JObj [("schema", schema)])])]).

(** [POST /pets] with a JSON body that the operation marks as required. *)
Definition create_pet : json :=
  JObj [("operationId", JStr "createPet");
        ("requestBody", json_body [("required", JBool true)] pet_schema)].

(** The same operation without the mark. *)
Definition create_pet_optional : json :=
  JObj [("operationId", JStr "createPet");
        ("requestBody", json_body [] pet_schema)].

Definition pet_properties : json :=
  JObj [("name", JObj [("type", JStr "string")]);
        ("tag", JObj [("type", JStr "string")])].

Definition pet_schema_overwritten : json :=
  JObj [("type", JStr "object");
        ("properties", JObj [("name", JObj [("type", JStr "string")]);
                             ("tag", JObj [("type", JStr "string")])]);
        ("required", JBool true)].

Definition pets_document (operation : json) : json :=
  JObj [("openapi", JStr "3.0.0");
        ("info", JObj [("title", JStr "Pets"); ("version", JStr "1.0.0")]);
        ("servers", JArr [JObj [("url", JStr "https://petstore.example.com/v1")]]);
        ("paths", JObj [("/pets", JObj [("post", operation)])])].

(** Three operations, with three different operation identifiers
    ([get__a (x)], [get__a] and [x]). *)
Definition colliding_names : json :=
  JObj [("openapi", JStr "3.0.0");
        ("info", JObj [("title", JStr "Collide"); ("version", JStr "1.0.0")]);
        ("servers", JArr [JObj [("url", JStr "https://api.example.com")]]);
        ("paths",
         JObj [("/a (x)", JObj [("get", JObj [])]);
               ("/a", JObj [("get", JObj []);
                            ("GET", JObj [("operationId", JStr "x")])])])].

(** Three spellings of one verb under one route, two of them with the same
    operation identifier. *)
Definition colliding_verbs : json :=
  JObj [("openapi", JStr "3.0.0");
        ("info", JObj [("title", JStr "Collide"); ("version", JStr "1.0.0")]);
        ("servers", JArr [JObj [("url", JStr "https://api.example.com")]]);
        ("paths",
         JObj [("/a", JObj [("get", JObj [("operationId", JStr "read")]);
                            ("GET", JObj [("operationId", JStr "x")]);
                            ("Get", JObj [("operationId", JStr "x")])])])].

Definition manifest_names (run : Run) : option (list string) :=
  (λ manifest, mt_name <$> m_tools manifest) <$> written run.

Definition empty_components : json :=
  JObj [("components", JObj [("schemas", JObj [])])].

(** A call that came back, with a value or with an exception other than the
    exhaustion of the stack. *)
Definition finishes {A} (r : res A) : Prop :=
  match r with
  | Throw RangeError => False
  | _ => True
  end.

(** A field of an object rewritten by a transformation of its value, as each
    of the five updates of [resolveSchemaRefs] does. *)
Definition update (t : json → res json) (key : string) (result : obj) : res obj :=
  let v := lookup_key key result in
  if truthy v then v' ← t v; Ok (assign key v' result) else Ok result.

Section Transformations.

Variable self : json → res json.

Definition resolved_properties (v : json) : res json :=
  acc ← foldM (resolve_entry self) (own_entries v) [];
  Ok (JObj acc).

Definition resolved_list (v : json) : res json :=
  match v with
  | JArr l => l' ← mapM self l; Ok (JArr l')
  | _ => Throw TypeError
  end.

End Transformations.

(** [self'] returns what [self] returns wherever [self] finishes. *)
Definition agree (self self' : json → res json) : Prop :=
  ∀ c r, self c = r → finishes r → self' c = r.

(** The values that the five updates hand to the recursive call. *)
Definition list_at (key : string) (result : obj) : list json :=
  match lookup_key key result with
  | JArr l => l
  | _ => []
  end.

Definition subschemas (schema : json) : list json :=
  let result := own_entries schema in
  (if truthy (lookup_key "properties" result)
   then (own_entries (lookup_key "properties" result)).*2 else [])
  ++ (if truthy (lookup_key "items" result) then [lookup_key "items" result] else [])
  ++ list_at "allOf" result ++ list_at "oneOf" result ++ list_at "anyOf" result.

(** A schema that [resolveSchemaRefs] does not return at once. *)
Definition visited (schema : json) : bool := truthy schema && typeof_object schema.

(** The value of a [$ref] that counts as one. *)
Definition own_ref (schema : json) : json := prop_opt schema "$ref".

(** The arguments of the recursive calls of one call. *)
Definition callees (spec schema : json) : list json :=
  if visited schema then
    if truthy (own_ref schema) then
      match own_ref schema with
      | JStr pointer =>
          match walk spec (ref_path pointer) with
          | Some resolved => [resolved]
          | None => []
          end
      | _ => []
      end
    else subschemas schema
  else [].

Section JsonInduction.

Variable P : json → Prop.
Hypothesis Pundefined : P JUndefined.
Hypothesis Pnull : P JNull.
Hypothesis Pbool : ∀ b, P (JBool b).
Hypothesis Pnum : ∀ n, P (JNum n).
Hypothesis Pstr : ∀ s, P (JStr s).
Hypothesis Parr : ∀ l, Forall P l → P (JArr l).
Hypothesis Pobj : ∀ o : obj, Forall (λ kv, P kv.2) o → P (JObj o).
Hypothesis Pnative : ∀ name arity, P (JNative name arity).

Fixpoint json_induction (v : json) : P v :=
  match v with
  | JUndefined => Pundefined
  | JNull => Pnull
  | JBool b => Pbool b
  | JNum n => Pnum n
  | JStr s => Pstr s
  | JArr l =>
      Parr l ((fix all (l : list json) : Forall P l :=
                 match l with
                 | [] => @List.Forall_nil _ P
                 | x :: l' => @List.Forall_cons _ P x l' (json_induction x) (all l')
                 end) l)
  | JObj o =>
      Pobj o ((fix all (o : obj) : Forall (λ kv, P kv.2) o :=
                 match o with
                 | [] => @List.Forall_nil _ (λ kv, P kv.2)
                 | (k, x) :: o' =>
                     @List.Forall_cons _ (λ kv, P kv.2) (k, x) o' (json_induction x) (all o')
                 end) o)
  | JNative name arity => Pnative name arity
  end.

End JsonInduction.

Section Pointers.

Variable spec : json.

(** The call on [schema] comes upon the pointer without following a pointer
    first: it is the schema's own, or that of a schema found below it. *)
Inductive meets : json → string → Prop :=
| meets_own schema pointer :
    visited schema = true → own_ref schema = JStr pointer → pointer ≠ "" →
    meets schema pointer
| meets_below schema sub pointer :
    visited schema = true → truthy (own_ref schema) = false →
    sub ∈ subschemas schema → meets sub pointer →
    meets schema pointer.

(** Following [pointer] leads to a schema that comes upon [next]. *)
Definition follows (pointer next : string) : Prop :=
  ∃ resolved, walk spec (ref_path pointer) = Some resolved ∧ meets resolved next.

(** No chain of pointers that starts at [pointer] goes on for ever. *)
Definition settles (pointer : string) : Prop := sn follows pointer.

(** Some depth of stack is enough for the call to finish. *)
Definition terminates (schema : json) : Prop :=
  ∃ depth, finishes (resolveSchemaRefs depth schema spec).

(** The recursion on the structure of the schema: it terminates when the
    schemas behind the pointers it comes upon do. *)
Definition terminates_below (schema : json) : Prop :=
  (∀ pointer, meets schema pointer →
   ∀ resolved, walk spec (ref_path pointer) = Some resolved → terminates resolved) →
  terminates schema.

End Pointers.

(** The pointers written anywhere in a value. *)
Fixpoint all_refs (v : json) : list string :=
  match v with
  | JObj o =>
      (fix fields (o : obj) : list string :=
         match o with
         | [] => []
         | (k, x) :: o' =>
             (if bool_decide (k = "$ref")
              then match x with JStr pointer => [pointer] | _ => [] end
              else [])
             ++ all_refs x ++ fields o'
         end) o
  | JArr l =>
      (fix elements (l : list json) : list string :=
         match l with
         | [] => []
         | x :: l' => all_refs x ++ elements l'
         end) l
  | _ => []
  end.

Definition linked_node : json :=
  JObj [("type", JStr "object");
        ("properties",
         JObj [("next", JObj [("$ref", JStr "#/components/schemas/Node")]);
               ("value", JObj [("type", JStr "integer")])])].

(** A document with a recursive object schema. *)
Definition linked_list : json :=
  JObj [("components", JObj [("schemas", JObj [("Node", linked_node)])])].

Definition node_ref : json := JObj [("$ref", JStr "#/components/schemas/Node")].

Definition pet_and_tag : json :=
  JObj [("components",
         JObj [("schemas",
                JObj [("Pet",
                       JObj [("type", JStr "object");
                             ("properties",
                              JObj [("tag", JObj [("$ref", JStr "#/components/schemas/Tag")])])]);
                      ("Tag", JObj [("type", JStr "string")])])])].

(** No value of the list equals, as [Set] compares, a value before it. *)
Fixpoint distinct (l : list json) : Prop :=
  match l with
  | [] => True
  | x :: l' => Forall (λ y, same_value_zero y x = false) l' ∧ distinct l'
  end.

(** ** The vocabulary of the further properties *)

(** Libraries that hand out one document, whatever is fetched or parsed. *)
Definition canned (document : json) : Loader :=
  {| axios_get := λ _, inr document;
     fs_readFileSync := λ _, inr "";
     yaml_safeLoad := λ _, inr document;
     JSON_parse := λ _, inr document |}.

(** A runtime whose exceptions carry this text. *)
Definition runtime_text (e : exn) : string := "runtime exception".

(** The prefix that [loadSwagger] puts before the message of a failure. *)
Definition load_prefix (source : string) : string :=
  "Failed to load Swagger spec from " +:+ source +:+ ": ".

(** A validator that refuses every input, one that accepts every input, and
    the text of the errors of the former. *)
Definition refuse_input (input : json) : bool := false.
Definition validator_errors (input : json) : string := "data/petId must be integer".

(** A client none of whose requests is answered. *)
Definition unanswered (config : RequestConfig) : Thrown + json :=
  inl {| err_response := JUndefined; err_request := JObj [];
         err_message := JStr "timeout of 30000ms exceeded" |}.

(** A [JSON.stringify] for bodies that are empty objects. *)
Definition stringified (v : json) : json := JStr "{}".

(** The operations that a document declares, in the order of the document:
    the route and the verb in upper case, as the manifest gives them. *)
Definition declared_operations (routes : list (string * json)) : list (string * string) :=
  flat_map (λ entry, (λ operation, (entry.1, toUpperCase operation.1))
                       <$> operations_under entry.2) routes.

Definition manifest_operation (entry : ManifestTool) : string * string :=
  (mt_path entry, mt_method entry).

(** A tool of the server and the entry of the manifest that describes it. *)
Definition describes (entry : ManifestTool) (tool : Tool) : Prop :=
  mt_name entry = t_name tool
  ∧ mt_path entry = t_route tool
  ∧ mt_method entry = toUpperCase (t_method tool).

(** A document one operation of which registers, while the other is
    [null]. *)
Definition partly_registrable : json :=
  JObj [("openapi", JStr "3.0.0");
        ("info", JObj [("title", JStr "Nodes"); ("version", JStr "1.0.0")]);
        ("servers", JArr [JObj [("url", JStr "https://api.example.com")]]);
        ("paths",
         JObj [("/nodes",
                JObj [("summary", JStr "The nodes of the graph");
                      ("get", JObj [("operationId", JStr "listNodes")]);
                      ("post", JNull)])])].

(** A document with a route that has no path item. *)
Definition dangling_route : json :=
  JObj [("openapi", JStr "3.0.0");
        ("info", JObj [("title", JStr "Orders"); ("version", JStr "1.0.0")]);
        ("servers", JArr [JObj [("url", JStr "https://api.example.com")]]);
        ("paths",
         JObj [("/pets", JObj [("get", JObj [("operationId", JStr "listPets")])]);
               ("/orders", JNull)])].

(** Every character of the string passes the test. *)
Fixpoint all_chars (test : ascii → bool) (s : string) : bool :=
  match s with
  | EmptyString => true
  | String a s' => test a && all_chars test s'
  end.

(** A control character or a space: what [sanitizeToolName] takes away from
    the ends of a name. *)
Definition blank (a : ascii) : bool := is_control a || bool_decide (a = " "%char).

(** A character of ASCII proper, on which the bytewise reading of [trim] is
    that of JavaScript. *)
Definition seven_bit (a : ascii) : bool := (nat_of_ascii a <? 128)%nat.

(** [response && response.content && response.content['application/json']] *)
Definition json_media (response : json) : json :=
  if truthy response then
    let content := prop_opt response "content" in
    if truthy content then prop_opt content "application/json" else content
  else response.

(** The schema that [extractOutputSchema] returns for the response under
    [code]. *)
Definition tagged_schema (responses : json) (code : string) : json :=
  JObj (assign "x-response-code" (JStr code)
          (own_entries (or_else (prop_opt (json_media (prop_opt responses code)) "schema")
                          (JObj [])))).

(** The keys of [responses] that [extractErrorSchemas] takes for error
    codes. *)
Definition error_code (code : string) : bool :=
  starts_with "4" code || starts_with "5" code.

(** [null] and [undefined], of which no property can be read. *)
Definition nullish (v : json) : bool :=
  match v with
  | JUndefined | JNull => true
  | _ => false
  end.

(** What a tool description opens with: the summary, or else the operation
    identifier, or else the method and the route. *)
Definition lead (operation : json) (method route : string) : string :=
  if truthy (prop_opt operation "summary") then to_str (prop_opt operation "summary")
  else if truthy (prop_opt operation "operationId")
       then to_str (prop_opt operation "operationId")
       else toUpperCase method +:+ " " +:+ route.

(** An operation that answers 200 without a body and 201 with one. *)
Definition create_order : json :=
  JObj [("operationId", JStr "createOrder");
        ("responses",
         JObj [("200", JObj [("description", JStr "Already there")]);
               ("201",
                JObj [("description", JStr "Created");
                      ("content",
                       JObj [("application/json",
                              JObj [("schema", JObj [("type", JStr "object")])])])]);
               ("404", JObj [("description", JStr "No such customer")]);
               ("default", JObj [("description", JStr "Anything else")])])].

(** [GET /pets] with a query parameter and a header parameter. *)
Definition traced_list : json :=
  JObj [("parameters",
         JArr [JObj [("name", JStr "limit"); ("in", JStr "query");
                     ("schema", JObj [("type", JStr "integer")])];
               JObj [("name", JStr "X-Trace"); ("in", JStr "header");
                     ("schema", JObj [("type", JStr "string")])]])].

(** An object schema with a pointer under [additionalProperties]. *)
Definition open_pet : obj :=
  [("type", JStr "object");
   ("properties", JObj [("tag", JObj [("$ref", JStr "#/components/schemas/Tag")])]);
   ("additionalProperties", JObj [("$ref", JStr "#/components/schemas/Tag")])].

(** An operation with a query parameter named [__proto__]. *)
Definition proto_parameters : json :=
  JObj [("parameters",
         JArr [JObj [("name", JStr "__proto__"); ("in", JStr "query");
                     ("schema", JObj [("type", JStr "string")])];
               JObj [("name", JStr "limit"); ("in", JStr "query");
                     ("schema", JObj [("type", JStr "integer")])]])].

(** An operation whose body schema has a property [__proto__]. *)
Definition proto_body : json :=
  JObj [("requestBody",
         json_body []
           (JObj [("type", JStr "object");
                  ("properties",
                   JObj [("__proto__", JObj [("type", JStr "string")]);
                         ("name", JObj [("type", JStr "string")])])]))].

(** A command line without any of the security options. *)
Definition no_options : Argv :=
  {| arg_allow_http := false; arg_allowed_hosts := None; arg_base_directory := None;
     arg_allow_private_ips := false |}.

(** A schema with a broken pointer of its own and, below it, a pointer
    that [pet_and_tag] resolves. *)
Definition broken_above : json :=
  JObj [("$ref", JStr "#/definitions/Missing");
        ("properties",
         JObj [("tag", JObj [("$ref", JStr "#/components/schemas/Tag")])])].

(** The parameter has a name and one of the four locations. *)
Definition declares (param : json) (loc : location) (name : json) : Prop :=
  prop_opt param "name" = name ∧ truthy name = true
  ∧ location_of (prop_opt param "in") = Some loc.

(** A parameter in the style of Swagger 2.0, which gives the type on the
    parameter itself and has no [schema]. *)
Definition schemaless (param : json) : Prop :=
  truthy (prop_opt param "schema") = false.

(** [GET /pets] as a Swagger 2.0 document declares it. *)
Definition swagger2_list : json :=
  JObj [("parameters",
         JArr [JObj [("name", JStr "limit"); ("in", JStr "query");
                     ("type", JStr "integer"); ("required", JBool true)];
               JObj [("name", JStr "tags"); ("in", JStr "query");
                     ("type", JStr "array");
                     ("items", JObj [("type", JStr "string")])]])].

(** * Properties *)

Lemma throws_Throw {A} (e : exn) : throws (Throw e : res A).
Proof. by exists e. Qed.

Ltac thrown := solve [apply throws_Throw].

(** Unfolds the sequencing of [res] and runs the steps that are decided. *)
Ltac run := unfold mbind, res_bind, mret, res_ret in *; cbn beta iota in *.

Lemma bind_Ok_inv {A B} (m : res A) (k : A → res B) b :
  m ≫= k = Ok b → ∃ a, m = Ok a ∧ k a = Ok b.
Proof. run. destruct m as [a|]; [|done]. intros Hk. by exists a. Qed.

(** ** Strings *)

Lemma append_cons a s t : String a s +:+ t = String a (s +:+ t).
Proof. reflexivity. Qed.


Lemma append_nil_r s : s +:+ "" = s.
Proof. induction s as [|a s IH]; [done|]. by rewrite append_cons, IH. Qed.

Lemma append_assoc s t u : (s +:+ t) +:+ u = s +:+ t +:+ u.
Proof. induction s as [|a s IH]; [done|]. by rewrite !append_cons, IH. Qed.

Lemma starts_with_iff p s : starts_with p s = true ↔ ∃ r, s = p +:+ r.
Proof.
  revert s. induction p as [|a p IH]; intros s; simpl.
  - split; [intros _; by exists s | done].
  - destruct s as [|b s].
    + split; [done | intros [r Hr]; discriminate Hr].
    + destruct (decide (a = b)) as [->|Hne].
      * rewrite IH. split; intros [r Hr]; exists r.
        -- by rewrite append_cons, <- Hr.
        -- rewrite append_cons in Hr. by injection Hr.
      * split; [done|]. intros [r Hr]. rewrite append_cons in Hr.
        injection Hr as Hab _. by destruct Hne.
Qed.

Lemma ends_with_iff p s : ends_with p s = true ↔ ∃ r, s = r +:+ p.
Proof.
  induction s as [|a s IH]; simpl.
  - rewrite orb_false_r, bool_decide_eq_true. split.
    + intros <-. by exists "".
    + intros [[|b r] Hr]; [done | discriminate Hr].
  - rewrite orb_true_iff, bool_decide_eq_true, IH. split.
    + intros [<- | [r ->]]; [by exists "" | by exists (String a r)].
    + intros [[|b r] Hr]; [by left|].
      rewrite append_cons in Hr. injection Hr as -> ->. right. by exists r.
Qed.


Lemma take_str_append p s : take_str (String.length p) (p +:+ s) = p.
Proof.
  induction p as [|a p IH]; [by destruct s|].
  rewrite append_cons. simpl. by rewrite IH.
Qed.

Lemma length_append s t :
  String.length (s +:+ t) = (String.length s + String.length t)%nat.
Proof. induction s as [|a s IH]; [done|]. rewrite append_cons. simpl. by rewrite IH. Qed.

Lemma drop_last_colon s : drop_last (s +:+ ":") = s.
Proof.
  unfold drop_last. rewrite length_append. simpl.
  replace (String.length s + 1 - 1)%nat with (String.length s) by lia.
  apply take_str_append.
Qed.




(** ** The security gate: URLs *)

Lemma char_in_inv lo hi b :
  char_in lo hi b = true → ∃ n, (lo ≤ n ≤ hi)%nat ∧ b = ascii_of_nat n.
Proof.
  unfold char_in. intros [H1 H2]%andb_true_iff. exists (nat_of_ascii b).
  rewrite ascii_nat_embedding. split; [split; by apply Nat.leb_le | done].
Qed.

Lemma private_172_iff h :
  private_172 h = true ↔
  ∃ n r, (16 ≤ n ≤ 31)%nat ∧ h = "172." +:+ dec_of_nat n +:+ "." +:+ r.
Proof.
  unfold private_172. split.
  - intros [[r0 ->]%starts_with_iff H]%andb_true_iff.
    change (drop_str 4 ("172." +:+ r0)) with r0 in H.
    destruct r0 as [|a [|b [|c r]]]; try discriminate H.
    apply andb_true_iff in H as [H ->%bool_decide_eq_true].
    repeat apply orb_true_iff in H as [H|H];
      apply andb_true_iff in H as [->%bool_decide_eq_true H];
      apply char_in_inv in H as (n & Hn & ->).
    + assert (n = 54 ∨ n = 55 ∨ n = 56 ∨ n = 57)%nat as Hc by lia.
      destruct Hc as [->|[->|[->| ->]]];
        [exists 16%nat | exists 17%nat | exists 18%nat | exists 19%nat];
        exists r; (split; [lia | reflexivity]).
    + assert (n = 48 ∨ n = 49 ∨ n = 50 ∨ n = 51 ∨ n = 52 ∨ n = 53 ∨ n = 54
              ∨ n = 55 ∨ n = 56 ∨ n = 57)%nat as Hc by lia.
      destruct Hc as [->|[->|[->|[->|[->|[->|[->|[->|[->| ->]]]]]]]]];
        [exists 20%nat | exists 21%nat | exists 22%nat | exists 23%nat | exists 24%nat
        | exists 25%nat | exists 26%nat | exists 27%nat | exists 28%nat | exists 29%nat];
        exists r; (split; [lia | reflexivity]).
    + assert (n = 48 ∨ n = 49)%nat as Hc by lia.
      destruct Hc as [->| ->]; [exists 30%nat | exists 31%nat];
        exists r; (split; [lia | reflexivity]).
  - intros (n & r & Hn & ->).
    assert (n ∈ seq 16 16) as Hc by (apply elem_of_seq; lia).
    simpl in Hc. repeat (apply elem_of_cons in Hc as [-> | Hc]; [reflexivity|]).
    by apply elem_of_nil in Hc.
Qed.

Lemma isPrivateIP_iff h : isPrivateIP h = true ↔ private_pattern h.
Proof.
  unfold isPrivateIP, private_pattern, PRIVATE_IP_RANGES. cbn [existsb].
  rewrite orb_false_r, !orb_true_iff, !starts_with_iff, private_172_iff,
    bool_decide_eq_true.
  tauto.
Qed.

Lemma host_matches_iff name entry : host_matches name entry = true ↔ admits entry name.
Proof.
  unfold host_matches, admits.
  destruct (starts_with "*." entry) eqn:Hw.
  - apply starts_with_iff in Hw as [domain ->].
    change (drop_str 2 ("*." +:+ domain)) with domain.
    rewrite orb_true_iff, bool_decide_eq_true, ends_with_iff. split.
    + intros H. right. exists domain. split; [done|].
      destruct H as [H|[sub H]]; [by left | right; by exists sub].
    + intros [->|(d & Hd & H)].
      * right. by exists "*".
      * apply (inj (String.app "*.")) in Hd as <-.
        destruct H as [H|[sub H]]; [by left | right; by exists sub].
  - rewrite bool_decide_eq_true. split; [by left|].
    intros [H|(d & -> & _)]; [done|].
    exfalso. revert Hw. by rewrite (proj2 (starts_with_iff "*." ("*." +:+ d))); [|exists d].
Qed.

(** No pattern of the table matches a host name that begins with a
    bracket. *)
Lemma bracketed_not_private rest : ¬ private_pattern ("[" +:+ rest).
Proof. by intros Hprivate%isPrivateIP_iff. Qed.

(** C2 holds for the scheme, for the allowlist and for the IPv4 ranges, and
    fails on the code for the IPv6 ranges.  [validateURL] throws for a URL
    whose host name is described by the table of loopback, private and
    link-local ranges when [blockPrivateIPs] is set; it throws when the
    scheme is not among [allowedSchemes]; it throws when [allowedHosts] is
    not empty and no entry admits the host name.  Under the default
    configuration [http://127.0.0.1/spec.json] is refused and
    [https://api.example.com/spec.json] comes back parsed.  But the host name
    of a URL that gives an IPv6 address is the address in brackets, and the
    patterns of the table are tried from the first character of the name: a
    host name in brackets is described by none of them, whatever the
    address, and [validateURL] returns the URL with private hosts blocked.
    So [https://[::1]/spec.json], the loopback, comes back parsed under the
    default configuration, and so do the link-local and the private
    addresses [[fe80::1]], [[fc00::1]] and [[fd00::1]]. *)
Theorem validateURL_gate (new_URL : string → string + URL) (config : SecurityConfig)
    (urlString : string) (parsed : URL) :
  new_URL urlString = inr parsed →
  (blockPrivateIPs config = true → private_pattern (hostname parsed) →
   throws (validateURL new_URL urlString config))
  ∧ (∀ scheme, protocol parsed = scheme +:+ ":" → scheme ∉ allowedSchemes config →
     throws (validateURL new_URL urlString config))
  ∧ (allowedHosts config ≠ [] →
     (∀ entry, entry ∈ allowedHosts config → ¬ admits entry (hostname parsed)) →
     throws (validateURL new_URL urlString config))
  ∧ (∀ address, hostname parsed = "[" +:+ address +:+ "]" →
     ¬ private_pattern (hostname parsed)
     ∧ (drop_last (protocol parsed) ∈ allowedSchemes config → allowedHosts config = [] →
        validateURL new_URL urlString config = Ok parsed))
  ∧ throws (validateURL plain_URL "http://127.0.0.1/spec.json" defaultSecurityConfig)
  ∧ validateURL plain_URL "https://api.example.com/spec.json" defaultSecurityConfig
    = Ok {| protocol := "https:"; hostname := "api.example.com";
            href := "https://api.example.com/spec.json" |}
  ∧ blockPrivateIPs defaultSecurityConfig = true
  ∧ validateURL plain_URL "https://[::1]/spec.json" defaultSecurityConfig
    = Ok {| protocol := "https:"; hostname := "[::1]";
            href := "https://[::1]/spec.json" |}
  ∧ validateURL plain_URL "https://[fe80::1]/spec.json" defaultSecurityConfig
    = Ok {| protocol := "https:"; hostname := "[fe80::1]";
            href := "https://[fe80::1]/spec.json" |}
  ∧ validateURL plain_URL "https://[fc00::1]/spec.json" defaultSecurityConfig
    = Ok {| protocol := "https:"; hostname := "[fc00::1]";
            href := "https://[fc00::1]/spec.json" |}
  ∧ validateURL plain_URL "https://[fd00::1]/spec.json" defaultSecurityConfig
    = Ok {| protocol := "https:"; hostname := "[fd00::1]";
            href := "https://[fd00::1]/spec.json" |}.
Proof.
  intros Hparse. unfold validateURL. rewrite Hparse.
  split; [|split; [|split; [|split; [|split]]]].
  - intros Hblock Hprivate. apply isPrivateIP_iff in Hprivate.
    rewrite Hblock, Hprivate. simpl.
    destruct (negb _); [thrown|]. destruct (_ && _); thrown.
  - intros scheme Hprotocol Hscheme.
    rewrite Hprotocol, drop_last_colon, bool_decide_eq_false_2 by done. thrown.
  - intros Hlist Hnone.
    destruct (negb (bool_decide _)); [thrown|].
    assert (existsb (host_matches (hostname parsed)) (allowedHosts config) = false) as ->.
    { apply not_true_is_false. intros (entry & Hin & Hm)%existsb_exists.
      apply (Hnone entry); [by apply list_elem_of_In | by apply host_matches_iff]. }
    destruct (allowedHosts config); [done|]. thrown.
  - intros address Hhost. rewrite Hhost. split; [apply bracketed_not_private|].
    intros Hscheme Hhosts. rewrite Hhosts, bool_decide_eq_true_2 by done. cbn [negb length].
    assert (isPrivateIP ("[" +:+ address +:+ "]") = false) as ->; [done|].
    by rewrite andb_false_r.
  - thrown.
  - repeat split; reflexivity.
Qed.

Lemma validateURL_gate_witness :
  throws (validateURL plain_URL "https://10.0.0.7/spec.json" defaultSecurityConfig)
  ∧ throws (validateURL plain_URL "ftp://files.example.com/spec.json" defaultSecurityConfig)
  ∧ validateURL plain_URL "https://[fd00::7]/spec.json" defaultSecurityConfig
    = Ok {| protocol := "https:"; hostname := "[fd00::7]";
            href := "https://[fd00::7]/spec.json" |}.
Proof.
  split; [|split].
  - refine (proj1 (validateURL_gate plain_URL defaultSecurityConfig
                     "https://10.0.0.7/spec.json"
                     {| protocol := "https:"; hostname := "10.0.0.7";
                        href := "https://10.0.0.7/spec.json" |} eq_refl) eq_refl _).
    right. left. by exists "0.0.7".
  - refine (proj1 (proj2 (validateURL_gate plain_URL defaultSecurityConfig
                     "ftp://files.example.com/spec.json"
                     {| protocol := "ftp:"; hostname := "files.example.com";
                        href := "ftp://files.example.com/spec.json" |} eq_refl))
              "ftp" eq_refl _).
    unfold defaultSecurityConfig. simpl. by intros [=]%list_elem_of_singleton.
  - refine (proj2 (proj1 (proj2 (proj2 (proj2
              (validateURL_gate plain_URL defaultSecurityConfig
                 "https://[fd00::7]/spec.json"
                 {| protocol := "https:"; hostname := "[fd00::7]";
                    href := "https://[fd00::7]/spec.json" |} eq_refl))))
              "fd00::7" eq_refl) _ eq_refl).
    apply list_elem_of_here.
Defined.

(** When no check refuses it, the parsed URL is what [validateURL] returns. *)
Lemma validateURL_accepts (new_URL : string → string + URL) (config : SecurityConfig)
    (urlString scheme : string) (parsed : URL) :
  new_URL urlString = inr parsed →
  protocol parsed = scheme +:+ ":" → scheme ∈ allowedSchemes config →
  (allowedHosts config = [] ∨ ∃ entry, entry ∈ allowedHosts config ∧ admits entry (hostname parsed)) →
  (blockPrivateIPs config = false ∨ ¬ private_pattern (hostname parsed)) →
  validateURL new_URL urlString config = Ok parsed.
Proof.
  intros Hparse Hprotocol Hscheme Hhost Hprivate. unfold validateURL.
  rewrite Hparse, Hprotocol, drop_last_colon, bool_decide_eq_true_2 by done. simpl.
  assert ((0 <? length (allowedHosts config))%nat
          && negb (existsb (host_matches (hostname parsed)) (allowedHosts config)) = false) as ->.
  { destruct Hhost as [-> | (entry & Hin & Hadm)]; [done|].
    apply andb_false_iff. right. apply negb_false_iff, existsb_exists.
    exists entry. split; [by apply list_elem_of_In | by apply host_matches_iff]. }
  assert (blockPrivateIPs config && isPrivateIP (hostname parsed) = false) as ->; [|done].
  destruct Hprivate as [-> | Hnot]; [done|].
  apply andb_false_iff. right. apply not_true_is_false. by rewrite isPrivateIP_iff.
Qed.

(** The wildcard entry [*.domain] admits the bare [domain] as well. *)
Example wildcard_admits_bare_domain :
  validateURL plain_URL "https://example.com/spec.json"
    {| allowedSchemes := ["https"]; allowedHosts := ["*.example.com"];
       blockPrivateIPs := true; allowedExtensions := []; baseDirectory := None;
       maxFileSize := 0 |}
  = Ok {| protocol := "https:"; hostname := "example.com";
          href := "https://example.com/spec.json" |}.
Proof. reflexivity. Qed.

(** ** The security gate: file paths *)

(** C6.  With a base directory configured, [validateFilePath] throws for
    every path whose resolution is neither the resolved base directory nor
    that directory followed by the separator and more.  A sibling whose name
    extends the base's is refused, [../escape.yaml] is refused relative to a
    base that is a subdirectory, and a file directly in the base directory is
    accepted. *)
Theorem validateFilePath_confined (node : Platform) (filePath base : string)
    (config : SecurityConfig) :
  baseDirectory config = Some base → base ≠ "" →
  path_resolve node filePath ≠ path_resolve node base →
  (∀ rest, path_resolve node filePath
           ≠ path_resolve node base +:+ path_sep node +:+ rest) →
  throws (validateFilePath node filePath config)
  ∧ validateFilePath (posix "/srv/app" [("/allowed-evil/api.yaml", 120)])
      "/allowed-evil/api.yaml"
      {| allowedSchemes := []; allowedHosts := []; blockPrivateIPs := true;
         allowedExtensions := [".yaml"]; baseDirectory := Some "/allowed";
         maxFileSize := 1024 |}
    = Throw (Error (traversal_message "/allowed-evil/api.yaml" "/allowed"))
  ∧ validateFilePath (posix "/srv/app" [("/srv/escape.yaml", 120)])
      "../escape.yaml"
      {| allowedSchemes := []; allowedHosts := []; blockPrivateIPs := true;
         allowedExtensions := [".yaml"]; baseDirectory := Some "specs";
         maxFileSize := 1024 |}
    = Throw (Error (traversal_message "/srv/escape.yaml" "/srv/app/specs"))
  ∧ validateFilePath (posix "/srv/app" [("/srv/app/specs/api.yaml", 120)])
      "specs/api.yaml"
      {| allowedSchemes := []; allowedHosts := []; blockPrivateIPs := true;
         allowedExtensions := [".yaml"]; baseDirectory := Some "specs";
         maxFileSize := 1024 |}
    = Ok "/srv/app/specs/api.yaml".
Proof.
  intros Hbase Hnonempty Hdiff Hout.
  split; [|split; [|split]]; [|reflexivity..].
  unfold validateFilePath. rewrite Hbase.
  repeat (match goal with |- throws (if ?c then _ else _) => destruct c; [thrown|] end).
  rewrite bool_decide_eq_false_2 by done.
  assert (starts_with (path_resolve node base +:+ path_sep node) (path_resolve node filePath)
          = false) as ->.
  { apply not_true_is_false. intros [rest Hrest]%starts_with_iff.
    apply (Hout rest). by rewrite Hrest, append_assoc. }
  rewrite bool_decide_eq_false_2 by done. thrown.
Qed.

Lemma validateFilePath_confined_witness :
  throws (validateFilePath (posix "/srv/app" [("/srv/escape.yaml", 120)])
            "../escape.yaml"
            {| allowedSchemes := []; allowedHosts := []; blockPrivateIPs := true;
               allowedExtensions := [".yaml"]; baseDirectory := Some "specs";
               maxFileSize := 1024 |}).
Proof.
  refine (proj1 (validateFilePath_confined
                   (posix "/srv/app" [("/srv/escape.yaml", 120)]) "../escape.yaml" "specs"
                   {| allowedSchemes := []; allowedHosts := []; blockPrivateIPs := true;
                      allowedExtensions := [".yaml"]; baseDirectory := Some "specs";
                      maxFileSize := 1024 |} eq_refl _ _ _)).
  - discriminate.
  - discriminate.
  - intros rest. discriminate.
Defined.

(** ** Objects *)

Lemma lookup_key_assign k k' v o :
  lookup_key k (assign k' v o) = if decide (k = k') then v else lookup_key k o.
Proof.
  induction o as [|[k0 v0] o IH]; simpl.
  - destruct (decide (k' = k)), (decide (k = k')); congruence.
  - destruct (decide (k0 = k')) as [->|]; simpl.
    + destruct (decide (k' = k)), (decide (k = k')); congruence.
    + destruct (decide (k0 = k)) as [->|]; [|done].
      by destruct (decide (k = k')).
Qed.

Lemma lookup_key_assign_eq k v o : lookup_key k (assign k v o) = v.
Proof. rewrite lookup_key_assign. by destruct (decide (k = k)). Qed.

Lemma lookup_key_assign_ne k k' v o :
  k ≠ k' → lookup_key k (assign k' v o) = lookup_key k o.
Proof. intros. rewrite lookup_key_assign. by destruct (decide (k = k')). Qed.

Lemma entries_Ok v o : entries v = Ok o → own_entries v = o.
Proof. unfold entries. destruct v; by intros [=]. Qed.

Lemma keys_assign k v (o : obj) :
  keys (assign k v o) = if bool_decide (k ∈ keys o) then keys o else keys o ++ [k].
Proof.
  unfold keys. induction o as [|[k' v'] o IH]; csimpl; [done|].
  destruct (decide (k' = k)) as [->|Hne]; csimpl.
  - by rewrite bool_decide_eq_true_2 by apply list_elem_of_here.
  - rewrite IH. destruct (decide (k ∈ o.*1)) as [Hin|Hout].
    + rewrite !bool_decide_eq_true_2; [done | by apply list_elem_of_further | done].
    + rewrite !bool_decide_eq_false_2; [done | | done].
      intros [->|?]%elem_of_cons; [by destruct Hne | done].
Qed.

Lemma elem_of_keys_assign k' k v (o : obj) :
  k' ∈ keys (assign k v o) ↔ k' = k ∨ k' ∈ keys o.
Proof.
  rewrite keys_assign. destruct (bool_decide _) eqn:Hin.
  - apply bool_decide_eq_true in Hin. split; [by right | by intros [->|?]].
  - rewrite elem_of_app, list_elem_of_singleton. tauto.
Qed.

Lemma assign_fresh k v (o : obj) : k ∉ keys o → assign k v o = o ++ [(k, v)].
Proof.
  unfold keys. induction o as [|[k' v'] o IH]; csimpl; [done|].
  intros [Hne Hout]%not_elem_of_cons.
  destruct (decide (k' = k)) as [->|_]; [done|]. by rewrite IH.
Qed.

Lemma elem_of_assign kv k v (o : obj) : kv ∈ assign k v o → kv = (k, v) ∨ kv ∈ o.
Proof.
  induction o as [|[k' v'] o IH]; simpl.
  - intros ->%list_elem_of_singleton. by left.
  - destruct (decide (k' = k)) as [->|_].
    + intros [->|Hin]%elem_of_cons; [by left | right; by apply list_elem_of_further].
    + intros [->|Hin]%elem_of_cons; [right; apply list_elem_of_here|].
      destruct (IH Hin) as [->|Hin']; [by left | right; by apply list_elem_of_further].
Qed.

(** A value one property of which can be read lets every property be read. *)
Lemma prop_ok_other v k x k' : prop v k = Ok x → ∃ y, prop v k' = Ok y.
Proof. destruct v; simpl; try done; intros _; repeat case_match; by eexists. Qed.

Lemma prop_truthy_ok v k : truthy v = true → ∃ y, prop v k = Ok y.
Proof. destruct v; simpl; try done; intros _; repeat case_match; by eexists. Qed.

Lemma prop_opt_Ok v k x : prop v k = Ok x → prop_opt v k = x.
Proof. unfold prop_opt. by intros ->. Qed.

Lemma prop_truthy v k : truthy v = true → prop v k = Ok (prop_opt v k).
Proof.
  intros Htruthy. destruct (prop_truthy_ok v k Htruthy) as [y Hy].
  by rewrite (prop_opt_Ok _ _ _ Hy).
Qed.

(** ** Assignments under a computed name *)

Lemma plain_nil : plain [].
Proof. apply not_elem_of_nil. Qed.

Lemma put_ordinary k v o : k ≠ "__proto__" → put k v o = assign k v o.
Proof. intros Hk. unfold put. by rewrite bool_decide_eq_false_2. Qed.

Lemma put_proto v o : plain o → put "__proto__" v o = o.
Proof. intros Ho. unfold put. by rewrite bool_decide_eq_true_2, bool_decide_eq_false_2. Qed.

Lemma put_cases k v o :
  plain o → (k = "__proto__" ∧ put k v o = o) ∨ (k ≠ "__proto__" ∧ put k v o = assign k v o).
Proof.
  intros Ho. destruct (decide (k = "__proto__")) as [->|Hk].
  - left. by rewrite put_proto.
  - right. by rewrite put_ordinary.
Qed.

Lemma put_plain k v o : plain o → plain (put k v o).
Proof.
  intros Ho. destruct (put_cases k v o Ho) as [[_ ->]|[Hk ->]]; [done|].
  unfold plain. rewrite elem_of_keys_assign. intros [?|?]; [by destruct Hk | by destruct Ho].
Qed.

Lemma elem_of_keys_put k' k v o :
  plain o → k' ∈ keys (put k v o) ↔ (k' = k ∧ k ≠ "__proto__") ∨ k' ∈ keys o.
Proof.
  intros Ho. destruct (put_cases k v o Ho) as [[-> ->]|[Hk ->]].
  - split; [by right | by intros [[_ ?]|?]].
  - rewrite elem_of_keys_assign. split; [intros [->|?]; [by left | by right] | tauto].
Qed.

Lemma elem_of_put kv k v (o : obj) : kv ∈ put k v o → kv = (k, v) ∨ kv ∈ o.
Proof. unfold put. destruct (_ && _); [by right | apply elem_of_assign]. Qed.

Lemma lookup_key_keys k (o : obj) : lookup_key k o ≠ JUndefined → k ∈ keys o.
Proof.
  unfold keys. induction o as [|[k' v] o IH]; [done|]. cbn [lookup_key]. rewrite fmap_cons.
  destruct (decide (k' = k)) as [->|_]; [intros _; apply list_elem_of_here|].
  intros Hv. by apply list_elem_of_further, IH.
Qed.

Lemma lookup_key_absent k (o : obj) : k ∉ keys o → lookup_key k o = JUndefined.
Proof.
  intros Hk. destruct (lookup_key k o) eqn:Hv; try done;
    destruct Hk; apply lookup_key_keys; by rewrite Hv.
Qed.

Lemma lookup_key_put k k' v o :
  plain o →
  lookup_key k (put k' v o)
  = if bool_decide (k = k') && negb (bool_decide (k = "__proto__")) then v
    else lookup_key k o.
Proof.
  intros Ho. destruct (put_cases k' v o Ho) as [[-> ->]|[Hk ->]].
  - destruct (bool_decide (k = "__proto__")); [by rewrite andb_false_r | done].
  - rewrite lookup_key_assign. destruct (decide (k = k')) as [->|Hne].
    + by rewrite bool_decide_eq_true_2, bool_decide_eq_false_2.
    + by rewrite (bool_decide_eq_false_2 (k = k')).
Qed.

(** ** Parameters outside the four locations *)

Lemma extract_one_misplaced acc param :
  misplaced param = true → extract_one acc param = Ok acc.
Proof.
  destruct acc as [[ps rq] log]. unfold misplaced, extract_one.
  destruct (prop param "in") as [declared|] eqn:Hin; [|done].
  destruct (prop param "name") as [name|] eqn:Hname; [|done].
  intros [Hnamed Hloc%bool_decide_eq_true]%andb_true_iff. simpl.
  rewrite Hnamed, Hloc. simpl.
  destruct (prop_ok_other _ _ _ "schema" Hin) as [declared_schema ->].
  destruct (prop_ok_other _ _ _ "description" Hin) as [description ->].
  destruct (prop_ok_other _ _ _ "example" Hin) as [example ->]. simpl.
  destruct (prop_truthy_ok (or_else declared_schema (JObj [("type", JStr "string")])) "type")
    as [ty ->]; [|done].
  unfold or_else. by destruct (truthy declared_schema) eqn:Ht.
Qed.

Lemma extract_all_without_misplaced acc l :
  extract_all acc (filter (λ p, ¬ misplaced p) l) = extract_all acc l.
Proof.
  revert acc. induction l as [|param l IH]; intros acc; [done|].
  rewrite filter_cons. destruct (decide (¬ misplaced param)) as [Hkeep|Hdrop]; simpl.
  - destruct (extract_one acc param); simpl; [apply IH | done].
  - rewrite extract_one_misplaced, IH; [done|].
    destruct (misplaced param); [done | exfalso; apply Hdrop; intros []].
Qed.

(** C10.  A parameter that has a name and whose [in] is missing or is none
    of [path], [query], [header] and [cookie] is dropped in silence: with or
    without it in the declaration, [extractParameters] fills the same
    buckets and the same required lists and prints the same warnings, and
    [buildInputSchema] builds the same input schema. *)
Theorem extractParameters_drops_misplaced (operation : json) (ex : Extraction) :
  extractParameters operation = Ok ex →
  (∃ ex', extractParameters (without_misplaced operation) = Ok ex'
          ∧ parameters ex' = parameters ex
          ∧ required ex' = required ex
          ∧ warnings ex' = warnings ex)
  ∧ (∀ schema after, buildInputSchema operation = Ok (schema, after) →
     ∃ after', buildInputSchema (without_misplaced operation) = Ok (schema, after')).
Proof.
  intros Hex.
  assert (∃ ex', extractParameters (without_misplaced operation) = Ok ex'
                 ∧ parameters ex' = parameters ex
                 ∧ required ex' = required ex
                 ∧ warnings ex' = warnings ex) as Hsame.
  { destruct operation as [| | | | | |o|]; try by (exists ex).
    unfold without_misplaced.
    destruct (lookup_key "parameters" o) as [| | | | |l| |] eqn:Hdeclared; try by (exists ex).
    revert Hex. unfold extractParameters. simpl prop.
    rewrite lookup_key_assign_eq, lookup_key_assign_ne, Hdeclared by done.
    run. rewrite extract_all_without_misplaced.
    destruct (extract_all _ l) as [[[ps rq] log]|]; [|done].
    repeat (case_match; simplify_eq/=; try done); intros; simplify_eq/=;
      by eexists. }
  split; [done|].
  intros schema after. destruct Hsame as (ex' & Hex' & Hps & Hrq & _).
  unfold buildInputSchema. rewrite Hex, Hex'. run. rewrite Hps, Hrq.
  destruct (fold_left _ _ _) as [props req].
  match goal with
  | |- match ?body with _ => _ end = _ → _ => destruct body as [[props' req']|]
  end; [|done].
  intros [= <- <-]. by eexists.
Qed.

Lemma extractParameters_drops_misplaced_witness :
  ∃ after',
    buildInputSchema (without_misplaced swagger2_upload)
    = Ok (JObj [("type", JStr "object");
                ("properties",
                 JObj [("petId", JObj [("type", JStr "string");
                                       ("x-parameter-location", JStr "path")])]);
                ("required", JArr [JStr "petId"]);
                ("additionalProperties", JBool false)],
          after').
Proof.
  exact (proj2 (extractParameters_drops_misplaced swagger2_upload _ eq_refl) _ _ eq_refl).
Defined.

(** ** The compile loop *)

Section CompileLoop.

Variable ajv_compile : json → bool.
Variable registerTool : list string → string → bool.
Variable stack : nat.

Abbreviation turn := (compile_operation ajv_compile registerTool stack).
Abbreviation loop := (compile_routes ajv_compile registerTool stack).
Abbreviation compile := (createMCPFromSwagger ajv_compile registerTool stack).

(** A turn of the inner loop on an operation either registers it, which
    adds one tool to the server and one entry to the manifest, or prints
    its failure and leaves the three untouched. *)
Lemma compile_operation_step route st entry :
  let st' := turn route st entry in
  if is_verb entry then
    (toolCount st' = S (toolCount st)
     ∧ (∃ tool, manifest_tools st' = manifest_tools st ++ [tool])
     ∧ (∃ tool, server_tools st' = server_tools st ++ [tool])
     ∧ failures st' = failures st)
    ∨ (toolCount st' = toolCount st
       ∧ manifest_tools st' = manifest_tools st
       ∧ server_tools st' = server_tools st
       ∧ ∃ failure, failures st' = failures st ++ [failure])
  else st' = st.
Proof.
  destruct entry as [method operation]. unfold is_verb, compile_operation. cbn [fst].
  destruct (bool_decide _); cbn [negb]; [|done].
  assert (∀ e st0, toolCount st0 = toolCount st → manifest_tools st0 = manifest_tools st →
                   server_tools st0 = server_tools st → failures st0 = failures st →
            toolCount (caught method route e st0) = toolCount st
            ∧ manifest_tools (caught method route e st0) = manifest_tools st
            ∧ server_tools (caught method route e st0) = server_tools st
            ∧ ∃ failure, failures (caught method route e st0) = failures st ++ [failure])
    as Hcaught.
  { intros e st0 ? ? ? Hf. repeat split; try done. simpl. rewrite Hf. by eexists. }
  destruct (_ ≫= _) as [[toolName operationId]|e]; [|right; by apply Hcaught].
  unfold register_named.
  destruct (buildInputSchema operation) as [[inputSchema operation']|e];
    [|right; by apply Hcaught].
  destruct (_ ≫= _) as [[[resolved output] description]|e];
    [|right; by apply Hcaught].
  destruct (negb (ajv_compile _)); [right; by apply Hcaught|].
  destruct (negb (registerTool _ _)); [right; by apply Hcaught|].
  left. simpl. repeat split; by eexists.
Qed.

Lemma turn_consistent route st entry :
  consistent st → consistent (turn route st entry).
Proof.
  intros [Hm Hs]. pose proof (compile_operation_step route st entry) as Hstep.
  cbv zeta in Hstep. destruct (is_verb entry); [|by rewrite Hstep].
  destruct Hstep as [(Hc & [m Hm'] & [t Ht'] & _) | (Hc & Hm' & Ht' & _)];
    split; rewrite Hc, ?Hm', ?Ht', ?length_app; simpl; lia.
Qed.

Lemma turn_accounted route st entry :
  accounted (turn route st entry)
  = (accounted st + if is_verb entry then 1 else 0)%nat.
Proof.
  pose proof (compile_operation_step route st entry) as Hstep.
  cbv zeta in Hstep. unfold accounted.
  destruct (is_verb entry); [|rewrite Hstep; lia].
  destruct Hstep as [(Hc & _ & _ & Hf) | (Hc & _ & _ & [f Hf])];
    rewrite Hc, Hf, ?length_app; simpl; lia.
Qed.

Lemma inner_loop route operations st :
  let st' := fold_left (turn route) operations st in
  (consistent st → consistent st')
  ∧ accounted st' = (accounted st + length (filter (λ entry, is_verb entry) operations))%nat.
Proof.
  revert st. induction operations as [|entry operations IH]; intros st; simpl.
  - split; [done | lia].
  - destruct (IH (turn route st entry)) as [Hc Ha]. split.
    + intros H. by apply Hc, turn_consistent.
    + rewrite Ha, turn_accounted, filter_cons.
      destruct (is_verb entry) eqn:Hv.
      * rewrite decide_True by done. simpl. lia.
      * rewrite decide_False by (intros []). lia.
Qed.

Lemma outer_loop routes st st' :
  loop routes st = (st', Ok ()) →
  (consistent st → consistent st')
  ∧ accounted st' = (accounted st + operations_of routes)%nat.
Proof.
  revert st. induction routes as [|[route methods] routes IH]; intros st; simpl.
  - intros [= <-]. split; [done | unfold operations_of; simpl; lia].
  - destruct (entries methods) as [operations|] eqn:Hentries; [|done].
    intros Hloop. apply IH in Hloop as [Hc Ha].
    destruct (inner_loop route operations st) as [Hc' Ha']. split.
    + intros H. by apply Hc, Hc'.
    + assert (own_entries methods = operations) as Hown by by apply entries_Ok.
      rewrite Ha, Ha'. unfold operations_of, operations_under.
      cbn [sum_list_with snd]. rewrite Hown. symmetry. apply Nat.add_assoc.
Qed.

(** C5, as the code has it.  Of a run that reaches the manifest, every
    operation of the document is either in the manifest or was reported as
    a failure and passed over.  When the manifest has no tool the run ends
    in the no-tools error unless it was asked for the manifest only, in
    which case it returns [null]; otherwise it returns the server with one
    tool per manifest entry. *)
Theorem compile_without_tools (document : json) (options : Options)
    (manifest : Manifest) :
  written (compile document options) = Some manifest →
  (length (m_tools manifest) + length (printed (compile document options))
   = operations_of (own_entries (or_else (prop_opt document "paths") (JObj []))))%nat
  ∧ (manifestOnly options = false → m_tools manifest = [] →
     returned (compile document options) = Throw (Error no_tools_message))
  ∧ (manifestOnly options = false → m_tools manifest ≠ [] →
     ∃ tools, returned (compile document options) = Ok (Some tools)
              ∧ length tools = length (m_tools manifest))
  ∧ (manifestOnly options = true →
     returned (compile document options) = Ok None).
Proof.
  unfold createMCPFromSwagger.
  destruct (validatePort (port options)) as [[validatedPort warnings]|]; [|done]. run.
  destruct (getBaseUrl document) as [baseUrl|]; [|done].
  destruct (negb (truthy baseUrl)); [done|].
  destruct (prop document "paths") as [declared|] eqn:Hpaths; [|done].
  assert (prop_opt document "paths" = declared) as -> by (unfold prop_opt; by rewrite Hpaths).
  destruct (entries (or_else declared (JObj []))) as [routes|] eqn:Hroutes; [|done].
  assert (own_entries (or_else declared (JObj [])) = routes) as ->
    by by apply entries_Ok.
  destruct (loop routes (initial document)) as [st [[]|]] eqn:Hloop; [|done].
  simpl. intros [= <-]. simpl.
  apply outer_loop in Hloop as [Hc Ha].
  destruct Hc as [Hm Hs]; [done|]. unfold accounted in Ha. simpl in Ha.
  split; [lia|]. split; [|split].
  - intros -> Hnone. rewrite Hnone in Hm. by rewrite Hm.
  - intros -> Hsome. rewrite bool_decide_eq_false_2.
    + exists (server_tools st). split; [done | lia].
    + rewrite Hm. by destruct (manifest_tools st).
  - by intros ->.
Qed.

End CompileLoop.

Lemma compile_without_tools_witness :
  returned (createMCPFromSwagger accept_all host_accepts 64 unregistrable
              {| manifestOnly := false; port := 4000 |})
  = Throw (Error no_tools_message).
Proof.
  refine (proj1 (proj2 (compile_without_tools accept_all host_accepts 64 unregistrable
                          {| manifestOnly := false; port := 4000 |} _ eq_refl))
            eq_refl eq_refl).
Defined.

(** In manifest-only mode a run in which no operation registers does not
    fail: it writes a manifest without tools and returns [null]. *)
Lemma manifest_only_without_tools :
  let run := createMCPFromSwagger accept_all host_accepts 64 unregistrable
               {| manifestOnly := true; port := 4000 |} in
  m_tools <$> written run = Some []
  ∧ printed run = [("GET /nodes", RangeError); ("POST /nodes", TypeError)]
  ∧ returned run = Ok None
  ∧ returned run ≠ Throw (Error no_tools_message).
Proof. vm_compute. by repeat split. Qed.

(** ** The buckets of the parameters *)

Lemma bucket_set_bucket loc loc' o ps :
  bucket loc (set_bucket loc' o ps) = if decide (loc = loc') then o else bucket loc ps.
Proof. by destruct loc, loc'. Qed.

Lemma required_at_push loc loc' name rq :
  required_at loc (push_required loc' name rq)
  = if decide (loc = loc') then required_at loc rq ++ [name] else required_at loc rq.
Proof. by destruct loc, loc'. Qed.

(** One turn of the loop over the parameters: what it stores, and under
    which name. *)
Lemma extract_one_Ok ps rq log param ps' rq' log' :
  extract_one (ps, rq, log) param = Ok (ps', rq', log') →
  (truthy (prop_opt param "name") = false ∧ ps' = ps ∧ rq' = rq)
  ∨ (truthy (prop_opt param "name") = true
     ∧ match location_of (prop_opt param "in") with
       | Some loc =>
           ∃ paramSchema,
             ps' = set_bucket loc (put (to_str (prop_opt param "name")) (JObj paramSchema)
                                     (bucket loc ps)) ps
             ∧ rq' = (if is_true (prop_opt param "required")
                      then push_required loc (prop_opt param "name") rq else rq)
             ∧ (schemaless param → lookup_key "type" paramSchema = JStr "string")
       | None => ps' = ps ∧ rq' = rq
       end).
Proof.
  unfold extract_one.
  intros (location & Hin & Hrest)%bind_Ok_inv.
  apply bind_Ok_inv in Hrest as (name & Hname & Hrest).
  rewrite (prop_opt_Ok _ _ _ Hin), (prop_opt_Ok _ _ _ Hname).
  destruct (truthy name) eqn:Hnamed; cbn [negb] in Hrest.
  2: { injection Hrest as <- <- _. by left. }
  right. split; [done|].
  apply bind_Ok_inv in Hrest as (declared & Hdeclared & Hrest).
  apply bind_Ok_inv in Hrest as (ty & Hty & Hrest).
  apply bind_Ok_inv in Hrest as (description & _ & Hrest).
  apply bind_Ok_inv in Hrest as (example & _ & Hrest).
  destruct (location_of location) as [loc|]; [|injection Hrest as <- <- _; by split].
  apply bind_Ok_inv in Hrest as (req & Hreq & [= <- <- _]).
  rewrite (prop_opt_Ok _ _ _ Hreq). eexists. split; [reflexivity|]. split; [done|].
  unfold schemaless. rewrite (prop_opt_Ok _ _ _ Hdeclared). intros Hnone.
  assert (or_else declared (JObj [("type", JStr "string")]) = JObj [("type", JStr "string")])
    as Hschema by (unfold or_else; by rewrite Hnone).
  rewrite Hschema in Hty |- *. injection Hty as <-.
  cbn [own_entries assign_all fold_left fst snd lookup_key or_else truthy negb].
  destruct (truthy description), (is_undefined example);
    rewrite ?lookup_key_assign_ne by done; done.
Qed.

(** The loop fills buckets that have no own property [__proto__]: a
    parameter of that name is handed to the setter of the prototype, and is
    in no bucket. *)
Lemma extract_all_Ok l ps rq log ps' rq' log' :
  extract_all (ps, rq, log) l = Ok (ps', rq', log') →
  (∀ loc, plain (bucket loc ps)) →
  (∀ loc, plain (bucket loc ps'))
  ∧ (∀ loc name,
       name ∈ keys (bucket loc ps')
       ↔ name ∈ keys (bucket loc ps)
         ∨ name ≠ "__proto__"
           ∧ ∃ param declared, param ∈ l ∧ declares param loc declared
                               ∧ name = to_str declared)
  ∧ ((∀ param, param ∈ l → schemaless param) →
     (∀ loc entry, entry ∈ bucket loc ps → prop_opt entry.2 "type" = JStr "string") →
     ∀ loc entry, entry ∈ bucket loc ps' → prop_opt entry.2 "type" = JStr "string").
Proof.
  revert ps rq log. induction l as [|param l IH]; intros ps rq log; cbn [extract_all].
  - intros [= <- <- <-] Hplain. split; [done|]. split; [|done]. intros loc name.
    split; [by left|]. intros [?|(_ & param & declared & []%elem_of_nil & _)]. done.
  - intros ([[ps1 rq1] log1] & Hone & Hrest)%bind_Ok_inv Hplain.
    apply extract_one_Ok in Hone.
    assert ((∀ loc, plain (bucket loc ps1))
            ∧ (∀ loc name,
                 name ∈ keys (bucket loc ps1)
                 ↔ name ∈ keys (bucket loc ps)
                   ∨ name ≠ "__proto__"
                     ∧ ∃ declared, declares param loc declared ∧ name = to_str declared)
            ∧ (schemaless param →
               (∀ loc entry, entry ∈ bucket loc ps → prop_opt entry.2 "type" = JStr "string") →
               ∀ loc entry, entry ∈ bucket loc ps1 → prop_opt entry.2 "type" = JStr "string"))
      as (Hplain1 & Hkeys1 & Htypes1).
    { destruct Hone as [(Hnameless & -> & _) | [Hnamed Hone]].
      - split; [done|]. split; [|done]. intros loc name. split; [by left|].
        intros [?|(_ & declared & (<- & Htruthy & _) & _)]; [done|]. congruence.
      - destruct (location_of (prop_opt param "in")) as [stored|] eqn:Hloc.
        + destruct Hone as (paramSchema & -> & _ & Htyped). split; [|split].
          * intros loc. rewrite bucket_set_bucket.
            destruct (decide (loc = stored)) as [->|Hne]; [by apply put_plain | done].
          * intros loc name. rewrite bucket_set_bucket.
            destruct (decide (loc = stored)) as [->|Hne].
            -- rewrite elem_of_keys_put by done. split.
               ++ intros [[-> Hname]|?]; [right | by left]. split; [done|]. by eexists.
               ++ intros [?|(Hname & declared & (<- & _ & _) & ->)]; [by right | by left].
            -- split; [by left|].
               intros [?|(_ & declared & (_ & _ & Hstored) & _)]; [done|]. congruence.
          * intros Hschemaless Hbefore loc entry. rewrite bucket_set_bucket.
            destruct (decide (loc = stored)) as [->|Hne]; [|apply Hbefore].
            intros [->|Hin]%elem_of_put; [|by eapply Hbefore].
            cbn [snd]. unfold prop_opt. cbn [prop]. by rewrite Htyped.
        + destruct Hone as [-> _]. split; [done|]. split; [|done].
          intros loc name. split; [by left|].
          intros [?|(_ & declared & (_ & _ & Hstored) & _)]; [done | congruence]. }
    destruct (IH _ _ _ Hrest Hplain1) as (Hplain' & Hkeys & Htypes).
    split; [done|]. split.
    + intros loc name. rewrite Hkeys, Hkeys1. split.
      * intros [[?|(Hname & declared & Hdeclares & ->)]
               | (Hname & other & declared & Hin & Hdeclares & ->)].
        -- by left.
        -- right. split; [done|]. exists param, declared.
           split; [apply list_elem_of_here | done].
        -- right. split; [done|]. exists other, declared.
           split; [by apply list_elem_of_further | done].
      * intros [?|(Hname & other & declared & [->|Hin]%elem_of_cons & Hdeclares & ->)].
        -- by left; left.
        -- left. right. split; [done|]. by exists declared.
        -- right. split; [done|]. by exists other, declared.
    + intros Hschemaless Hbefore. apply Htypes.
      * intros other Hother. apply Hschemaless. by apply list_elem_of_further.
      * apply Htypes1; [apply Hschemaless, list_elem_of_here | done].
Qed.

Lemma no_parameters_plain loc : plain (bucket loc no_parameters).
Proof. destruct loc; apply plain_nil. Qed.

(** The buckets that [extractParameters] returns are those that the loop
    over the parameters has filled. *)
Lemma extractParameters_buckets operation ex (l : list json) :
  extractParameters operation = Ok ex →
  prop operation "parameters" = Ok (JArr l) →
  ∃ ps rq log,
    extract_all (no_parameters, no_required, []) l = Ok (ps, rq, log)
    ∧ ∀ loc, bucket loc (parameters ex) = bucket loc ps.
Proof.
  unfold extractParameters. intros Hex Hread. rewrite Hread in Hex.
  apply bind_Ok_inv in Hex as (declared & [= <-] & Hex).
  apply bind_Ok_inv in Hex as ([[ps rq] log] & Hall & Hex).
  exists ps, rq, log. split; [done|].
  apply bind_Ok_inv in Hex as (requestBody & _ & Hex).
  destruct (truthy requestBody); [|by injection Hex as <-].
  apply bind_Ok_inv in Hex as (content & _ & Hex).
  apply bind_Ok_inv in Hex as (media & _ & Hex).
  destruct (truthy content && truthy media); [|by injection Hex as <-].
  apply bind_Ok_inv in Hex as (declared_schema & _ & Hex).
  apply bind_Ok_inv in Hex as (body_required & _ & Hex).
  destruct (is_true body_required).
  - apply bind_Ok_inv in Hex as (body' & _ & [= <-]). by intros [].
  - injection Hex as <-. by intros [].
Qed.

(** No bucket that [extractParameters] returns has a property
    [__proto__]. *)
Lemma extractParameters_plain operation ex loc :
  extractParameters operation = Ok ex → plain (bucket loc (parameters ex)).
Proof.
  intros Hex.
  assert (∃ ps rq log,
            match prop_opt operation "parameters" with
            | JArr l => extract_all (no_parameters, no_required, []) l
            | _ => Ok (no_parameters, no_required, [])
            end = Ok (ps, rq, log)
            ∧ bucket loc (parameters ex) = bucket loc ps) as (ps & rq & log & Hall & ->).
  { revert Hex. unfold extractParameters.
    intros (declared & Hread & Hex)%bind_Ok_inv. rewrite (prop_opt_Ok _ _ _ Hread).
    apply bind_Ok_inv in Hex as ([[ps rq] log] & Hall & Hex).
    exists ps, rq, log. split; [done|].
    apply bind_Ok_inv in Hex as (requestBody & _ & Hex).
    destruct (truthy requestBody); [|by injection Hex as <-].
    apply bind_Ok_inv in Hex as (content & _ & Hex).
    apply bind_Ok_inv in Hex as (media & _ & Hex).
    destruct (truthy content && truthy media); [|by injection Hex as <-].
    apply bind_Ok_inv in Hex as (declared_schema & _ & Hex).
    apply bind_Ok_inv in Hex as (body_required & _ & Hex).
    destruct (is_true body_required).
    - apply bind_Ok_inv in Hex as (body' & _ & [= <-]). by destruct loc.
    - injection Hex as <-. by destruct loc. }
  destruct (prop_opt operation "parameters");
    try (injection Hall as <- _ _; apply no_parameters_plain).
  by apply (extract_all_Ok _ _ _ _ _ _ _ Hall no_parameters_plain).
Qed.

(** ** The request executor *)

Lemma collect_object fields l acc :
  foldM (collect (JObj fields)) l acc = Ok (fold_left (collect_field fields) l acc).
Proof. revert acc. induction l as [|kv l IH]; intros acc; [done|]. simpl. run. apply IH. Qed.

Lemma substitute_object fields l url :
  foldM (substitute (JObj fields)) l url = Ok (fold_left (substitute_field fields) l url).
Proof. revert url. induction l as [|kv l IH]; intros url; [done|]. simpl. run. apply IH. Qed.

Lemma is_undefined_eq v : is_undefined v = true ↔ v = JUndefined.
Proof. by destruct v. Qed.


Lemma collect_field_plain fields acc kv : plain acc → plain (collect_field fields acc kv).
Proof.
  intros Hacc. unfold collect_field. destruct (is_undefined _); [done | by apply put_plain].
Qed.

(** What [collect] gathers under a name: what the input has under it when
    the name is declared at the location, what was there before otherwise. *)
Lemma lookup_collected fields l acc name :
  plain acc →
  lookup_key name (fold_left (collect_field fields) l acc)
  = if bool_decide (name ∈ keys l) && negb (bool_decide (name = "__proto__")) then
      (if is_undefined (member_of fields name) then lookup_key name acc
       else member_of fields name)
    else lookup_key name acc.
Proof.
  revert acc. induction l as [|[k v] l IH]; intros acc Hacc; [done|].
  cbn [fold_left]. rewrite IH by by apply collect_field_plain.
  change (keys ((k, v) :: l)) with (k :: keys l).
  assert (lookup_key name (collect_field fields acc (k, v))
          = if bool_decide (name = k) && negb (bool_decide (name = "__proto__")) then
              (if is_undefined (member_of fields name) then lookup_key name acc
               else member_of fields name)
            else lookup_key name acc) as ->.
  { unfold collect_field. cbn [fst].
    destruct (is_undefined (member_of fields k)) eqn:Hu.
    - destruct (bool_decide (name = k)) eqn:Hk; [|done].
      apply bool_decide_eq_true in Hk as ->. rewrite Hu. by destruct (negb _).
    - rewrite lookup_key_put by done. destruct (bool_decide (name = k)) eqn:Hk; [|done].
      apply bool_decide_eq_true in Hk as ->. by rewrite Hu. }
  destruct (decide (name = k)) as [->|Hne].
  - rewrite (bool_decide_eq_true_2 (k ∈ k :: keys l)) by apply list_elem_of_here.
    rewrite (bool_decide_eq_true_2 (k = k)) by done.
    destruct (bool_decide (k ∈ keys l)), (bool_decide (k = "__proto__")); cbn [negb andb];
      try done.
    by destruct (is_undefined _).
  - rewrite (bool_decide_eq_false_2 (name = k)) by done. cbn [andb].
    assert (bool_decide (name ∈ k :: keys l) = bool_decide (name ∈ keys l)) as ->; [|done].
    apply bool_decide_ext. rewrite elem_of_cons.
    split; [intros [?|?]; [by destruct Hne | done] | by right].
Qed.











(** What an object inherits counts as a value of the input: for the input
    [{}], a path parameter named [constructor], a query parameter named
    [valueOf] and a header parameter named [toString] are all sent. *)
Lemma inherited_members_are_sent :
  fst <$> buildRequestConfig (JObj []) inherited_names "get" "/c/{constructor}"
            (JStr "https://api.example.com")
  = Ok {| cfg_method := "get";
          cfg_url := "https://api.example.com/c/"
                     +:+ "function%20Object()%20%7B%20%5Bnative%20code%5D%20%7D";
          cfg_headers := [("Content-Type", JStr "application/json");
                          ("toString", JNative "toString" 0)];
          cfg_timeout := 30000;
          cfg_params := Some [("valueOf", JNative "valueOf" 0)];
          cfg_data := None |}.
Proof. reflexivity. Qed.

(** ** The required body *)

(** C3 fails on the code.  When the operation marks its JSON body as
    required, [extractParameters] writes [true] over the [required] array of
    the body schema, and [buildInputSchema] then finds no array to append:
    the input schema of [create_pet] requires nothing, although its body
    schema requires [name].  Without the mark the name is appended. *)
Theorem buildInputSchema_loses_body_required :
  fst <$> buildInputSchema create_pet
  = Ok (JObj [("type", JStr "object"); ("properties", pet_properties);
              ("required", JArr []); ("additionalProperties", JBool false)])
  ∧ fst <$> buildInputSchema create_pet_optional
    = Ok (JObj [("type", JStr "object"); ("properties", pet_properties);
                ("required", JArr [JStr "name"]); ("additionalProperties", JBool false)]).
Proof. split; reflexivity. Qed.

(** C9 fails on the code.  [extractParameters] assigns to the schema node of
    the request body when the body is marked as required, so the operation is
    not the same after the call, and neither is the document after a compile
    run: the [required] array of the body schema has become [true]. *)
Theorem extractParameters_writes_to_operation :
  let changed :=
    JObj [("operationId", JStr "createPet");
          ("requestBody", json_body [("required", JBool true)] pet_schema_overwritten)] in
  operation_after <$> extractParameters create_pet = Ok changed
  ∧ snd <$> buildInputSchema create_pet = Ok changed
  ∧ snd <$> buildToolDescription create_pet "post" "/pets" = Ok changed
  ∧ snd <$> buildRequestConfig (JObj [("name", JStr "Rex")]) create_pet "post" "/pets"
              (JStr "https://petstore.example.com/v1") = Ok changed
  ∧ changed ≠ create_pet
  ∧ swagger_after (createMCPFromSwagger accept_all host_accepts 64 (pets_document create_pet)
                     {| manifestOnly := true; port := 4000 |})
    = pets_document changed.
Proof. vm_compute. repeat split; done. Qed.

(** ** Tool names *)

(** C1 fails on the code.  The name set is consulted before the operation
    identifier is appended and not after: a name that the appending produces
    can already be in the set, and is then registered a second time.  The
    manifest of either document lists [GET /a (x)] twice. *)
Theorem manifest_names_repeat :
  manifest_names (createMCPFromSwagger accept_all host_accepts 64 colliding_names
                    {| manifestOnly := false; port := 4000 |})
  = Some ["GET /a (x)"; "GET /a"; "GET /a (x)"]
  ∧ manifest_names (createMCPFromSwagger accept_all host_accepts 64 colliding_verbs
                      {| manifestOnly := false; port := 4000 |})
    = Some ["GET /a"; "GET /a (x)"; "GET /a (x)"]
  ∧ ¬ NoDup ["GET /a (x)"; "GET /a"; "GET /a (x)"]
  ∧ ¬ NoDup ["GET /a"; "GET /a (x)"; "GET /a (x)"].
Proof.
  split; [by vm_compute|]. split; [by vm_compute|].
  split; intros Hnodup; apply NoDup_ListNoDup in Hnodup; revert Hnodup;
    rewrite !List.NoDup_cons_iff; simpl; tauto.
Qed.

(** What does hold of the names: a sanitized name is not empty, and the name
    with the identifier appended differs from the name itself. *)
Lemma sanitizeToolName_nonempty name sanitized :
  sanitizeToolName name = Ok sanitized → sanitized ≠ "".
Proof.
  unfold sanitizeToolName. destruct (bool_decide (name = "")); [done|].
  set (kept := take_str 200 _). clearbody kept.
  destruct (String.length kept =? 0)%nat eqn:Hlen; [done|].
  intros [= <-] ->. done.
Qed.

Lemma disambiguated_differs name operationId :
  name +:+ " (" +:+ operationId +:+ ")" ≠ name.
Proof.
  intros Heq. apply (f_equal String.length) in Heq.
  rewrite !length_append in Heq. simpl in Heq. lia.
Qed.

Lemma toolName_of_nonempty registered method route operationId name :
  toolName_of registered method route operationId = Ok name → name ≠ "".
Proof.
  unfold toolName_of.
  destruct (sanitizeToolName _) as [sanitized|] eqn:Hs; [|done]. run.
  apply sanitizeToolName_nonempty in Hs.
  intros [= <-]. destruct (bool_decide _); [|done].
  destruct sanitized; [done|]. by rewrite append_cons.
Qed.

(** ** Unresolvable pointers *)

(** What [resolveSchemaRefs] does with pointers that lead nowhere, and with
    an array where a schema goes. *)
Lemma resolveSchemaRefs_unresolvable :
  resolveSchemaRefs 8 (JObj [("$ref", JStr "#/components/schemas/Missing")]) empty_components
  = Ok JUndefined
  ∧ resolveSchemaRefs 8 (JObj [("$ref", JStr "#/definitions/Missing")]) empty_components
    = Ok (JObj [("$ref", JStr "#/definitions/Missing")])
  ∧ resolveSchemaRefs 8
      (JObj [("type", JStr "object");
             ("properties",
              JObj [("owner", JObj [("$ref", JStr "#/components/schemas/Missing")])])])
      empty_components
    = Ok (JObj [("type", JStr "object"); ("properties", JObj [("owner", JUndefined)])])
  ∧ resolveSchemaRefs 8
      (JObj [("type", JStr "array"); ("items", JArr [JObj [("type", JStr "string")]])])
      empty_components
    = Ok (JObj [("type", JStr "array");
                ("items", JObj [("0", JObj [("type", JStr "string")])])]).
Proof. repeat split; reflexivity. Qed.

(** ** Resolution of pointers *)

Lemma finishes_Ok {A} (a : A) : finishes (Ok a).
Proof. done. Qed.

Lemma finishes_iff {A} (r : res A) : finishes r ↔ r ≠ Throw RangeError.
Proof. destruct r as [a|[| |msg]]; simpl; split; try done; intros H; by destruct H. Qed.

Lemma mapM_agree {A B} (f g : A → res B) l R :
  (∀ x r, f x = r → finishes r → g x = r) →
  mapM f l = R → finishes R → mapM g l = R.
Proof.
  intros Hfg. revert R. induction l as [|x l IH]; intros R; [done|].
  simpl. run. destruct (f x) as [y|e] eqn:Hx.
  - rewrite (Hfg x (Ok y)) by done.
    destruct (mapM f l) as [ys|e] eqn:Hl.
    + by rewrite (IH (Ok ys)).
    + intros <- Hfin. by rewrite (IH (Throw e) eq_refl Hfin).
  - intros <- Hfin. by rewrite (Hfg x (Throw e) Hx Hfin).
Qed.

Lemma foldM_agree {A B} (f g : A → B → res A) l a R :
  (∀ a x r, f a x = r → finishes r → g a x = r) →
  foldM f l a = R → finishes R → foldM g l a = R.
Proof.
  intros Hfg. revert a R. induction l as [|x l IH]; intros a R; [done|].
  simpl. run. destruct (f a x) as [a'|e] eqn:Hx.
  - rewrite (Hfg a x (Ok a')) by done. apply IH.
  - intros <- Hfin. by rewrite (Hfg a x (Throw e) Hx Hfin).
Qed.

Lemma mapM_finishes {A B} (f : A → res B) l :
  (∀ x, x ∈ l → finishes (f x)) → finishes (mapM f l).
Proof.
  induction l as [|x l IH]; intros Hl; [done|].
  simpl. run. pose proof (Hl x (list_elem_of_here _ _)) as Hx.
  destruct (f x) as [y|e]; [|done].
  assert (finishes (mapM f l)) as Hrest.
  { apply IH. intros z Hz. apply Hl. by apply list_elem_of_further. }
  by destruct (mapM f l).
Qed.

Lemma mapM_Ok_inv {A B} (f : A → res B) l ys :
  mapM f l = Ok ys → Forall2 (λ x y, f x = Ok y) l ys.
Proof.
  revert ys. induction l as [|x l IH]; intros ys; simpl.
  - intros [= <-]. constructor.
  - run. destruct (f x) as [y|] eqn:Hx; [|done].
    destruct (mapM f l) as [ys'|]; [|done].
    intros [= <-]. constructor; [done | by apply IH].
Qed.

Lemma mapM_fixed {A} (f : A → res A) l :
  Forall (λ x, f x = Ok x) l → mapM f l = Ok l.
Proof.
  induction 1 as [|x l Hx _ IH]; [done|]. simpl. run. by rewrite Hx, IH.
Qed.

Lemma update_frame t key result result' k :
  update t key result = Ok result' → k ≠ key →
  lookup_key k result' = lookup_key k result.
Proof.
  unfold update. destruct (truthy _); [|by intros [= <-]].
  run. destruct (t _); [|done]. intros [= <-] Hne. by apply lookup_key_assign_ne.
Qed.

Lemma update_value t key result result' :
  update t key result = Ok result' →
  if truthy (lookup_key key result)
  then t (lookup_key key result) = Ok (lookup_key key result')
  else lookup_key key result' = lookup_key key result.
Proof.
  unfold update. destruct (truthy _); [|by intros [= <-]].
  run. destruct (t _); [|done]. intros [= <-]. by rewrite lookup_key_assign_eq.
Qed.

Lemma update_agree t t' key result R :
  (∀ r, t (lookup_key key result) = r → finishes r → t' (lookup_key key result) = r) →
  update t key result = R → finishes R → update t' key result = R.
Proof.
  unfold update. intros Htt'. destruct (truthy _); [|done].
  run. destruct (t _) as [v'|e] eqn:Ht.
  - by rewrite (Htt' (Ok v')).
  - intros <- Hfin. by rewrite (Htt' (Throw e) eq_refl Hfin).
Qed.

Lemma update_finishes t key result :
  (truthy (lookup_key key result) = true → finishes (t (lookup_key key result))) →
  finishes (update t key result).
Proof.
  unfold update. destruct (truthy _); [|done]. intros Hfin.
  run. specialize (Hfin eq_refl). by destruct (t _).
Qed.

Lemma assign_same k v o : lookup_key k o = v → v ≠ JUndefined → assign k v o = o.
Proof.
  induction o as [|[k' v'] o IH]; simpl; [by intros <-|].
  destruct (decide (k' = k)) as [->|]; [by intros ->|].
  intros Hv Hne. by rewrite IH.
Qed.

Lemma truthy_defined v : truthy v = true → v ≠ JUndefined.
Proof. by destruct v. Qed.

(** An object whose field is already what the transformation makes of it is
    left as it is. *)
Lemma update_fixed t key o :
  (truthy (lookup_key key o) = true → t (lookup_key key o) = Ok (lookup_key key o)) →
  update t key o = Ok o.
Proof.
  unfold update. destruct (truthy _) eqn:Htruthy; [|done]. intros Ht.
  rewrite Ht by done. run. f_equal. apply assign_same; [done | by apply truthy_defined].
Qed.

Lemma resolve_properties_update self result :
  resolve_properties self result = update (resolved_properties self) "properties" result.
Proof.
  unfold resolve_properties, update, resolved_properties.
  destruct (truthy _); [|done]. run. by destruct (foldM _ _ _).
Qed.

Lemma resolve_items_update self result :
  resolve_items self result = update self "items" result.
Proof. reflexivity. Qed.

Lemma resolve_list_update self key result :
  resolve_list self key result = update (resolved_list self) key result.
Proof.
  unfold resolve_list, update, resolved_list.
  destruct (lookup_key key result) as [| | | | |l| |]; simpl; try done.
  all: try (by destruct (negb _)); try (by destruct b).
  run. by destruct (mapM self l).
Qed.

Lemma bind_agree {A B} (m m' : res A) (k k' : A → res B) R :
  (∀ r, m = r → finishes r → m' = r) →
  (∀ a R, k a = R → finishes R → k' a = R) →
  m ≫= k = R → finishes R → m' ≫= k' = R.
Proof.
  intros Hm Hk. run. destruct m as [a|e].
  - rewrite (Hm (Ok a)) by done. apply Hk.
  - intros <- Hfin. by rewrite (Hm (Throw e) eq_refl Hfin).
Qed.

Lemma resolve_entry_agree self self' acc kv r :
  agree self self' →
  resolve_entry self acc kv = r → finishes r → resolve_entry self' acc kv = r.
Proof.
  intros Hagree. unfold resolve_entry. apply bind_agree; [|done].
  intros r'. apply Hagree.
Qed.

Lemma resolved_properties_agree self self' v R :
  agree self self' →
  resolved_properties self v = R → finishes R → resolved_properties self' v = R.
Proof.
  intros Hagree. unfold resolved_properties. apply bind_agree; [|done].
  intros r. apply foldM_agree. intros a x r'. by apply resolve_entry_agree.
Qed.

Lemma resolved_list_agree self self' v R :
  agree self self' →
  resolved_list self v = R → finishes R → resolved_list self' v = R.
Proof.
  intros Hagree. unfold resolved_list. destruct v; try done.
  apply bind_agree; [|done]. intros r. apply mapM_agree. apply Hagree.
Qed.

Lemma resolve_body_agree self self' spec schema R :
  agree self self' →
  resolve_body self spec schema = R → finishes R → resolve_body self' spec schema = R.
Proof.
  intros Hagree. unfold resolve_body.
  destruct (negb (truthy schema) || negb (typeof_object schema)); [done|].
  apply bind_agree; [done|]. intros ref R'.
  destruct (truthy ref).
  - destruct ref; try done. destruct (walk spec _); [apply Hagree | done].
  - rewrite !resolve_properties_update.
    apply bind_agree.
    { intros r. apply update_agree. intros r'. by apply resolved_properties_agree. }
    intros result1 R1. rewrite !resolve_items_update. apply bind_agree.
    { intros r. apply update_agree. apply Hagree. }
    intros result2 R2. rewrite !resolve_list_update. apply bind_agree.
    { intros r. apply update_agree. intros r'. by apply resolved_list_agree. }
    intros result3 R3. rewrite !resolve_list_update. apply bind_agree.
    { intros r. apply update_agree. intros r'. by apply resolved_list_agree. }
    intros result4 R4. rewrite !resolve_list_update. apply bind_agree; [|done].
    intros r. apply update_agree. intros r'. by apply resolved_list_agree.
Qed.

(** A deeper stack changes nothing for a call that finished. *)
Lemma resolveSchemaRefs_deeper depth schema spec R :
  resolveSchemaRefs depth schema spec = R → finishes R →
  resolveSchemaRefs (S depth) schema spec = R.
Proof.
  revert schema R. induction depth as [|depth IH]; intros schema R.
  - simpl. by intros <-.
  - change (resolve_body (λ s, resolveSchemaRefs depth s spec) spec schema = R →
            finishes R →
            resolve_body (λ s, resolveSchemaRefs (S depth) s spec) spec schema = R).
    apply resolve_body_agree. intros c r. apply IH.
Qed.

Lemma resolveSchemaRefs_deeper_le depth depth' schema spec R :
  (depth ≤ depth')%nat →
  resolveSchemaRefs depth schema spec = R → finishes R →
  resolveSchemaRefs depth' schema spec = R.
Proof.
  induction 1 as [|depth' _ IH]; [done|].
  intros HR Hfin. apply resolveSchemaRefs_deeper; [by apply IH | done].
Qed.

Lemma bind_finishes {A B} (m : res A) (k : A → res B) :
  finishes m → (∀ a, m = Ok a → finishes (k a)) → finishes (m ≫= k).
Proof. run. destruct m as [a|e]; [|by intros Hm _]. intros _ Hk. by apply Hk. Qed.

Lemma foldM_finishes {A B} (f : A → B → res A) l a :
  (∀ a x, x ∈ l → finishes (f a x)) → finishes (foldM f l a).
Proof.
  revert a. induction l as [|x l IH]; intros a Hl; [done|].
  simpl. apply bind_finishes; [apply Hl, list_elem_of_here|].
  intros a' _. apply IH. intros a'' z Hz. apply Hl. by apply list_elem_of_further.
Qed.

Lemma resolved_properties_finishes self v :
  (∀ c, c ∈ (own_entries v).*2 → finishes (self c)) →
  finishes (resolved_properties self v).
Proof.
  intros Hl. unfold resolved_properties. apply bind_finishes; [|done].
  apply foldM_finishes. intros acc [k c] Hin. unfold resolve_entry.
  apply bind_finishes; [|done]. apply Hl. apply list_elem_of_fmap. by exists (k, c).
Qed.

Lemma resolved_list_finishes self v :
  (∀ c, c ∈ match v with JArr l => l | _ => [] end → finishes (self c)) →
  finishes (resolved_list self v).
Proof.
  unfold resolved_list. destruct v as [| | | | |l| |]; try done. intros Hl.
  pose proof (mapM_finishes self l Hl) as Hfin. run.
  destruct (mapM self l); [done | exact Hfin].
Qed.

Lemma resolve_body_finishes self spec schema :
  (∀ c, c ∈ callees spec schema → finishes (self c)) →
  finishes (resolve_body self spec schema).
Proof.
  unfold callees, visited, own_ref, resolve_body, prop_opt.
  destruct (truthy schema) eqn:Htruthy; [|done].
  destruct (typeof_object schema) eqn:Hobject; [|done]. simpl.
  destruct (prop_truthy_ok schema "$ref" Htruthy) as [ref ->]. run.
  destruct (truthy ref).
  - destruct ref; try done. destruct (walk spec _); [|done].
    intros Hc. apply Hc. apply list_elem_of_here.
  - unfold subschemas, list_at. set (result := own_entries schema). intros Hc.
    rewrite resolve_properties_update. apply bind_finishes.
    { apply update_finishes. intros Ht. apply resolved_properties_finishes.
      intros c Hin. apply Hc. rewrite Ht. apply elem_of_app. by left. }
    intros result1 H1. rewrite resolve_items_update. apply bind_finishes.
    { apply update_finishes. rewrite (update_frame _ _ _ _ "items" H1) by done.
      intros Ht. apply Hc. rewrite Ht. apply elem_of_app. right.
      apply elem_of_app. left. apply list_elem_of_here. }
    intros result2 H2. rewrite resolve_list_update. apply bind_finishes.
    { apply update_finishes. intros _. apply resolved_list_finishes.
      rewrite (update_frame _ _ _ _ "allOf" H2), (update_frame _ _ _ _ "allOf" H1) by done.
      intros c Hin. apply Hc. rewrite !elem_of_app. right. right. by left. }
    intros result3 H3. rewrite resolve_list_update. apply bind_finishes.
    { apply update_finishes. intros _. apply resolved_list_finishes.
      rewrite (update_frame _ _ _ _ "oneOf" H3), (update_frame _ _ _ _ "oneOf" H2),
        (update_frame _ _ _ _ "oneOf" H1) by done.
      intros c Hin. apply Hc. rewrite !elem_of_app. right. right. right. by left. }
    intros result4 H4. rewrite resolve_list_update. apply bind_finishes; [|done].
    apply update_finishes. intros _. apply resolved_list_finishes.
    rewrite (update_frame _ _ _ _ "anyOf" H4), (update_frame _ _ _ _ "anyOf" H3),
      (update_frame _ _ _ _ "anyOf" H2), (update_frame _ _ _ _ "anyOf" H1) by done.
    intros c Hin. apply Hc. rewrite !elem_of_app. right. right. right. by right.
Qed.

Lemma indexed_from_values i l : (indexed_from i l).*2 = l.
Proof. revert i. induction l as [|x l IH]; intros i; [done|]. simpl. by rewrite IH. Qed.

Lemma lookup_key_elem k (o : obj) : lookup_key k o ≠ JUndefined → lookup_key k o ∈ o.*2.
Proof.
  induction o as [|[k' v] o IH]; simpl; [done|].
  destruct (decide (k' = k)); [intros _; apply list_elem_of_here|].
  intros H. apply list_elem_of_further. by apply IH.
Qed.

Section PointerFacts.

Variable spec : json.

Lemma common_depth (l : list json) :
  (∀ c, c ∈ l → (terminates spec) c) →
  ∃ depth, ∀ c, c ∈ l → finishes (resolveSchemaRefs depth c spec).
Proof.
  induction l as [|x l IH]; intros Hl.
  - exists O. intros c Hc. by apply elem_of_nil in Hc.
  - destruct (Hl x (list_elem_of_here _ _)) as [n Hn].
    destruct IH as [m Hm]; [intros c Hc; apply Hl; by apply list_elem_of_further|].
    exists (n `max` m)%nat. intros c [->|Hc]%elem_of_cons.
    + rewrite (resolveSchemaRefs_deeper_le n (n `max` m) _ _ _ (Nat.le_max_l _ _) eq_refl Hn).
      exact Hn.
    + rewrite (resolveSchemaRefs_deeper_le m (n `max` m) _ _ _ (Nat.le_max_r _ _) eq_refl
                 (Hm c Hc)).
      by apply Hm.
Qed.

Lemma terminates_callees schema :
  (∀ c, c ∈ callees spec schema → (terminates spec) c) → (terminates spec) schema.
Proof.
  intros [depth Hdepth]%common_depth. exists (S depth).
  by apply resolve_body_finishes.
Qed.

Lemma terminates_below_primitive schema :
  visited schema = false → (terminates_below spec) schema.
Proof.
  intros Hp _. apply terminates_callees. unfold callees. rewrite Hp.
  intros c Hc. by apply elem_of_nil in Hc.
Qed.

Lemma terminates_below_composite schema :
  Forall (λ child, (terminates_below spec) child
                   ∧ Forall (terminates_below spec) (own_entries child).*2)
         (own_entries schema).*2 →
  (terminates_below spec) schema.
Proof.
  intros Hchildren Hpointers. apply terminates_callees.
  unfold callees. destruct (visited schema) eqn:Hvisited;
    [|intros c Hc; by apply elem_of_nil in Hc].
  destruct (truthy (own_ref schema)) eqn:Href.
  - destruct (own_ref schema) as [| | | |pointer| | |] eqn:Hown;
      try (intros c Hc; by apply elem_of_nil in Hc).
    destruct (walk spec (ref_path pointer)) as [resolved|] eqn:Hwalk;
      [|intros c Hc; by apply elem_of_nil in Hc].
    intros c ->%list_elem_of_singleton.
    apply (Hpointers pointer); [|done].
    apply meets_own; [done..|]. by intros ->.
  - intros c Hc.
    assert ((terminates_below spec) c) as Hbelow.
    { rewrite Forall_forall in Hchildren.
      assert (∀ key, lookup_key key (own_entries schema) ≠ JUndefined →
                     (terminates_below spec) (lookup_key key (own_entries schema))
                     ∧ Forall (terminates_below spec)
                         (own_entries (lookup_key key (own_entries schema))).*2) as Hfield.
      { intros key Hdefined. by apply Hchildren, lookup_key_elem. }
      assert (∀ key, c ∈ list_at key (own_entries schema) → (terminates_below spec) c) as Hlist.
      { intros key. unfold list_at.
        destruct (lookup_key key (own_entries schema)) as [| | | | |l| |] eqn:Hkey;
          try (intros Hnil; by apply elem_of_nil in Hnil).
        intros Hin. destruct (Hfield key) as [_ Hl]; [by rewrite Hkey|].
        rewrite Hkey in Hl. simpl in Hl. rewrite indexed_from_values in Hl.
        by apply (proj1 (Forall_forall _ _) Hl). }
      unfold subschemas in Hc. rewrite !elem_of_app in Hc.
      destruct Hc as [Hc|[Hc|[Hc|[Hc|Hc]]]]; [| |by eapply Hlist..].
      - destruct (truthy (lookup_key "properties" _)) eqn:Ht;
          [|by apply elem_of_nil in Hc].
        destruct (Hfield "properties") as [_ Hl]; [by apply truthy_defined|].
        by apply (proj1 (Forall_forall _ _) Hl).
      - destruct (truthy (lookup_key "items" _)) eqn:Ht; [|by apply elem_of_nil in Hc].
        apply list_elem_of_singleton in Hc as ->.
        apply Hfield. by apply truthy_defined. }
    apply Hbelow. intros pointer Hmeets. apply Hpointers. by eapply meets_below.
Qed.

Lemma terminates_below_all schema :
  (terminates_below spec) schema ∧ Forall (terminates_below spec) (own_entries schema).*2.
Proof.
  induction schema as [| | b | n | s | l IH | o IH | name arity] using json_induction.
  1-4: split; [|by apply Forall_nil];
    apply terminates_below_primitive; unfold visited; simpl; by rewrite ?andb_false_r.
  - split; [apply terminates_below_primitive; unfold visited; simpl;
            by rewrite ?andb_false_r|].
    simpl. rewrite indexed_from_values. apply Forall_forall.
    intros c Hc. apply terminates_below_primitive.
    clear -Hc. induction s as [|a s IHs]; simpl in Hc; [by apply elem_of_nil in Hc|].
    apply elem_of_cons in Hc as [->|Hc]; [done | by apply IHs].
  - assert (Forall (terminates_below spec) (own_entries (JArr l)).*2) as Hl.
    { simpl. rewrite indexed_from_values. eapply Forall_impl; [exact IH|]. by intros c [Hc _]. }
    split; [|done]. apply terminates_below_composite.
    simpl. rewrite indexed_from_values. done.
  - assert (Forall (λ child, (terminates_below spec) child
                             ∧ Forall (terminates_below spec) (own_entries child).*2) o.*2) as Ho.
    { apply Forall_fmap. eapply Forall_impl; [exact IH|]. by intros [k c]. }
    split; [by apply terminates_below_composite|].
    eapply Forall_impl; [exact Ho|]. by intros c [Hc _].
  - split; [by apply terminates_below_primitive | by apply Forall_nil].
Qed.

Lemma settles_terminates pointer resolved :
  (settles spec) pointer → walk spec (ref_path pointer) = Some resolved → (terminates spec) resolved.
Proof.
  intros Hsettles. revert resolved.
  induction Hsettles as [pointer _ IH]. intros resolved Hwalk.
  apply terminates_below_all. intros next Hmeets. apply IH. by exists resolved.
Qed.

Lemma settled_schema_terminates schema :
  (∀ pointer, meets schema pointer → (settles spec) pointer) → (terminates spec) schema.
Proof.
  intros Hsettled. apply terminates_below_all.
  intros pointer Hmeets resolved Hwalk.
  eapply settles_terminates; [by apply Hsettled | done].
Qed.

End PointerFacts.

Lemma all_refs_field k x (o : obj) :
  all_refs (JObj ((k, x) :: o))
  = (if bool_decide (k = "$ref")
     then match x with JStr pointer => [pointer] | _ => [] end else [])
    ++ all_refs x ++ all_refs (JObj o).
Proof. reflexivity. Qed.

Lemma all_refs_element x l : all_refs (JArr (x :: l)) = all_refs x ++ all_refs (JArr l).
Proof. reflexivity. Qed.

Lemma all_refs_child v c : c ∈ (own_entries v).*2 → all_refs c ⊆ all_refs v.
Proof.
  destruct v as [| | | |s|l|o|]; cbn [own_entries];
    try (intros Hc; by apply elem_of_nil in Hc).
  - rewrite indexed_from_values. intros Hc p Hp. exfalso.
    induction s as [|a s IH]; simpl in Hc; [by apply elem_of_nil in Hc|].
    apply elem_of_cons in Hc as [->|Hc]; [by apply elem_of_nil in Hp | by apply IH].
  - rewrite indexed_from_values. induction l as [|x l IH]; intros Hc;
      [by apply elem_of_nil in Hc|].
    rewrite all_refs_element. intros p Hp. apply elem_of_app.
    apply elem_of_cons in Hc as [->|Hc]; [by left | right; by apply IH].
  - induction o as [|[k x] o IH]; intros Hc; [by apply elem_of_nil in Hc|].
    rewrite all_refs_field. intros p Hp. rewrite !elem_of_app.
    apply elem_of_cons in Hc as [->|Hc]; [right; by left | right; right; by apply IH].
Qed.

Lemma all_refs_lookup v key : all_refs (lookup_key key (own_entries v)) ⊆ all_refs v.
Proof.
  destruct (is_undefined (lookup_key key (own_entries v))) eqn:Hu.
  - apply is_undefined_eq in Hu as ->. intros p Hp. by apply elem_of_nil in Hp.
  - apply all_refs_child, lookup_key_elem. intros Heq. by rewrite Heq in Hu.
Qed.

Lemma all_refs_own_ref schema pointer :
  own_ref schema = JStr pointer → pointer ∈ all_refs schema.
Proof.
  unfold own_ref, prop_opt. destruct schema as [| | | |s|l|o|]; try done.
  cbn [prop]. induction o as [|[k x] o IH]; [done|].
  rewrite all_refs_field. cbn [lookup_key].
  destruct (decide (k = "$ref")) as [->|Hne].
  - intros ->. apply list_elem_of_here.
  - intros Hfound. rewrite bool_decide_eq_false_2 by done.
    apply elem_of_app. right. apply elem_of_app. right. by apply IH.
Qed.

Lemma all_refs_subschema schema sub : sub ∈ subschemas schema → all_refs sub ⊆ all_refs schema.
Proof.
  assert (∀ key, sub ∈ list_at key (own_entries schema) → all_refs sub ⊆ all_refs schema)
    as Hlist.
  { intros key. unfold list_at.
    destruct (lookup_key key (own_entries schema)) as [| | | | |l| |] eqn:Hkey;
      try (intros Hnil; by apply elem_of_nil in Hnil).
    intros Hin. trans (all_refs (JArr l)).
    - apply all_refs_child. simpl. by rewrite indexed_from_values.
    - rewrite <- Hkey. apply all_refs_lookup. }
  unfold subschemas. rewrite !elem_of_app.
  intros [Hc|[Hc|[Hc|[Hc|Hc]]]]; [| |by eapply Hlist..].
  - destruct (truthy _); [|by apply elem_of_nil in Hc].
    trans (all_refs (lookup_key "properties" (own_entries schema))).
    + by apply all_refs_child.
    + apply all_refs_lookup.
  - destruct (truthy _); [|by apply elem_of_nil in Hc].
    apply list_elem_of_singleton in Hc as ->. apply all_refs_lookup.
Qed.

Lemma all_refs_meets schema pointer :
  meets schema pointer → pointer ∈ all_refs schema.
Proof.
  induction 1 as [schema pointer _ Hown _ | schema sub pointer _ _ Hsub _ IH].
  - by apply all_refs_own_ref.
  - by apply (all_refs_subschema schema sub).
Qed.

Lemma all_refs_primitive v : visited v = false ∨ typeof_object v = false → all_refs v = [].
Proof. destruct v; try done; unfold visited; simpl; by intros [?|?]. Qed.

Lemma all_refs_char s c : c ∈ chars s → all_refs c = [].
Proof.
  induction s as [|a s IH]; simpl; [by intros ?%elem_of_nil|].
  intros [->|Hc]%elem_of_cons; [done | by apply IH].
Qed.

Lemma all_refs_prop v key next : prop v key = Ok next → all_refs next ⊆ all_refs v.
Proof.
  assert (∀ w, all_refs w = [] → all_refs w ⊆ all_refs v) as Hnone.
  { intros w -> p Hp. by apply elem_of_nil in Hp. }
  destruct v as [| | | |s|l|o|]; cbn [prop]; try done;
    try (intros [= <-]; by apply Hnone).
  - destruct (bool_decide _); [intros [= <-]; by apply Hnone|].
    destruct (index_of_key key) as [i|]; [|intros [= <-]; by apply Hnone].
    intros [= <-]. apply Hnone.
    destruct (chars s !! i) as [c|] eqn:Hc; [|done].
    apply list_elem_of_lookup_2 in Hc. by eapply all_refs_char.
  - destruct (bool_decide _); [intros [= <-]; by apply Hnone|].
    destruct (index_of_key key) as [i|]; [|intros [= <-]; by apply Hnone].
    intros [= <-]. destruct (l !! i) as [x|] eqn:Hx; [|by apply Hnone].
    apply all_refs_child. cbn [own_entries]. rewrite indexed_from_values.
    by apply list_elem_of_lookup_2 in Hx.
  - intros [= <-]. apply (all_refs_lookup (JObj o)).
  - repeat case_match; intros [= <-]; by apply Hnone.
Qed.

Lemma all_refs_inherited key : all_refs (lookup_key key Object_prototype) = [].
Proof.
  unfold Object_prototype. cbn [lookup_key]. by repeat (destruct (decide _); [done|]).
Qed.

Lemma all_refs_member v key next : member v key = Ok next → all_refs next ⊆ all_refs v.
Proof.
  destruct v; try apply all_refs_prop. cbn [member]. intros Hnext.
  assert (next = member_of o key) as -> by congruence. unfold member_of.
  destruct (bool_decide _); [apply (all_refs_lookup (JObj o))|].
  rewrite all_refs_inherited. by intros p ?%elem_of_nil.
Qed.

Lemma all_refs_walk v path resolved :
  walk v path = Some resolved → all_refs resolved ⊆ all_refs v.
Proof.
  revert v. induction path as [|segment path IH]; intros v; simpl.
  - by intros [= <-].
  - destruct (truthy v && typeof_object v); [|done].
    destruct (member v segment) as [next|] eqn:Hnext; [|done].
    intros Hwalk. trans (all_refs next); [by apply IH | by eapply all_refs_member].
Qed.

(** Every pointer that following leads to is written in the document. *)
Lemma follows_written spec pointer next : follows spec pointer next → next ∈ all_refs spec.
Proof.
  intros (resolved & Hwalk & Hmeets).
  eapply all_refs_walk; [done|]. by eapply all_refs_meets.
Qed.

(** A document in which following pointers never comes back to a pointer:
    every pointer settles, because the pointers of a document are finitely
    many. *)
Lemma acyclic_settles spec :
  (∀ pointer, ¬ tc (follows spec) pointer pointer) →
  ∀ pointer, settles spec pointer.
Proof.
  intros Hacyclic pointer. apply tc_finite_sn.
  - intros start. apply Hacyclic.
  - exists (all_refs spec). intros next Htc.
    induction Htc as [start next Hstep | start mid next _ _ IH]; [|done].
    by eapply follows_written.
Qed.

Lemma foldM_entry_Ok self l acc acc' :
  foldM (resolve_entry self) l acc = Ok acc' →
  ∀ kv, kv ∈ l → ∃ r, self kv.2 = Ok r.
Proof.
  revert acc. induction l as [|kv l IH]; intros acc; [by intros _ ? ?%elem_of_nil|].
  simpl. intros (acc1 & Hentry & Hrest)%bind_Ok_inv.
  apply bind_Ok_inv in Hentry as (r & Hr & _).
  intros kv' [->|Hin]%elem_of_cons; [by exists r | by eapply IH].
Qed.

Lemma mapM_Ok_elem {A B} (f : A → res B) l ys :
  mapM f l = Ok ys → ∀ x, x ∈ l → ∃ y, f x = Ok y.
Proof.
  revert ys. induction l as [|x l IH]; intros ys; [by intros _ ? ?%elem_of_nil|].
  simpl. intros (y & Hy & (ys' & Hys & _)%bind_Ok_inv)%bind_Ok_inv.
  intros x' [->|Hin]%elem_of_cons; [by exists y | by eapply IH].
Qed.

Lemma resolved_properties_Ok self v v' :
  resolved_properties self v = Ok v' →
  ∀ c, c ∈ (own_entries v).*2 → ∃ r, self c = Ok r.
Proof.
  intros (acc & Hfold & _)%bind_Ok_inv c ([k c'] & -> & Hin)%list_elem_of_fmap.
  by apply (foldM_entry_Ok _ _ _ _ Hfold (k, c')).
Qed.

Lemma resolved_list_Ok self v v' :
  resolved_list self v = Ok v' →
  ∀ c, c ∈ match v with JArr l => l | _ => [] end → ∃ r, self c = Ok r.
Proof.
  unfold resolved_list. destruct v as [| | | | |l| |]; try done.
  intros (l' & Hl & _)%bind_Ok_inv. by eapply mapM_Ok_elem.
Qed.

(** A call that returns a value got a value from each of its recursive
    calls. *)
Lemma resolve_body_Ok_callees self spec schema r :
  resolve_body self spec schema = Ok r →
  ∀ c, c ∈ callees spec schema → ∃ r', self c = Ok r'.
Proof.
  unfold callees, visited, own_ref, resolve_body, prop_opt.
  destruct (truthy schema) eqn:Htruthy; [|by intros _ c ?%elem_of_nil].
  destruct (typeof_object schema) eqn:Hobject; [|by intros _ c ?%elem_of_nil]. simpl.
  destruct (prop_truthy_ok schema "$ref" Htruthy) as [ref ->]. run.
  destruct (truthy ref).
  - destruct ref; try by intros _ c ?%elem_of_nil.
    destruct (walk spec _); [|by intros _ c ?%elem_of_nil].
    intros Hself c ->%list_elem_of_singleton. by exists r.
  - unfold subschemas, list_at. set (result := own_entries schema).
    rewrite resolve_properties_update.
    intros (result1 & H1 & Hrest)%bind_Ok_inv. rewrite resolve_items_update in Hrest.
    apply bind_Ok_inv in Hrest as (result2 & H2 & Hrest).
    rewrite resolve_list_update in Hrest.
    apply bind_Ok_inv in Hrest as (result3 & H3 & Hrest).
    rewrite resolve_list_update in Hrest.
    apply bind_Ok_inv in Hrest as (result4 & H4 & Hrest).
    rewrite resolve_list_update in Hrest.
    apply bind_Ok_inv in Hrest as (result5 & H5 & _).
    pose proof (update_value _ _ _ _ H1) as V1.
    pose proof (update_value _ _ _ _ H2) as V2.
    pose proof (update_value _ _ _ _ H3) as V3.
    pose proof (update_value _ _ _ _ H4) as V4.
    pose proof (update_value _ _ _ _ H5) as V5.
    rewrite (update_frame _ _ _ _ "items" H1) in V2 by done.
    rewrite (update_frame _ _ _ _ "allOf" H2), (update_frame _ _ _ _ "allOf" H1) in V3 by done.
    rewrite (update_frame _ _ _ _ "oneOf" H3), (update_frame _ _ _ _ "oneOf" H2),
      (update_frame _ _ _ _ "oneOf" H1) in V4 by done.
    rewrite (update_frame _ _ _ _ "anyOf" H4), (update_frame _ _ _ _ "anyOf" H3),
      (update_frame _ _ _ _ "anyOf" H2), (update_frame _ _ _ _ "anyOf" H1) in V5 by done.
    intros c. rewrite !elem_of_app. intros [Hc|[Hc|[Hc|[Hc|Hc]]]].
    + destruct (truthy (lookup_key "properties" result)); [|by apply elem_of_nil in Hc].
      exact (resolved_properties_Ok _ _ _ V1 c Hc).
    + destruct (truthy (lookup_key "items" result)); [|by apply elem_of_nil in Hc].
      apply list_elem_of_singleton in Hc as ->. by eexists.
    + destruct (lookup_key "allOf" result); try by apply elem_of_nil in Hc.
      exact (resolved_list_Ok _ _ _ V3 c Hc).
    + destruct (lookup_key "oneOf" result); try by apply elem_of_nil in Hc.
      exact (resolved_list_Ok _ _ _ V4 c Hc).
    + destruct (lookup_key "anyOf" result); try by apply elem_of_nil in Hc.
      exact (resolved_list_Ok _ _ _ V5 c Hc).
Qed.

(** A call that returns a value met only pointers that settle. *)
Lemma returns_settles spec depth schema r :
  resolveSchemaRefs depth schema spec = Ok r →
  ∀ pointer, meets schema pointer → settles spec pointer.
Proof.
  revert schema r. induction depth as [|depth IH]; intros schema r; [done|].
  intros Hr pointer Hmeets.
  pose proof (resolve_body_Ok_callees _ _ _ _ Hr) as Hcallees.
  unfold callees in Hcallees.
  destruct Hmeets as [schema pointer Hvisited Hown Hpointer
                     | schema sub pointer Hvisited Hnone Hsub Hmeets].
  - rewrite Hvisited, Hown in Hcallees.
    assert (truthy (JStr pointer) = true) as Htruthy.
    { simpl. by rewrite bool_decide_eq_false_2. }
    rewrite Htruthy in Hcallees.
    constructor. intros next (resolved & Hwalk & Hnext). rewrite Hwalk in Hcallees.
    destruct (Hcallees resolved (list_elem_of_here _ _)) as [r' Hr'].
    by eapply IH.
  - rewrite Hvisited, Hnone in Hcallees.
    destruct (Hcallees sub Hsub) as [r' Hr']. by eapply IH.
Qed.

Lemma settles_not_cyclic spec pointer :
  settles spec pointer → ¬ tc (follows spec) pointer pointer.
Proof.
  induction 1 as [pointer _ IH]. intros Hcycle.
  inversion Hcycle as [? ? Hstep | ? next ? Hstep Hrest]; subst.
  - by apply (IH pointer).
  - apply (IH next); [done|]. by eapply tc_r.
Qed.

Lemma linked_list_overflows depth :
  resolveSchemaRefs depth node_ref linked_list = Throw RangeError
  ∧ resolveSchemaRefs depth linked_node linked_list = Throw RangeError.
Proof.
  induction depth as [|depth [IHref IHnode]]; [done|]. split.
  - exact IHnode.
  - change (resolveSchemaRefs (S depth) linked_node linked_list)
      with (resolve_body (λ s, resolveSchemaRefs depth s linked_list) linked_list linked_node).
    unfold resolve_body, linked_node. simpl.
    unfold resolve_properties. simpl. unfold resolve_entry. simpl.
    fold node_ref. by rewrite IHref.
Qed.

Lemma tc_follows_written spec pointer next :
  tc (follows spec) pointer next → next ∈ all_refs spec.
Proof.
  induction 1 as [start next Hstep | start mid next _ _ IH]; [|done].
  by eapply follows_written.
Qed.

(** C8.  In a document in which following pointers never comes back to a
    pointer, [resolveSchemaRefs] finishes on every schema, given stack
    enough.  Nothing in it detects a cycle: a call that comes upon a pointer
    that lies on a cycle returns no value whatever the depth of the stack,
    and on the recursive object schema of [linked_list] it exhausts every
    stack. *)
Theorem resolveSchemaRefs_terminates_unless_cyclic :
  (∀ spec schema,
     (∀ pointer, ¬ tc (follows spec) pointer pointer) →
     ∃ depth, finishes (resolveSchemaRefs depth schema spec))
  ∧ (∀ spec schema pointer,
       meets schema pointer → tc (follows spec) pointer pointer →
       ∀ depth, ¬ is_ok (resolveSchemaRefs depth schema spec))
  ∧ (∀ depth, resolveSchemaRefs depth node_ref linked_list = Throw RangeError).
Proof.
  split; [|split].
  - intros spec schema Hacyclic. apply settled_schema_terminates.
    intros pointer _. by apply acyclic_settles.
  - intros spec schema pointer Hmeets Hcycle depth [r Hr].
    eapply settles_not_cyclic; [|exact Hcycle]. by eapply returns_settles.
  - intros depth. apply linked_list_overflows.
Qed.

Lemma resolveSchemaRefs_terminates_unless_cyclic_witness :
  ∃ depth,
    finishes (resolveSchemaRefs depth (JObj [("$ref", JStr "#/components/schemas/Pet")])
                pet_and_tag).
Proof.
  apply (proj1 resolveSchemaRefs_terminates_unless_cyclic).
  intros pointer Hcycle.
  assert (pointer = "#/components/schemas/Tag") as ->.
  { apply tc_follows_written in Hcycle. vm_compute in Hcycle.
    by apply list_elem_of_singleton in Hcycle. }
  assert (∀ next, ¬ follows pet_and_tag "#/components/schemas/Tag" next) as Hend.
  { intros next (resolved & Hwalk & Hmeets). vm_compute in Hwalk.
    injection Hwalk as <-.
    inversion Hmeets as [? ? _ Hown _ | ? sub ? _ _ Hsub _]; subst.
    - by vm_compute in Hown.
    - vm_compute in Hsub. by apply elem_of_nil in Hsub. }
  inversion Hcycle as [? ? Hstep | ? next ? Hstep _]; subst; by apply Hend in Hstep.
Defined.

(** ** Idempotence *)

Section Idempotence.

Variable self : json → res json.
Hypothesis self_idempotent : ∀ s r, self s = Ok r → self r = Ok r.

(** What the [reduce] builds has one property per key, none of them
    [__proto__], each of them a value that [self] returns as it is. *)
Lemma resolved_entries_settled l acc acc' :
  foldM (resolve_entry self) l acc = Ok acc' →
  plain acc → NoDup (keys acc) → (∀ kv, kv ∈ acc → self kv.2 = Ok kv.2) →
  plain acc' ∧ NoDup (keys acc') ∧ (∀ kv, kv ∈ acc' → self kv.2 = Ok kv.2).
Proof.
  revert acc. induction l as [|[k v] l IH]; intros acc; simpl.
  - by intros [= <-].
  - intros (acc1 & (v' & Hv & [= <-])%bind_Ok_inv & Hrest)%bind_Ok_inv Hplain Hnodup Hfixed.
    apply (IH _ Hrest).
    + by apply put_plain.
    + destruct (put_cases k v' acc Hplain) as [[_ ->]|[_ ->]]; [done|].
      rewrite keys_assign. destruct (bool_decide _) eqn:Hin; [done|].
      apply bool_decide_eq_false in Hin. apply NoDup_app. split; [done|]. split.
      * intros k' Hk' ->%list_elem_of_singleton. done.
      * apply NoDup_singleton.
    + intros kv [->|Hin]%elem_of_put; [|by apply Hfixed].
      simpl. by eapply self_idempotent.
Qed.

Lemma resolve_entry_fixed acc k v :
  self v = Ok v → resolve_entry self acc (k, v) = Ok (put k v acc).
Proof. unfold resolve_entry. cbn [fst snd]. by intros ->. Qed.

Lemma resolved_entries_rebuilt (o acc : obj) :
  plain o → NoDup (keys o) → (∀ kv, kv ∈ o → self kv.2 = Ok kv.2) →
  (∀ k, k ∈ keys acc → k ∉ keys o) →
  foldM (resolve_entry self) o acc = Ok (acc ++ o).
Proof.
  revert acc. induction o as [|[k v] o IH]; intros acc Hplain Hnodup Hfixed Hdisjoint.
  - by rewrite app_nil_r.
  - unfold plain, keys in Hplain, Hnodup. rewrite fmap_cons in Hplain, Hnodup.
    apply NoDup_cons in Hnodup as [Hk Hnodup].
    apply not_elem_of_cons in Hplain as [Hname Hplain].
    cbn [foldM]. rewrite resolve_entry_fixed by apply (Hfixed (k, v)), list_elem_of_here.
    run. rewrite put_ordinary by done. rewrite assign_fresh.
    + rewrite IH; [by rewrite <- app_assoc | done | done | |].
      * intros kv Hin. apply Hfixed. by apply list_elem_of_further.
      * unfold keys. rewrite fmap_app.
        intros k' [Hin| ->%list_elem_of_singleton]%elem_of_app; [|done].
        intros Hin'. apply (Hdisjoint k' Hin). by apply list_elem_of_further.
    + intros Hin. apply (Hdisjoint k Hin). apply list_elem_of_here.
Qed.

Lemma resolved_properties_idempotent v v' :
  resolved_properties self v = Ok v' → resolved_properties self v' = Ok v'.
Proof.
  intros (acc & Hfold & [= <-])%bind_Ok_inv. unfold resolved_properties.
  cbn [own_entries].
  destruct (resolved_entries_settled _ _ _ Hfold) as (Hplain & Hnodup & Hfixed).
  { apply plain_nil. }
  { apply NoDup_nil_2. }
  { by intros kv ?%elem_of_nil. }
  rewrite (resolved_entries_rebuilt acc []); [done..|].
  by intros k ?%elem_of_nil.
Qed.

Lemma resolved_list_idempotent v v' :
  resolved_list self v = Ok v' → resolved_list self v' = Ok v'.
Proof.
  unfold resolved_list. destruct v as [| | | | |l| |]; try done.
  intros (l' & Hl & [= <-])%bind_Ok_inv.
  rewrite mapM_fixed; [done|].
  apply mapM_Ok_inv in Hl. clear -Hl self_idempotent.
  induction Hl as [|x y l l' Hxy _ IH]; constructor; [by eapply self_idempotent | done].
Qed.

(** An update whose transformation is idempotent leaves the field of its
    result in a state that the update, done again on any object with that
    field, does not change. *)
Lemma update_settled t key result result' (o : obj) :
  (∀ v v', t v = Ok v' → t v' = Ok v') →
  update t key result = Ok result' →
  lookup_key key o = lookup_key key result' →
  update t key o = Ok o.
Proof.
  intros Hidem Hupdate Hsame. apply update_fixed. rewrite Hsame. intros Htruthy.
  pose proof (update_value _ _ _ _ Hupdate) as Hvalue.
  destruct (truthy (lookup_key key result)) eqn:Hbefore.
  - by eapply Hidem.
  - rewrite Hvalue in Htruthy. by rewrite Htruthy in Hbefore.
Qed.

End Idempotence.

Lemma dec_of_nat_not_ref i : dec_of_nat i ≠ "$ref".
Proof. unfold dec_of_nat. by destruct (Nat.to_uint i). Qed.

Lemma indexed_from_no_ref i l : lookup_key "$ref" (indexed_from i l) = JUndefined.
Proof.
  revert i. induction l as [|x l IH]; intros i; [done|].
  cbn [indexed_from lookup_key]. destruct (decide _) as [Heq|_]; [|apply IH].
  by apply dec_of_nat_not_ref in Heq.
Qed.

(** The [$ref] that the copy of a visited schema holds is the one read from
    the schema. *)
Lemma own_entries_ref schema ref :
  visited schema = true → prop schema "$ref" = Ok ref →
  lookup_key "$ref" (own_entries schema) = ref.
Proof.
  destruct schema as [| |b|n|s|l|o|]; unfold visited; cbn [truthy typeof_object];
    rewrite ?andb_false_r; try done.
  - intros _ [= <-]. apply indexed_from_no_ref.
  - by intros _ [= <-].
Qed.

Lemma resolve_body_idempotent self spec schema r :
  (∀ s r, self s = Ok r → self r = Ok r) →
  (∀ s r, self s = Ok r → resolve_body self spec r = Ok r) →
  resolve_body self spec schema = Ok r → resolve_body self spec r = Ok r.
Proof.
  intros Hidem Hdeeper Hr. pose proof Hr as Hr'. revert Hr'. unfold resolve_body at 1.
  destruct (negb (truthy schema) || negb (typeof_object schema)) eqn:Hskip;
    [by intros [= <-]|].
  assert (visited schema = true) as Hvisited.
  { unfold visited. apply orb_false_iff in Hskip as [Ht Ho].
    by rewrite (proj1 (negb_false_iff _) Ht), (proj1 (negb_false_iff _) Ho). }
  destruct (prop schema "$ref") as [ref|] eqn:Href; [|done]. run.
  destruct (truthy ref) eqn:Htruthy.
  - destruct ref as [| | | |pointer| | |]; try done.
    destruct (walk spec (ref_path pointer)); [|by intros [= <-]].
    apply Hdeeper.
  - rewrite resolve_properties_update.
    intros (result1 & H1 & Hrest)%bind_Ok_inv. rewrite resolve_items_update in Hrest.
    apply bind_Ok_inv in Hrest as (result2 & H2 & Hrest).
    rewrite resolve_list_update in Hrest.
    apply bind_Ok_inv in Hrest as (result3 & H3 & Hrest).
    rewrite resolve_list_update in Hrest.
    apply bind_Ok_inv in Hrest as (result4 & H4 & Hrest).
    rewrite resolve_list_update in Hrest.
    apply bind_Ok_inv in Hrest as (result5 & H5 & [= <-]).
    unfold resolve_body. cbn [truthy typeof_object negb orb prop own_entries].
    assert (lookup_key "$ref" result5 = ref) as ->.
    { rewrite (update_frame _ _ _ _ "$ref" H5), (update_frame _ _ _ _ "$ref" H4),
        (update_frame _ _ _ _ "$ref" H3), (update_frame _ _ _ _ "$ref" H2),
        (update_frame _ _ _ _ "$ref" H1) by done.
      by apply own_entries_ref. }
    run. rewrite Htruthy.
    rewrite resolve_properties_update.
    rewrite (update_settled _ _ _ _ result5 (resolved_properties_idempotent self Hidem) H1).
    2: { by rewrite (update_frame _ _ _ _ "properties" H5),
           (update_frame _ _ _ _ "properties" H4), (update_frame _ _ _ _ "properties" H3),
           (update_frame _ _ _ _ "properties" H2) by done. }
    rewrite resolve_items_update.
    rewrite (update_settled _ _ _ _ result5 Hidem H2).
    2: { by rewrite (update_frame _ _ _ _ "items" H5), (update_frame _ _ _ _ "items" H4),
           (update_frame _ _ _ _ "items" H3) by done. }
    rewrite resolve_list_update.
    rewrite (update_settled _ _ _ _ result5 (resolved_list_idempotent self Hidem) H3).
    2: { by rewrite (update_frame _ _ _ _ "allOf" H5), (update_frame _ _ _ _ "allOf" H4)
           by done. }
    rewrite resolve_list_update.
    rewrite (update_settled _ _ _ _ result5 (resolved_list_idempotent self Hidem) H4).
    2: { by rewrite (update_frame _ _ _ _ "oneOf" H5) by done. }
    rewrite resolve_list_update.
    by rewrite (update_settled _ _ _ _ result5 (resolved_list_idempotent self Hidem) H5).
Qed.

(** [resolveSchemaRefs] is idempotent where it returns: what it returned it
    returns again, unchanged, under the same stack. *)
Lemma resolveSchemaRefs_idempotent depth schema spec r :
  resolveSchemaRefs depth schema spec = Ok r → resolveSchemaRefs depth r spec = Ok r.
Proof.
  revert schema r. induction depth as [|depth IH]; intros schema r; [done|].
  apply resolve_body_idempotent.
  - apply IH.
  - intros s r' Hs. apply (resolveSchemaRefs_deeper depth r' spec (Ok r')); [|done].
    by eapply IH.
Qed.

(** C7 holds in its first half and fails on the code in its second.  What
    [resolveSchemaRefs] has returned it returns again unchanged.  But a
    schema that holds no pointer that can be resolved is not always returned
    unchanged: the pointer [#/components/schemas/Missing], whose last segment
    names nothing in [empty_components], comes back as [undefined], while the
    pointer [#/definitions/Missing], which breaks one segment earlier, is
    left in place. *)
Theorem resolveSchemaRefs_idempotent_not_identity :
  (∀ depth schema spec r,
     resolveSchemaRefs depth schema spec = Ok r →
     resolveSchemaRefs depth r spec = Ok r)
  ∧ walk empty_components (ref_path "#/components/schemas/Missing") = Some JUndefined
  ∧ resolveSchemaRefs 8 (JObj [("$ref", JStr "#/components/schemas/Missing")])
      empty_components
    = Ok JUndefined
  ∧ walk empty_components (ref_path "#/definitions/Missing") = None
  ∧ resolveSchemaRefs 8 (JObj [("$ref", JStr "#/definitions/Missing")]) empty_components
    = Ok (JObj [("$ref", JStr "#/definitions/Missing")]).
Proof.
  split; [apply resolveSchemaRefs_idempotent|]. repeat split; reflexivity.
Qed.

Lemma resolveSchemaRefs_idempotent_not_identity_witness :
  resolveSchemaRefs 8
    (JObj [("type", JStr "object");
           ("properties", JObj [("tag", JObj [("type", JStr "string")])])])
    pet_and_tag
  = Ok (JObj [("type", JStr "object");
              ("properties", JObj [("tag", JObj [("type", JStr "string")])])]).
Proof.
  exact (proj1 resolveSchemaRefs_idempotent_not_identity 8%nat
           (JObj [("$ref", JStr "#/components/schemas/Pet")]) pet_and_tag _ eq_refl).
Defined.

(** ** The input schema *)

Lemma dedupe_from_distinct seen l :
  Forall (λ y, Forall (λ x, same_value_zero y x = false) seen) (dedupe_from seen l)
  ∧ distinct (dedupe_from seen l).
Proof.
  revert seen. induction l as [|v l IH]; intros seen; simpl; [by split|].
  destruct (existsb (same_value_zero v) seen) eqn:Hseen; [apply IH|].
  destruct (IH (v :: seen)) as [Hfresh Hdistinct]. split.
  - constructor.
    + apply Forall_forall. intros x Hx. apply not_true_is_false. intros Heq.
      assert (existsb (same_value_zero v) seen = true) as Hex; [|by rewrite Hex in Hseen].
      apply existsb_exists. exists x. split; [by apply list_elem_of_In | done].
    + eapply Forall_impl; [exact Hfresh|]. by intros y [_ Hy]%Forall_cons.
  - simpl. split; [|done].
    eapply Forall_impl; [exact Hfresh|]. by intros y [Hy _]%Forall_cons.
Qed.

(** What does hold of every input schema: it is a closed object schema
    whose list of required names holds no name twice. *)
Lemma buildInputSchema_closed operation schema after :
  buildInputSchema operation = Ok (schema, after) →
  ∃ properties names,
    schema = JObj [("type", JStr "object"); ("properties", JObj properties);
                   ("required", JArr names); ("additionalProperties", JBool false)]
    ∧ distinct names.
Proof.
  unfold buildInputSchema.
  intros (ex & _ & Hrest)%bind_Ok_inv.
  destruct (fold_left _ _ _) as [props req].
  apply bind_Ok_inv in Hrest as ([props' req'] & _ & [= <- _]).
  eexists _, _. split; [done|]. apply dedupe_from_distinct.
Qed.

(** * Further properties *)

(** ** The shape of a document *)

(** What a document that [validateSwaggerSpec] lets through holds. *)
Lemma validateSwaggerSpec_Ok spec warned :
  validateSwaggerSpec spec = Ok warned →
  truthy spec = true ∧ typeof_object spec = true
  ∧ truthy (or_else (prop_opt spec "openapi") (prop_opt spec "swagger")) = true
  ∧ truthy (prop_opt (prop_opt spec "info") "title") = true
  ∧ truthy (prop_opt (prop_opt spec "info") "version") = true
  ∧ typeof_object (prop_opt spec "paths") = true
  ∧ own_entries (prop_opt spec "paths") ≠ [].
Proof.
  unfold validateSwaggerSpec.
  destruct (truthy spec) eqn:Hspec; [|done].
  destruct (typeof_object spec) eqn:Hobject; [|done]. cbn [negb orb].
  rewrite !(prop_truthy spec) by done. run.
  set (openapi := prop_opt spec "openapi"). set (swagger := prop_opt spec "swagger").
  set (info := prop_opt spec "info"). set (paths := prop_opt spec "paths").
  assert (∀ k : json → res (list string),
            (if truthy openapi then Ok openapi else Ok swagger) ≫= k
            = k (or_else openapi swagger)) as Hversion.
  { intros k. unfold or_else. by destruct (truthy openapi). }
  unfold mbind, res_bind in Hversion. rewrite Hversion. clear Hversion.
  destruct (truthy (or_else openapi swagger)) eqn:Hversion; [|done]. cbn [negb].
  destruct (truthy info) eqn:Hinfo; [|done]. cbn [negb].
  rewrite !(prop_truthy info) by done.
  destruct (truthy (prop_opt info "title")) eqn:Htitle; [|done]. cbn [negb].
  destruct (truthy (prop_opt info "version")) eqn:Hrelease; [|done]. cbn [negb].
  destruct (truthy paths) eqn:Hpaths; [|done].
  destruct (typeof_object paths) eqn:Hshape; [|done]. cbn [negb orb].
  destruct (bool_decide _) eqn:Hcount; [done|]. intros _.
  apply bool_decide_eq_false in Hcount.
  repeat split; try done. intros Hnone. apply Hcount. unfold keys. by rewrite Hnone.
Qed.

Local Ltac refused :=
  right; eexists; split; [reflexivity | repeat first [apply list_elem_of_here | apply list_elem_of_further]].

(** X1.  [validateSwaggerSpec] takes any value: whatever it is given, it
    returns or throws an [Error] with one of its seven messages, and never
    fails on a property read. *)
Theorem validateSwaggerSpec_refuses_with_message (spec : json) :
  (∃ warned, validateSwaggerSpec spec = Ok warned)
  ∨ ∃ message,
      validateSwaggerSpec spec = Throw (Error message)
      ∧ message ∈ ["Swagger spec must be an object";
                   "Missing OpenAPI/Swagger version field (openapi or swagger)";
                   "Missing required field: info";
                   "Missing required field: info.title";
                   "Missing required field: info.version";
                   "Missing or invalid required field: paths (must be an object)";
                   "Swagger spec must contain at least one path"].
Proof.
  unfold validateSwaggerSpec.
  destruct (truthy spec) eqn:Hspec; [|refused].
  destruct (typeof_object spec) eqn:Hobject; [|refused].
  cbn [negb orb]. rewrite !(prop_truthy spec) by done. run.
  assert (∃ version, (if truthy (prop_opt spec "openapi")
                      then Ok (prop_opt spec "openapi")
                      else Ok (prop_opt spec "swagger")) = Ok version) as [version ->].
  { destruct (truthy (prop_opt spec "openapi")); eexists; reflexivity. }
  destruct (truthy version); [|refused]. cbn [negb].
  destruct (truthy (prop_opt spec "info")) eqn:Hinfo;
    [|refused].
  cbn [negb]. rewrite !(prop_truthy (prop_opt spec "info")) by done.
  destruct (truthy (prop_opt _ "title")); [|refused].
  cbn [negb].
  destruct (truthy (prop_opt _ "version")); [|refused].
  cbn [negb].
  destruct (negb (truthy (prop_opt spec "paths")) || _);
    [refused|].
  destruct (bool_decide _); [refused|].
  left. destruct (truthy (prop_opt spec "swagger")); by eexists.
Qed.

(** X2.  The manifest of a document that [validateSwaggerSpec] has let
    through is named after the document: its name and version are the
    [info.title] and [info.version] of the document, never the defaults. *)
Theorem manifest_of_validated_document (ajv_compile : json → bool)
    (registerTool : list string → string → bool) (stack : nat)
    (spec : json) (options : Options) (warned : list string) (manifest : Manifest) :
  validateSwaggerSpec spec = Ok warned →
  written (createMCPFromSwagger ajv_compile registerTool stack spec options) = Some manifest →
  m_name manifest = prop_opt (prop_opt spec "info") "title"
  ∧ m_version manifest = prop_opt (prop_opt spec "info") "version".
Proof.
  intros (_ & _ & _ & Htitle & Hversion & _)%validateSwaggerSpec_Ok.
  unfold createMCPFromSwagger.
  destruct (validatePort (port options)) as [[validatedPort warnings]|]; [|done].
  destruct (_ ≫= _) as [routes|]; [|done].
  destruct (compile_routes _ _ _ _ _) as [st [[]|]]; [|done].
  intros [= <-]. cbn [m_name m_version]. unfold or_else. by rewrite Htitle, Hversion.
Qed.

Lemma manifest_of_validated_document_witness :
  ∃ manifest,
    written (createMCPFromSwagger accept_all host_accepts 64 (pets_document create_pet)
               {| manifestOnly := true; port := 4000 |}) = Some manifest
    ∧ m_name manifest = JStr "Pets" ∧ m_version manifest = JStr "1.0.0".
Proof.
  eexists. split; [reflexivity|].
  exact (manifest_of_validated_document accept_all host_accepts 64
           (pets_document create_pet) {| manifestOnly := true; port := 4000 |} _ _
           eq_refl eq_refl).
Defined.

(** ** Loading a document *)

(** What [validateURL] returns has passed its three checks. *)
Lemma validateURL_Ok (new_URL : string → string + URL) (config : SecurityConfig)
    (urlString : string) (parsed : URL) :
  validateURL new_URL urlString config = Ok parsed →
  new_URL urlString = inr parsed
  ∧ drop_last (protocol parsed) ∈ allowedSchemes config
  ∧ (allowedHosts config = []
     ∨ ∃ entry, entry ∈ allowedHosts config ∧ admits entry (hostname parsed))
  ∧ (blockPrivateIPs config = true → ¬ private_pattern (hostname parsed)).
Proof.
  unfold validateURL. destruct (new_URL urlString) as [message|url]; [done|].
  destruct (bool_decide (_ ∈ _)) eqn:Hscheme; [|done]. cbn [negb].
  destruct ((0 <? length (allowedHosts config))%nat && _) eqn:Hhost; [done|].
  destruct (blockPrivateIPs config && _) eqn:Hprivate; [done|].
  intros [= ->]. split; [done|]. split; [by apply bool_decide_eq_true in Hscheme|]. split.
  - destruct (allowedHosts config) as [|entry hosts] eqn:Hhosts; [by left | right].
    apply andb_false_iff in Hhost as [Hempty|Hsome]; [done|].
    apply negb_false_iff, existsb_exists in Hsome as (entry' & Hin & Hm).
    exists entry'. split; [by apply list_elem_of_In | by apply host_matches_iff].
  - intros Hblock Hpattern. apply isPrivateIP_iff in Hpattern.
    by rewrite Hblock, Hpattern in Hprivate.
Qed.

(** What [validateFilePath] returns is the resolved path of a regular file of
    an allowed extension and size, inside the base directory when one is
    configured. *)
Lemma validateFilePath_Ok (node : Platform) (config : SecurityConfig)
    (filePath resolvedPath : string) :
  validateFilePath node filePath config = Ok resolvedPath →
  resolvedPath = path_resolve node filePath
  ∧ toLowerCase (path_extname node resolvedPath) ∈ allowedExtensions config
  ∧ fs_existsSync node resolvedPath = true
  ∧ fs_isFile node resolvedPath = true
  ∧ fs_size node resolvedPath ≤ maxFileSize config
  ∧ (∀ base, baseDirectory config = Some base → base ≠ "" →
     resolvedPath = path_resolve node base
     ∨ ∃ rest, resolvedPath = path_resolve node base +:+ path_sep node +:+ rest).
Proof.
  unfold validateFilePath.
  destruct (bool_decide (_ ∈ _)) eqn:Hext; [|done]. cbn [negb].
  destruct (fs_existsSync node _) eqn:Hexists; [|done]. cbn [negb].
  destruct (fs_isFile node _) eqn:Hfile; [|done]. cbn [negb].
  destruct (maxFileSize config <? _) eqn:Hsize; [done|].
  apply bool_decide_eq_true in Hext. apply Z.ltb_ge in Hsize.
  intros Hreturned.
  assert (resolvedPath = path_resolve node filePath) as ->.
  { destruct (baseDirectory config) as [base|]; [|by injection Hreturned].
    destruct (bool_decide (base = "")); [by injection Hreturned|].
    destruct (_ && _); [done | by injection Hreturned]. }
  repeat split; try done.
  intros base Hbase Hnonempty. rewrite Hbase in Hreturned.
  rewrite bool_decide_eq_false_2 in Hreturned by done.
  destruct (starts_with _ _) eqn:Hinside.
  - right. apply starts_with_iff in Hinside as [rest Hrest]. exists rest.
    by rewrite Hrest, append_assoc.
  - left. cbn [negb andb] in Hreturned.
    destruct (bool_decide _) eqn:Hsame; [by apply bool_decide_eq_true in Hsame | done].
Qed.



(** X4.  What [loadSwagger] returns has been through [validateSwaggerSpec]:
    it is an object with a version field, a title, a version and at least
    one path. *)
Theorem loadSwagger_returns_validated (new_URL : string → string + URL)
    (node : Platform) (io : Loader) (runtime_message : exn → string)
    (source : string) (config : SecurityConfig) (spec : json) :
  (loadSwagger new_URL node io runtime_message source config).2 = Ok spec →
  (∃ warned, validateSwaggerSpec spec = Ok warned)
  ∧ typeof_object spec = true
  ∧ truthy (or_else (prop_opt spec "openapi") (prop_opt spec "swagger")) = true
  ∧ truthy (prop_opt (prop_opt spec "info") "title") = true
  ∧ truthy (prop_opt (prop_opt spec "info") "version") = true
  ∧ own_entries (prop_opt spec "paths") ≠ [].
Proof.
  intros Hloaded.
  assert (∃ warned, validateSwaggerSpec spec = Ok warned) as [warned Hvalid].
  { revert Hloaded. unfold loadSwagger. destruct (starts_with "http://" source || _).
    - destruct (validateURL _ _ _) as [parsed|]; [|done]. simpl.
      destruct (of_library _) as [data|]; [|done]. run.
      destruct (validateSwaggerSpec data) as [warned|] eqn:Hvalid; [|done].
      intros [= <-]. by exists warned.
    - destruct (validateFilePath _ _ _) as [resolved|]; [|done]. simpl.
      destruct (of_library (fs_readFileSync _ _)) as [file|]; [|done]. run.
      destruct (of_library _) as [data|]; [|done].
      destruct (validateSwaggerSpec data) as [warned|] eqn:Hvalid; [|done].
      intros [= <-]. by exists warned. }
  split; [by exists warned|].
  apply validateSwaggerSpec_Ok in Hvalid as (_ & ? & ? & ? & ? & _ & ?). by repeat split.
Qed.

Lemma loadSwagger_returns_validated_witness :
  own_entries (prop_opt (pets_document create_pet) "paths") ≠ [].
Proof.
  exact (proj2 (proj2 (proj2 (proj2 (proj2
           (loadSwagger_returns_validated plain_URL
              (posix "/srv/app" [("/srv/app/pets.json", 120)])
              (canned (pets_document create_pet)) runtime_text "pets.json"
              defaultSecurityConfig (pets_document create_pet) eq_refl)))))).
Defined.

Lemma validateURL_Error (new_URL : string → string + URL) (config : SecurityConfig)
    (urlString : string) (e : exn) :
  validateURL new_URL urlString config = Throw e → ∃ message, e = Error message.
Proof.
  unfold validateURL. destruct (new_URL urlString); [intros [= <-]; by eexists|].
  repeat (match goal with
          | |- (if ?c then _ else _) = _ → _ => destruct c; [intros [= <-]; by eexists|]
          end).
  done.
Qed.

Lemma validateFilePath_Error (node : Platform) (config : SecurityConfig)
    (filePath : string) (e : exn) :
  validateFilePath node filePath config = Throw e → ∃ message, e = Error message.
Proof.
  unfold validateFilePath.
  repeat (match goal with
          | |- (if ?c then _ else _) = _ → _ => destruct c; [intros [= <-]; by eexists|]
          end).
  destruct (baseDirectory config); [|done].
  destruct (bool_decide _); [done|].
  destruct (_ && _); [intros [= <-]; by eexists | done].
Qed.

Lemma validateSwaggerSpec_Error spec e :
  validateSwaggerSpec spec = Throw e → ∃ message, e = Error message.
Proof.
  unfold validateSwaggerSpec.
  destruct (truthy spec) eqn:Hspec; [|intros [= <-]; by eexists].
  destruct (typeof_object spec) eqn:Hobject; [|intros [= <-]; by eexists].
  cbn [negb orb]. rewrite !(prop_truthy spec) by done. run.
  assert (∃ version, (if truthy (prop_opt spec "openapi")
                      then Ok (prop_opt spec "openapi")
                      else Ok (prop_opt spec "swagger")) = Ok version) as [version ->].
  { destruct (truthy (prop_opt spec "openapi")); eexists; reflexivity. }
  destruct (truthy version); [|intros [= <-]; by eexists]. cbn [negb].
  destruct (truthy (prop_opt spec "info")) eqn:Hinfo; [|intros [= <-]; by eexists].
  cbn [negb]. rewrite !(prop_truthy (prop_opt spec "info")) by done.
  destruct (truthy (prop_opt _ "title")); [|intros [= <-]; by eexists]. cbn [negb].
  destruct (truthy (prop_opt _ "version")); [|intros [= <-]; by eexists]. cbn [negb].
  destruct (negb (truthy (prop_opt spec "paths")) || _); [intros [= <-]; by eexists|].
  destruct (bool_decide _); [intros [= <-]; by eexists|].
  by destruct (truthy (prop_opt spec "swagger")).
Qed.

Lemma of_library_Error {A} (outcome : string + A) e :
  of_library outcome = Throw e → ∃ message, e = Error message.
Proof. destruct outcome; [intros [= <-]; by eexists | done]. Qed.

(** X5.  A failure of [loadSwagger] is an [Error] whose message names the
    source: whatever failed, the gate, a library or the validation of the
    document, its message comes back behind
    [Failed to load Swagger spec from <source>: ].  Only a failure without
    a message is passed on as it is. *)
Theorem loadSwagger_failure_names_source (new_URL : string → string + URL)
    (node : Platform) (io : Loader) (runtime_message : exn → string)
    (source : string) (config : SecurityConfig) (e : exn) :
  (loadSwagger new_URL node io runtime_message source config).2 = Throw e →
  e = Error ""
  ∨ ∃ reason, reason ≠ "" ∧ e = Error (load_prefix source +:+ reason).
Proof.
  unfold loadSwagger.
  assert (∀ inner : exn, (∃ message, inner = Error message) →
            load_failure runtime_message source inner = e →
            e = Error "" ∨ ∃ reason, reason ≠ "" ∧ e = Error (load_prefix source +:+ reason))
    as Hcatch.
  { intros inner [message ->]. unfold load_failure. cbn [message_of].
    destruct (decide (message = "")) as [->|Hne].
    - rewrite bool_decide_eq_true_2 by done. intros <-. by left.
    - rewrite bool_decide_eq_false_2 by done. intros <-. right. exists message.
      split; [done|]. unfold load_prefix. by rewrite !append_assoc. }
  destruct (starts_with "http://" source || _).
  - destruct (validateURL _ _ _) as [parsed|inner] eqn:Hurl; simpl.
    + destruct (of_library _) as [data|inner] eqn:Hfetch; run.
      * destruct (validateSwaggerSpec data) as [warned|inner] eqn:Hvalid; [done|].
        intros [= He]. by eapply Hcatch, He; eapply validateSwaggerSpec_Error.
      * intros [= He]. by eapply Hcatch, He; eapply of_library_Error.
    + intros [= He]. by eapply Hcatch, He; eapply validateURL_Error.
  - destruct (validateFilePath _ _ _) as [resolved|inner] eqn:Hpath; simpl.
    + destruct (of_library (fs_readFileSync _ _)) as [file|inner] eqn:Hread; run.
      * destruct (of_library (if ends_with ".yaml" source || _ then _ else _))
          as [data|inner] eqn:Hparse.
        -- destruct (validateSwaggerSpec data) as [warned|inner] eqn:Hvalid; [done|].
           intros [= He]. by eapply Hcatch, He; eapply validateSwaggerSpec_Error.
        -- intros [= He]. by eapply Hcatch, He; eapply of_library_Error.
      * intros [= He]. by eapply Hcatch, He; eapply of_library_Error.
    + intros [= He]. by eapply Hcatch, He; eapply validateFilePath_Error.
Qed.

Lemma loadSwagger_failure_names_source_witness :
  ∃ reason,
    (loadSwagger plain_URL (posix "/srv/app" []) (canned (pets_document create_pet))
       runtime_text "http://api.example.com/spec.json" defaultSecurityConfig).2
    = Throw (Error (load_prefix "http://api.example.com/spec.json" +:+ reason)).
Proof.
  destruct (loadSwagger_failure_names_source plain_URL (posix "/srv/app" [])
              (canned (pets_document create_pet)) runtime_text
              "http://api.example.com/spec.json" defaultSecurityConfig _ eq_refl)
    as [Hempty | (reason & _ & Hreason)]; [discriminate Hempty|].
  exists reason. by rewrite <- Hreason.
Defined.

(** ** The handler of a tool *)

Section HandlerFacts.

Variable validate : json → bool.
Variable errorsText : json → string.
Variable axios : RequestConfig → Thrown + json.
Variable JSON_stringify : json → json.
Variable runtime_message : exn → string.

Abbreviation call := (handler validate errorsText axios JSON_stringify runtime_message).
Abbreviation failure := (handler_failure JSON_stringify).


(** X6.  The handler sends a request only for an input that its validator
    has accepted, and then exactly one: the request that
    [buildRequestConfig] builds from the input.  An input that the validator
    refuses reaches neither the network nor the operation, and its refusal
    comes back as
    [Request failed: Input validation failed: <the validator's errors>].
    When the client resolves, the handler returns the data of the response
    as it is. *)
Theorem handler_sends_only_valid (operation : json) (method route : string)
    (baseUrl input : json) :
  let run := call operation method route baseUrl input in
  (validate input = false →
   run = ([],
          Throw (Error ("Request failed: Input validation failed: " +:+ errorsText input)),
          operation))
  ∧ (∀ config, config ∈ run.1.1 →
     validate input = true ∧ run.1.1 = [config]
     ∧ buildRequestConfig input operation method route baseUrl = Ok (config, run.2))
  ∧ (∀ config data, config ∈ run.1.1 → axios config = inr data → run.1.2 = Ok data).
Proof.
  unfold handler. cbv zeta. split; [|split].
  - by intros ->.
  - intros config. destruct (validate input); cbn [negb]; [|by intros ?%elem_of_nil].
    destruct (buildRequestConfig _ _ _ _ _) as [[built after]|e];
      [|by intros ?%elem_of_nil].
    by intros ->%list_elem_of_singleton.
  - intros config data. destruct (validate input); cbn [negb]; [|by intros ?%elem_of_nil].
    destruct (buildRequestConfig _ _ _ _ _) as [[built after]|e];
      [|by intros ?%elem_of_nil].
    intros ->%list_elem_of_singleton. cbn [fst snd]. by intros ->.
Qed.


End HandlerFacts.

Lemma handler_sends_only_valid_witness :
  handler refuse_input validator_errors unanswered stringified runtime_text
    get_pet "get" "/pet/{petId}" (JStr "https://petstore.example.com/v1")
    (JObj [("petId", JStr "forty-two")])
  = ([], Throw (Error "Request failed: Input validation failed: data/petId must be integer"),
     get_pet).
Proof.
  exact (proj1 (handler_sends_only_valid refuse_input validator_errors unanswered stringified
                  runtime_text get_pet "get" "/pet/{petId}"
                  (JStr "https://petstore.example.com/v1")
                  (JObj [("petId", JStr "forty-two")])) eq_refl).
Defined.


(** ** The configuration of the command line *)

(** X8.  Whatever options the command line is given, the configuration it
    builds lets a URL through only over [https], or over [http] when
    [--allow-http] is set, and, unless [--allow-private-ips] is set, only
    when the host name matches no pattern of the table of private ranges;
    and it lets a file through only with one of the three extensions and
    within ten megabytes: no option widens the extensions or the size.  The
    table is a test of the text of the host name and not of the address
    behind it: without any option, [https://localhost/], [https://0.0.0.0/]
    and [https://[::1]/] are let through. *)
Theorem cli_securityConfig_bounds (argv : Argv) :
  (∀ new_URL urlString parsed,
     validateURL new_URL urlString (cli_securityConfig argv) = Ok parsed →
     (drop_last (protocol parsed) = "https"
      ∨ arg_allow_http argv = true ∧ drop_last (protocol parsed) = "http")
     ∧ (arg_allow_private_ips argv = false → isPrivateIP (hostname parsed) = false))
  ∧ (∀ node filePath resolvedPath,
       validateFilePath node filePath (cli_securityConfig argv) = Ok resolvedPath →
       toLowerCase (path_extname node resolvedPath) ∈ [".yaml"; ".yml"; ".json"]
       ∧ fs_size node resolvedPath ≤ 10 * 1024 * 1024)
  ∧ validateURL plain_URL "https://localhost/spec.json" (cli_securityConfig no_options)
    = Ok {| protocol := "https:"; hostname := "localhost";
            href := "https://localhost/spec.json" |}
  ∧ validateURL plain_URL "https://0.0.0.0/spec.json" (cli_securityConfig no_options)
    = Ok {| protocol := "https:"; hostname := "0.0.0.0";
            href := "https://0.0.0.0/spec.json" |}
  ∧ validateURL plain_URL "https://[::1]/spec.json" (cli_securityConfig no_options)
    = Ok {| protocol := "https:"; hostname := "[::1]";
            href := "https://[::1]/spec.json" |}.
Proof.
  split; [|split; [|repeat split; reflexivity]].
  - intros new_URL urlString parsed (_ & Hscheme & _ & Hprivate)%validateURL_Ok. split.
    + revert Hscheme. unfold cli_securityConfig. cbn [allowedSchemes].
      destruct (arg_allow_http argv).
      * intros [->|[->|?%elem_of_nil]%elem_of_cons]%elem_of_cons; [right | left |]; done.
      * intros ->%list_elem_of_singleton. by left.
    + intros Hflag. apply not_true_is_false. rewrite isPrivateIP_iff. apply Hprivate.
      unfold cli_securityConfig. cbn [blockPrivateIPs]. by rewrite Hflag.
  - intros node filePath resolvedPath (_ & Hext & _ & _ & Hsize & _)%validateFilePath_Ok.
    done.
Qed.

Lemma cli_securityConfig_bounds_witness :
  ((drop_last "http:" = "https" ∨ true = true ∧ drop_last "http:" = "http")
   ∧ (false = false → isPrivateIP "api.example.com" = false))
  ∧ toLowerCase (posix_extname "/srv/app/specs/api.YAML") ∈ [".yaml"; ".yml"; ".json"]
  ∧ 120 ≤ 10 * 1024 * 1024.
Proof.
  split.
  - exact (proj1 (cli_securityConfig_bounds
                    {| arg_allow_http := true; arg_allowed_hosts := Some "*.example.com";
                       arg_base_directory := None; arg_allow_private_ips := false |})
             plain_URL "http://api.example.com/spec.json"
             {| protocol := "http:"; hostname := "api.example.com";
                href := "http://api.example.com/spec.json" |} eq_refl).
  - exact (proj1 (proj2 (cli_securityConfig_bounds
                           {| arg_allow_http := false; arg_allowed_hosts := None;
                              arg_base_directory := Some "specs";
                              arg_allow_private_ips := true |}))
             (posix "/srv/app" [("/srv/app/specs/api.YAML", 120)]) "specs/api.YAML"
             "/srv/app/specs/api.YAML" eq_refl).
Defined.

(** ** The compile run *)

Section CompileRun.

Variable ajv_compile : json → bool.
Variable registerTool : list string → string → bool.
Variable stack : nat.

Abbreviation turn := (compile_operation ajv_compile registerTool stack).
Abbreviation loop := (compile_routes ajv_compile registerTool stack).
Abbreviation compile := (createMCPFromSwagger ajv_compile registerTool stack).

(** A turn of the inner loop leaves the two tables as they are, or adds to
    each of them one entry for the operation of the turn. *)
Lemma compile_operation_adds route st entry :
  let st' := turn route st entry in
  (server_tools st' = server_tools st ∧ manifest_tools st' = manifest_tools st)
  ∨ (is_verb entry = true
     ∧ ∃ tool listed,
         server_tools st' = server_tools st ++ [tool]
         ∧ manifest_tools st' = manifest_tools st ++ [listed]
         ∧ describes listed tool
         ∧ manifest_operation listed = (route, toUpperCase entry.1)).
Proof.
  destruct entry as [method operation]. unfold is_verb, compile_operation. cbn [fst].
  destruct (bool_decide _); cbn [negb]; [|by left].
  destruct (_ ≫= _) as [[toolName operationId]|e]; [|by left].
  unfold register_named.
  destruct (buildInputSchema operation) as [[inputSchema operation']|e]; [|by left].
  destruct (_ ≫= _) as [[[resolved output] description]|e]; [|by left].
  destruct (negb (ajv_compile _)); [by left|].
  destruct (negb (registerTool _ _)); [by left|].
  right. split; [done|]. by eexists _, _.
Qed.

Lemma inner_loop_adds route operations st :
  let st' := fold_left (turn route) operations st in
  ∃ tools listed,
    server_tools st' = server_tools st ++ tools
    ∧ manifest_tools st' = manifest_tools st ++ listed
    ∧ Forall2 describes listed tools
    ∧ manifest_operation <$> listed
      `sublist_of` (λ operation, (route, toUpperCase operation.1))
                     <$> filter (λ entry, is_verb entry) operations.
Proof.
  revert st. induction operations as [|entry operations IH]; intros st; cbn [fold_left].
  - exists [], []. rewrite !app_nil_r. by repeat split.
  - cbv zeta in IH. destruct (IH (turn route st entry)) as (tools & listed & Ht & Hm & Hd & Hs).
    rewrite Ht, Hm. rewrite filter_cons.
    destruct (compile_operation_adds route st entry)
      as [[-> ->] | (Hverb & tool & one & -> & -> & Hone & Hop)].
    + exists tools, listed. repeat split; try done.
      destruct (decide _); [|done]. rewrite fmap_cons. by apply sublist_cons.
    + exists (tool :: tools), (one :: listed). rewrite <- !app_assoc.
      repeat split; try done; [by constructor|].
      rewrite decide_True by (by rewrite Hverb). rewrite !fmap_cons, Hop.
      by apply sublist_skip.
Qed.

Lemma outer_loop_adds routes st st' :
  loop routes st = (st', Ok ()) →
  ∃ tools listed,
    server_tools st' = server_tools st ++ tools
    ∧ manifest_tools st' = manifest_tools st ++ listed
    ∧ Forall2 describes listed tools
    ∧ manifest_operation <$> listed `sublist_of` declared_operations routes.
Proof.
  revert st. induction routes as [|[route methods] routes IH]; intros st; cbn [compile_routes].
  - intros [= <-]. exists [], []. rewrite !app_nil_r. by repeat split.
  - destruct (entries methods) as [operations|] eqn:Hentries; [|done].
    apply entries_Ok in Hentries.
    intros (tools & listed & Ht & Hm & Hd & Hs)%IH.
    destruct (inner_loop_adds route operations st) as (tools0 & listed0 & Ht0 & Hm0 & Hd0 & Hs0).
    cbv zeta in Ht0, Hm0. rewrite Ht0 in Ht. rewrite Hm0 in Hm.
    exists (tools0 ++ tools), (listed0 ++ listed). rewrite !app_assoc.
    repeat split; try done; [by apply Forall2_app|].
    unfold declared_operations. cbn [flat_map fst snd]. rewrite fmap_app.
    apply sublist_app; [|done]. unfold operations_under. by rewrite Hentries.
Qed.

(** X9.  A manifest is written only by a run whose port lies between 1 and
    65535 and whose document gives a base URL; the server it advertises is
    [http://localhost:<port>]. *)
Theorem manifest_requires_port_and_base_url (document : json) (options : Options)
    (manifest : Manifest) :
  written (compile document options) = Some manifest →
  1 ≤ port options ≤ 65535
  ∧ (∃ baseUrl, getBaseUrl document = Ok baseUrl ∧ truthy baseUrl = true)
  ∧ m_server_url manifest = "http://localhost:" +:+ dec_of_Z (port options).
Proof.
  unfold createMCPFromSwagger, validatePort.
  destruct (port options <? 1) eqn:Hlow; [done|].
  destruct (65535 <? port options) eqn:Hhigh; [done|]. cbn [orb]. run.
  destruct (getBaseUrl document) as [baseUrl|]; [|done].
  destruct (truthy baseUrl) eqn:Hbase; [|done]. cbn [negb].
  destruct (prop document "paths") as [declared|]; [|done].
  destruct (entries _) as [routes|]; [|done].
  destruct (loop routes _) as [st [[]|]]; [|done].
  intros [= <-]. split; [lia|]. split; [by exists baseUrl | done].
Qed.

(** X10.  The manifest lists nothing but operations of the document, in the
    order of the document: the pairs of path and method of its entries are a
    sublist of the routes of [paths] with the HTTP verbs declared under
    them.  A key that is no verb ([parameters], [summary], [$ref]) yields
    no entry. *)
Theorem manifest_lists_declared_operations (document : json) (options : Options)
    (manifest : Manifest) :
  written (compile document options) = Some manifest →
  manifest_operation <$> m_tools manifest
  `sublist_of` declared_operations
                 (own_entries (or_else (prop_opt document "paths") (JObj []))).
Proof.
  unfold createMCPFromSwagger.
  destruct (validatePort (port options)) as [[validatedPort warnings]|]; [|done]. run.
  destruct (getBaseUrl document) as [baseUrl|]; [|done].
  destruct (negb (truthy baseUrl)); [done|].
  destruct (prop document "paths") as [declared|] eqn:Hpaths; [|done].
  rewrite (prop_opt_Ok _ _ _ Hpaths).
  destruct (entries (or_else declared (JObj []))) as [routes|] eqn:Hroutes; [|done].
  apply entries_Ok in Hroutes as ->.
  destruct (loop routes (initial document)) as [st [[]|]] eqn:Hloop; [|done].
  intros [= <-]. cbn [m_tools].
  apply outer_loop_adds in Hloop as (tools & listed & _ & -> & _ & Hs). done.
Qed.

(** X11.  The server that a run returns holds the tools of the manifest:
    as many, in the same order, each under the name, the path and the method
    of its entry. *)
Theorem server_mirrors_manifest (document : json) (options : Options)
    (manifest : Manifest) (tools : list Tool) :
  written (compile document options) = Some manifest →
  returned (compile document options) = Ok (Some tools) →
  Forall2 describes (m_tools manifest) tools.
Proof.
  unfold createMCPFromSwagger.
  destruct (validatePort (port options)) as [[validatedPort warnings]|]; [|done].
  destruct (_ ≫= _) as [routes|]; [|done].
  destruct (loop routes (initial document)) as [st [[]|]] eqn:Hloop; [|done].
  intros [= <-]. cbn [returned m_tools].
  destruct (manifestOnly options); [done|]. destruct (bool_decide _); [done|].
  intros [= <-].
  apply outer_loop_adds in Hloop as (tools & listed & -> & -> & Hd & _). done.
Qed.

(** X12.  A route whose value is [null] ends the run: the entries of a path
    item are taken outside the [try] of the loop, so that the run throws a
    [TypeError] and writes no manifest, whatever else the document
    declares and in manifest-only mode too. *)
Theorem null_path_item_aborts (document : json) (options : Options)
    (baseUrl : json) (routes : list (string * json)) (route : string) :
  1 ≤ port options ≤ 65535 →
  getBaseUrl document = Ok baseUrl → truthy baseUrl = true →
  prop document "paths" = Ok (JObj routes) →
  (route, JNull) ∈ routes →
  returned (compile document options) = Throw TypeError
  ∧ written (compile document options) = None.
Proof.
  intros Hport Hbase Htruthy Hpaths Hnull.
  assert (∀ st, ∃ st', loop routes st = (st', Throw TypeError)) as Hloop.
  { clear Hpaths. induction routes as [|[route' methods] routes IH]; intros st;
      [by apply elem_of_nil in Hnull|].
    cbn [compile_routes]. destruct (entries methods) as [operations|e] eqn:Hentries.
    - apply elem_of_cons in Hnull as [[= <- <-]|Hnull]; [done|]. by apply IH.
    - exists st. destruct methods; try done; by injection Hentries as <-. }
  unfold createMCPFromSwagger, validatePort.
  rewrite (proj2 (Z.ltb_ge _ _)), (proj2 (Z.ltb_ge _ _)) by lia. cbn [orb]. run.
  rewrite Hbase, Htruthy, Hpaths. cbn [negb or_else truthy entries own_entries].
  destruct (Hloop (initial document)) as [st' ->]. done.
Qed.

End CompileRun.

Lemma manifest_requires_port_and_base_url_witness :
  ∃ manifest,
    written (createMCPFromSwagger accept_all host_accepts 64 (pets_document create_pet)
               {| manifestOnly := true; port := 4000 |}) = Some manifest
    ∧ m_server_url manifest = "http://localhost:4000".
Proof.
  eexists. split; [reflexivity|].
  exact (proj2 (proj2 (manifest_requires_port_and_base_url accept_all host_accepts 64
                         (pets_document create_pet)
                         {| manifestOnly := true; port := 4000 |} _ eq_refl))).
Defined.

Lemma manifest_lists_declared_operations_witness :
  [("/nodes", "GET")] `sublist_of` [("/nodes", "GET"); ("/nodes", "POST")].
Proof.
  exact (manifest_lists_declared_operations accept_all host_accepts 64 partly_registrable
           {| manifestOnly := false; port := 4000 |} _ eq_refl).
Defined.

Lemma server_mirrors_manifest_witness :
  ∃ manifest tools,
    written (createMCPFromSwagger accept_all host_accepts 64 partly_registrable
               {| manifestOnly := false; port := 4000 |}) = Some manifest
    ∧ t_name <$> tools = ["GET /nodes"]
    ∧ Forall2 describes (m_tools manifest) tools.
Proof.
  eexists _, _. split; [reflexivity|]. split; [|
  exact (server_mirrors_manifest accept_all host_accepts 64 partly_registrable
           {| manifestOnly := false; port := 4000 |} _ _ eq_refl eq_refl)].
  reflexivity.
Defined.

Lemma null_path_item_aborts_witness :
  returned (createMCPFromSwagger accept_all host_accepts 64 dangling_route
              {| manifestOnly := true; port := 4000 |}) = Throw TypeError
  ∧ written (createMCPFromSwagger accept_all host_accepts 64 dangling_route
               {| manifestOnly := true; port := 4000 |}) = None.
Proof.
  refine (null_path_item_aborts accept_all host_accepts 64 dangling_route
            {| manifestOnly := true; port := 4000 |} _ _ "/orders" _ eq_refl eq_refl eq_refl _).
  - simpl. lia.
  - apply list_elem_of_further, list_elem_of_here.
Defined.

(** ** Sanitized names *)

Lemma all_chars_rev_app test s t :
  all_chars test (String.rev_app s t) = all_chars test s && all_chars test t.
Proof.
  revert t. induction s as [|a s IH]; intros t; [done|].
  cbn [String.rev_app all_chars]. rewrite IH. cbn [all_chars].
  by destruct (test a), (all_chars test s).
Qed.

Lemma all_chars_rev test s : all_chars test (String.rev s) = all_chars test s.
Proof. unfold String.rev. rewrite all_chars_rev_app. simpl. apply andb_true_r. Qed.

Lemma all_chars_trim_start test s :
  all_chars test s = true → all_chars test (trim_start s) = true.
Proof.
  induction s as [|a s IH]; [done|]. cbn [trim_start].
  destruct (Ascii.is_space a); [|done]. by intros [_ ?]%andb_true_iff; apply IH.
Qed.

Lemma all_chars_take test n s :
  all_chars test s = true → all_chars test (take_str n s) = true.
Proof.
  revert s. induction n as [|n IH]; intros [|a s]; try done.
  cbn [take_str all_chars]. intros [-> ?]%andb_true_iff. by apply IH.
Qed.

Lemma all_chars_filter test s : all_chars test (filter_str test s) = true.
Proof.
  induction s as [|a s IH]; [done|]. cbn [filter_str].
  destruct (test a) eqn:Ha; [|done]. cbn [all_chars]. by rewrite Ha.
Qed.

Lemma length_take_str n s : String.length (take_str n s) = (n `min` String.length s)%nat.
Proof.
  revert s. induction n as [|n IH]; intros [|a s]; try done.
  cbn [take_str String.length]. by rewrite IH.
Qed.

Lemma trim_start_blank s :
  trim_start s = "" ↔ all_chars Ascii.is_space s = true.
Proof.
  induction s as [|a s IH]; [done|]. cbn [trim_start all_chars].
  destruct (Ascii.is_space a); [done|]. split; discriminate.
Qed.

Lemma length_rev_app s t :
  String.length (String.rev_app s t) = (String.length s + String.length t)%nat.
Proof.
  revert t. induction s as [|a s IH]; intros t; [done|].
  cbn [String.rev_app]. rewrite IH. simpl. lia.
Qed.

Lemma rev_empty s : String.rev s = "" ↔ s = "".
Proof.
  split; [|by intros ->]. intros Hrev. apply (f_equal String.length) in Hrev.
  unfold String.rev in Hrev. rewrite length_rev_app in Hrev. destruct s; [done|].
  simpl in Hrev. lia.
Qed.

Lemma trim_blank s : trim s = "" ↔ all_chars Ascii.is_space s = true.
Proof.
  unfold trim. rewrite rev_empty, trim_start_blank, all_chars_rev. split.
  - intros Hall. destruct (all_chars Ascii.is_space s) eqn:Hs; [done|].
    assert (all_chars Ascii.is_space (trim_start s) = false) as Hkept; [|by rewrite Hkept in Hall].
    clear Hall. induction s as [|a s IH]; [done|]. cbn [trim_start all_chars] in *.
    destruct (Ascii.is_space a) eqn:Ha; [by apply IH|]. cbn [all_chars]. by rewrite Ha.
  - by apply all_chars_trim_start.
Qed.

Lemma take_str_empty n s : take_str (S n) s = "" ↔ s = "".
Proof. by destruct s. Qed.

Lemma blank_space a : is_control a || Ascii.is_space a = blank a.
Proof. by destruct a as [[] [] [] [] [] [] [] []]. Qed.

Lemma all_chars_kept s :
  all_chars Ascii.is_space (filter_str (λ a, negb (is_control a)) s) = all_chars blank s.
Proof.
  induction s as [|a s IH]; [done|]. cbn [filter_str all_chars].
  rewrite <- blank_space. destruct (is_control a); cbn [negb orb all_chars]; by rewrite IH.
Qed.

(** X13.  A name that [sanitizeToolName] returns has between 1 and 200
    characters, none of which is a control character. *)
Theorem sanitizeToolName_bounds (name sanitized : string) :
  sanitizeToolName name = Ok sanitized →
  (1 ≤ String.length sanitized ≤ 200)%nat
  ∧ all_chars (λ a, negb (is_control a)) sanitized = true.
Proof.
  unfold sanitizeToolName. destruct (bool_decide (name = "")); [done|].
  set (trimmed := trim _).
  pose proof (length_take_str 200 trimmed) as Hmin.
  assert (all_chars (λ a, negb (is_control a)) (take_str 200 trimmed) = true) as Hall.
  { apply all_chars_take. unfold trimmed, trim. rewrite all_chars_rev.
    apply all_chars_trim_start. rewrite all_chars_rev.
    apply all_chars_trim_start, all_chars_filter. }
  set (kept := take_str 200 trimmed) in *. clearbody kept.
  destruct (String.length kept =? 0)%nat eqn:Hlen; [done|]. intros [= <-].
  apply Nat.eqb_neq in Hlen. split; [lia | done].
Qed.

Lemma sanitizeToolName_bounds_witness :
  (1 ≤ String.length "GET /pets" ≤ 200)%nat
  ∧ all_chars (λ a, negb (is_control a)) "GET /pets" = true.
Proof.
  exact (sanitizeToolName_bounds (String "009" "GET /pets  ") "GET /pets" eq_refl).
Defined.

(** X14.  [sanitizeToolName] throws for every name that consists of control
    characters and spaces only, the empty name among them; and a name of
    ASCII characters for which it throws is such a name. *)
Theorem sanitizeToolName_refuses_blank (name : string) :
  (all_chars blank name = true → throws (sanitizeToolName name))
  ∧ (all_chars seven_bit name = true → throws (sanitizeToolName name) →
     all_chars blank name = true).
Proof.
  unfold sanitizeToolName. destruct (decide (name = "")) as [->|Hname].
  - split; [intros _; thrown | done].
  - rewrite bool_decide_eq_false_2 by done.
    set (kept := filter_str _ name).
    assert (take_str 200 (trim kept) = "" ↔ all_chars blank name = true) as Hempty.
    { rewrite take_str_empty, trim_blank. unfold kept. by rewrite all_chars_kept. }
    destruct (take_str 200 (trim kept)) as [|a rest] eqn:Htaken; simpl.
    + split; [intros _; thrown | intros _ _; by apply Hempty].
    + split; [intros Hblank; by apply Hempty in Hblank | by intros _ [e [=]]].
Qed.

Lemma sanitizeToolName_refuses_blank_witness :
  throws (sanitizeToolName (String "009" "  "))
  ∧ all_chars blank (String "009" "  ") = true.
Proof.
  split.
  - exact (proj1 (sanitizeToolName_refuses_blank (String "009" "  ")) eq_refl).
  - refine (proj2 (sanitizeToolName_refuses_blank (String "009" "  ")) eq_refl _). thrown.
Defined.

(** ** The base URL *)

(** X15.  A document that has neither a server (no [servers], or an empty
    list) nor a [host] is refused before anything is compiled: the run
    throws the base-URL error, writes no manifest, reports no failure of an
    operation and leaves the document as it is.  By then [validatePort] has
    run: for a port below 1024 its warning has been written. *)
Theorem document_without_base_url_is_refused (ajv_compile : json → bool)
    (registerTool : list string → string → bool) (stack : nat)
    (document : obj) (options : Options) :
  1 ≤ port options ≤ 65535 →
  lookup_key "servers" document = JUndefined ∨ lookup_key "servers" document = JArr [] →
  truthy (lookup_key "host" document) = false →
  createMCPFromSwagger ajv_compile registerTool stack (JObj document) options
  = {| returned := Throw (Error "Could not determine base URL from Swagger spec");
       written := None; swagger_after := JObj document; printed := [];
       warned := if port options <? 1024 then [privileged_port_warning (port options)]
                 else [] |}.
Proof.
  intros Hport Hservers Hhost. unfold createMCPFromSwagger, validatePort.
  rewrite (proj2 (Z.ltb_ge _ _)), (proj2 (Z.ltb_ge _ _)) by lia. cbn [orb]. run.
  unfold getBaseUrl. cbn [prop]. run.
  destruct Hservers as [-> | ->]; cbn; rewrite Hhost; done.
Qed.

Lemma document_without_base_url_is_refused_witness :
  createMCPFromSwagger accept_all host_accepts 64
    (JObj [("swagger", JStr "2.0"); ("servers", JArr []);
           ("paths", JObj [("/pets", JObj [("get", JObj [])])])])
    {| manifestOnly := true; port := 80 |}
  = {| returned := Throw (Error "Could not determine base URL from Swagger spec");
       written := None;
       swagger_after := JObj [("swagger", JStr "2.0"); ("servers", JArr []);
                              ("paths", JObj [("/pets", JObj [("get", JObj [])])])];
       printed := [];
       warned := ["⚠️  Warning: Port 80 is a privileged port (requires elevated permissions)"] |}.
Proof.
  refine (document_without_base_url_is_refused accept_all host_accepts 64
            [("swagger", JStr "2.0"); ("servers", JArr []);
             ("paths", JObj [("/pets", JObj [("get", JObj [])])])]
            {| manifestOnly := true; port := 80 |} _ _ _).
  - simpl. lia.
  - by right.
  - reflexivity.
Defined.

(** ** Output schemas *)

Lemma first_success_step responses code codes :
  truthy responses = true →
  first_success responses (code :: codes)
  = if truthy (json_media (prop_opt responses code))
    then Ok (Some (tagged_schema responses code))
    else first_success responses codes.
Proof.
  intros Hresponses. cbn [first_success]. rewrite (prop_truthy responses) by done. run.
  unfold tagged_schema, json_media. set (response := prop_opt responses code).
  destruct (truthy response) eqn:Hresponse; [|cbn [truthy andb]; by rewrite Hresponse].
  rewrite (prop_truthy response) by done. cbv zeta. set (content := prop_opt response "content").
  destruct (truthy content) eqn:Hcontent; [|by rewrite Hcontent].
  rewrite (prop_truthy content) by done. cbn [andb].
  set (media := prop_opt content "application/json").
  destruct (truthy media) eqn:Hmedia; [|done].
  by rewrite (prop_truthy media) by done.
Qed.

Lemma first_success_Ok responses codes :
  truthy responses = true → ∃ found, first_success responses codes = Ok found.
Proof.
  intros Hresponses. induction codes as [|code codes IH]; [by eexists|].
  rewrite first_success_step by done. destruct (truthy (json_media _)); [eexists; reflexivity | done].
Qed.

(** X16.  [extractOutputSchema] returns for every operation that is neither
    [null] nor [undefined], whatever its [responses] hold: it reads a
    property only of what it has found to be there. *)
Theorem extractOutputSchema_returns (operation : json) :
  nullish operation = false → ∃ schema, extractOutputSchema operation = Ok schema.
Proof.
  intros Hoperation. unfold extractOutputSchema.
  assert (∃ responses, prop operation "responses" = Ok responses) as [responses ->].
  { destruct operation; try done; simpl; try by eexists.
    all: destruct (bool_decide _); [by eexists|]; destruct (index_of_key _); by eexists. }
  run. destruct (truthy responses) eqn:Hresponses; cbn [negb]; [|by eexists].
  destruct (first_success_Ok responses successCodes Hresponses) as [[schema|] ->];
    [by eexists|].
  rewrite (prop_truthy responses) by done.
  destruct (truthy (prop_opt responses "default")) eqn:Hdefault; [|by eexists].
  rewrite (prop_truthy (prop_opt responses "default")) by done.
  destruct (truthy (prop_opt _ "content")) eqn:Hcontent; [|by eexists]. cbn [andb].
  rewrite (prop_truthy (prop_opt _ "content")) by done.
  destruct (truthy (prop_opt _ "application/json")) eqn:Hmedia; [|by eexists].
  rewrite (prop_truthy (prop_opt _ "application/json")) by done. cbn [andb].
  destruct (truthy (prop_opt _ "schema")); eexists; reflexivity.
Qed.

Lemma extractOutputSchema_returns_witness :
  ∃ schema, extractOutputSchema (JObj [("responses", JStr "none")]) = Ok schema.
Proof.
  exact (extractOutputSchema_returns (JObj [("responses", JStr "none")]) eq_refl).
Defined.

(** X17.  Of the codes 200, 201, 204 and 206, [extractOutputSchema] takes
    the first whose response has a JSON content: what it returns is the
    schema of that content, an empty schema if the content has none, with
    the code under [x-response-code].  A response without a JSON content is
    passed over, whatever its place in the document. *)
Theorem extractOutputSchema_prefers_first (operation responses : json)
    (earlier later : list string) (code : string) :
  prop operation "responses" = Ok responses → truthy responses = true →
  successCodes = earlier ++ code :: later →
  Forall (λ other, truthy (json_media (prop_opt responses other)) = false) earlier →
  truthy (json_media (prop_opt responses code)) = true →
  extractOutputSchema operation = Ok (tagged_schema responses code)
  ∧ prop (tagged_schema responses code) "x-response-code" = Ok (JStr code).
Proof.
  intros Hread Hresponses Hcodes Hearlier Hcode. split.
  - unfold extractOutputSchema. rewrite Hread, Hcodes. run. rewrite Hresponses. cbn [negb].
    assert (first_success responses (earlier ++ code :: later)
            = Ok (Some (tagged_schema responses code))) as ->; [|done].
    clear Hcodes. induction Hearlier as [|other earlier Hother _ IH]; cbn [app].
    + rewrite first_success_step by done. by rewrite Hcode.
    + rewrite first_success_step by done. by rewrite Hother.
  - unfold tagged_schema. cbn [prop]. by rewrite lookup_key_assign_eq.
Qed.

Lemma extractOutputSchema_prefers_first_witness :
  extractOutputSchema create_order
  = Ok (JObj [("type", JStr "object"); ("x-response-code", JStr "201")]).
Proof.
  refine (proj1 (extractOutputSchema_prefers_first create_order
                   (prop_opt create_order "responses") ["200"] ["204"; "206"] "201"
                   eq_refl eq_refl eq_refl _ eq_refl)).
  repeat constructor.
Defined.

(** ** Error schemas *)

Lemma prop_nullish v k : nullish v = false → prop v k = Ok (prop_opt v k).
Proof.
  intros Hv. assert (∃ y, prop v k = Ok y) as [y Hy]; [|by rewrite (prop_opt_Ok _ _ _ Hy)].
  destruct v; try done; simpl; repeat case_match; by eexists.
Qed.

Lemma prop_of_nullish v k : nullish v = true → prop v k = Throw TypeError.
Proof. by destruct v. Qed.

(** One turn of the loop over the responses: the entry of a response that
    is there. *)
Lemma error_entry_Ok errors code response :
  nullish response = false →
  ∃ schema,
    error_entry errors (code, response)
    = Ok (if error_code code then assign code schema errors else errors).
Proof.
  intros Hresponse. unfold error_entry, error_code.
  destruct (starts_with "4" code || starts_with "5" code) eqn:Hcode; [|by eexists].
  assert (∀ schema, put code schema errors = assign code schema errors) as Hput.
  { intros schema. apply put_ordinary. intros ->. discriminate Hcode. }
  rewrite !(prop_nullish response) by done. run.
  destruct (truthy (prop_opt response "content")) eqn:Hcontent;
    [|rewrite Hput; by eexists].
  rewrite (prop_truthy (prop_opt response "content")) by done. cbn [andb].
  destruct (truthy (prop_opt _ "application/json")) eqn:Hmedia; [|rewrite Hput; by eexists].
  rewrite (prop_truthy (prop_opt _ "application/json")) by done. rewrite Hput. by eexists.
Qed.

Lemma error_entry_nullish errors code response :
  nullish response = true →
  error_entry errors (code, response)
  = if error_code code then Throw TypeError else Ok errors.
Proof.
  intros Hresponse. unfold error_entry, error_code.
  destruct (starts_with "4" code || starts_with "5" code); [|done].
  rewrite !(prop_of_nullish response) by done. reflexivity.
Qed.

Lemma error_entries (responses : obj) errors :
  (∃ code response,
     (code, response) ∈ responses ∧ error_code code = true ∧ nullish response = true)
  ∧ foldM error_entry responses errors = Throw TypeError
  ∨ (∀ code response,
       (code, response) ∈ responses → error_code code = true → nullish response = false)
    ∧ ∃ errors',
        foldM error_entry responses errors = Ok errors'
        ∧ ∀ code, code ∈ keys errors'
                  ↔ code ∈ keys errors ∨ code ∈ keys responses ∧ error_code code = true.
Proof.
  revert errors. induction responses as [|[code response] responses IH]; intros errors.
  - right. split; [by intros ? ? ?%elem_of_nil|]. exists errors. split; [done|].
    intros code. change (keys ([] : obj)) with (@nil string). rewrite elem_of_nil. tauto.
  - cbn [foldM]. destruct (nullish response) eqn:Hresponse.
    + rewrite error_entry_nullish by done. destruct (error_code code) eqn:Hcode.
      * left. split; [|done]. exists code, response. split; [apply list_elem_of_here | done].
      * run. destruct (IH errors) as [[(c & r & Hin & Hc & Hr) Hthrows] | [Hnone (errors' & Hfold & Hkeys)]].
        -- left. split; [|done]. exists c, r. split; [by apply list_elem_of_further | done].
        -- right. split.
           ++ intros c r [[= -> ->]|Hin]%elem_of_cons Hc; [congruence | by eapply Hnone].
           ++ exists errors'. split; [done|]. intros c. rewrite Hkeys.
              change (keys ((code, response) :: responses)) with (code :: keys responses).
              rewrite elem_of_cons.
              split; [tauto|]. intros [?|[[->|?] Hc]]; [tauto | congruence | tauto].
    + destruct (error_entry_Ok errors code response Hresponse) as [schema ->]. run.
      set (errors1 := if error_code code then _ else _).
      destruct (IH errors1) as [[(c & r & Hin & Hc & Hr) Hthrows] | [Hnone (errors' & Hfold & Hkeys)]].
      * left. split; [|done]. exists c, r. split; [by apply list_elem_of_further | done].
      * right. split.
        -- intros c r [[= -> ->]|Hin]%elem_of_cons Hc; [done | by eapply Hnone].
        -- exists errors'. split; [done|]. intros c. rewrite Hkeys.
           change (keys ((code, response) :: responses)) with (code :: keys responses).
           rewrite elem_of_cons.
           unfold errors1. destruct (error_code code) eqn:Hcode.
           ++ rewrite elem_of_keys_assign. split; [|tauto].
              intros [[->|?]|?]; tauto.
           ++ split; [tauto|]. intros [?|[[->|?] Hc]]; [tauto | congruence | tauto].
Qed.

(** X18.  [extractErrorSchemas] gives a schema to each response whose code
    begins with [4] or [5], and to no other: the keys of what it returns are
    those codes.  It throws exactly when one of these responses is [null],
    and then a [TypeError]. *)
Theorem extractErrorSchemas_keys (operation : json) (responses : obj) :
  prop operation "responses" = Ok (JObj responses) →
  (throws (extractErrorSchemas operation)
   ↔ ∃ code response,
       (code, response) ∈ responses ∧ error_code code = true ∧ nullish response = true)
  ∧ (∀ errors,
       extractErrorSchemas operation = Ok errors →
       ∀ code, code ∈ keys (own_entries errors)
               ↔ code ∈ keys responses ∧ error_code code = true).
Proof.
  intros Hread. unfold extractErrorSchemas. rewrite Hread. run. cbn [truthy negb entries own_entries].
  destruct (error_entries responses [])
    as [[Hnull ->] | [Hnone (errors' & -> & Hkeys)]].
  - split; [split; [done | intros _; thrown] | done].
  - split.
    + split; [by intros [e [=]]|]. intros (code & response & Hin & Hcode & Hnullish).
      by rewrite (Hnone code response Hin Hcode) in Hnullish.
    + intros errors [= <-] code. cbn [own_entries]. rewrite Hkeys.
      change (keys ([] : obj)) with (@nil string). rewrite elem_of_nil. tauto.
Qed.

Lemma extractErrorSchemas_keys_witness :
  "404" ∈ keys (own_entries
                  (JObj [("404", JObj [("type", JStr "object");
                                       ("description", JStr "No such customer")])]))
  ↔ "404" ∈ keys (own_entries (prop_opt create_order "responses")) ∧ error_code "404" = true.
Proof.
  exact (proj2 (extractErrorSchemas_keys create_order _ eq_refl) _ eq_refl "404").
Defined.

(** ** Tool descriptions *)

Lemma join_values_cons sep x l :
  join_values sep (x :: l)
  = (if nullish x then "" else to_str x)
    +:+ match l with [] => "" | _ => sep +:+ join_values sep l end.
Proof.
  unfold join_values. cbn [map]. destruct l as [|y l].
  - cbn [map join]. rewrite append_nil_r. by destruct x.
  - cbn [map join]. by destruct x.
Qed.

(** X19.  A tool description opens with the summary of the operation, or
    with its operation identifier when it has no summary, or with the method
    in upper case and the route when it has neither; what follows, if
    anything, is set off by a full stop and a space. *)
Theorem buildToolDescription_opens_with_lead (operation : json) (method route : string)
    (description : string) (after : json) :
  buildToolDescription operation method route = Ok (description, after) →
  description = lead operation method route
  ∨ ∃ rest, description = lead operation method route +:+ ". " +:+ rest.
Proof.
  unfold buildToolDescription.
  intros (summary & Hsummary & Hrest)%bind_Ok_inv.
  apply bind_Ok_inv in Hrest as (operationId & HoperationId & Hrest).
  apply bind_Ok_inv in Hrest as (declared & _ & Hrest).
  apply bind_Ok_inv in Hrest as (ex & _ & Hrest).
  apply bind_Ok_inv in Hrest as (tags & _ & Hrest).
  apply bind_Ok_inv in Hrest as (count & _ & Hrest).
  apply bind_Ok_inv in Hrest as (parts & Hparts & [= <- _]).
  assert (∃ first others,
            parts = first :: others
            ∧ (if nullish first then "" else to_str first) = lead operation method route)
    as (first & others & -> & Hfirst).
  { unfold lead. rewrite (prop_opt_Ok _ _ _ Hsummary), (prop_opt_Ok _ _ _ HoperationId).
    set (opening := if truthy summary then [summary]
                    else if truthy operationId then [operationId]
                    else [JStr (toUpperCase method +:+ " " +:+ route)]) in Hparts.
    assert (∃ first,
              opening = [first]
              ∧ (if nullish first then "" else to_str first)
                = (if truthy summary then to_str summary
                   else if truthy operationId then to_str operationId
                   else toUpperCase method +:+ " " +:+ route)) as (first & Hopening & Hfirst).
    { unfold opening. destruct (truthy summary) eqn:Hs.
      - exists summary. split; [done|]. by destruct summary.
      - destruct (truthy operationId) eqn:Ho.
        + exists operationId. split; [done|]. by destruct operationId.
        + by eexists. }
    rewrite Hopening in Hparts. clear Hopening opening.
    exists first.
    set (described := if truthy declared && _ then _ else _) in Hparts.
    assert (∃ others, described = first :: others) as [others1 Hdescribed].
    { unfold described. destruct (_ && _); by eexists. }
    rewrite Hdescribed in Hparts. clear Hdescribed described.
    set (hinted := if bool_decide _ then _ else _) in Hparts.
    assert (∃ others, hinted = first :: others) as [others2 Hhinted].
    { unfold hinted. destruct (bool_decide _); by eexists. }
    rewrite Hhinted in Hparts. clear Hhinted hinted.
    destruct (truthy tags && gt_zero count).
    - destruct tags; try done. injection Hparts as <-. by eexists.
    - injection Hparts as <-. by eexists. }
  rewrite join_values_cons, Hfirst. destruct others as [|other others].
  - left. apply append_nil_r.
  - right. by eexists.
Qed.

Lemma buildToolDescription_opens_with_lead_witness :
  "getPetById. Required parameters: path: petId" = lead get_pet "get" "/pet/{petId}"
  ∨ ∃ rest, "getPetById. Required parameters: path: petId"
            = lead get_pet "get" "/pet/{petId}" +:+ ". " +:+ rest.
Proof.
  exact (buildToolDescription_opens_with_lead get_pet "get" "/pet/{petId}" _ _ eq_refl).
Defined.

(** ** Headers and placeholders of a request *)

(** X20.  The headers of a request are [Content-Type: application/json]
    and, for each declared header parameter under whose name the input has
    a value, that value, which replaces [Content-Type] when that is the
    name.  The value that the input has under a name is its own field or,
    when it has none, what every object inherits under that name: a
    declared header named [toString] is sent with every input.  No field of
    the input that is not a declared header parameter becomes a header. *)
Theorem buildRequestConfig_headers (fields : obj) (operation : json)
    (method route : string) (baseUrl : json) (ex : Extraction)
    (config : RequestConfig) (after : json) :
  extractParameters operation = Ok ex →
  buildRequestConfig (JObj fields) operation method route baseUrl = Ok (config, after) →
  ∀ name,
    lookup_key name (cfg_headers config)
    = if bool_decide (name ∈ keys (p_header (parameters ex)))
         && negb (is_undefined (member_of fields name))
      then member_of fields name
      else if bool_decide (name = "Content-Type") then JStr "application/json"
           else JUndefined.
Proof.
  intros Hex. unfold buildRequestConfig. rewrite Hex. run.
  rewrite substitute_object, !collect_object. intros [= <- _] name.
  cbn [cfg_headers]. rewrite lookup_collected.
  2: { unfold plain, keys. cbn. by intros [=]%list_elem_of_singleton. }
  assert (lookup_key name [("Content-Type", JStr "application/json")]
          = if bool_decide (name = "Content-Type") then JStr "application/json"
            else JUndefined) as ->.
  { cbn [lookup_key]. destruct (decide ("Content-Type" = name)) as [<-|Hne]; [done|].
    by rewrite bool_decide_eq_false_2 by congruence. }
  destruct (bool_decide (name ∈ _)) eqn:Hdeclared; [|done].
  apply bool_decide_eq_true in Hdeclared.
  rewrite (bool_decide_eq_false_2 (name = "__proto__")).
  - cbn [negb andb]. by destruct (is_undefined _).
  - intros ->. by apply (extractParameters_plain operation ex Header Hex).
Qed.

Lemma buildRequestConfig_headers_witness :
  (∃ config,
     buildRequestConfig (JObj [("X-Trace", JStr "abc"); ("limit", JNum 5)]) traced_list
       "get" "/pets" (JStr "https://petstore.example.com/v1")
     = Ok (config, traced_list)
     ∧ lookup_key "X-Trace" (cfg_headers config) = JStr "abc"
     ∧ lookup_key "limit" (cfg_headers config) = JUndefined
     ∧ lookup_key "Content-Type" (cfg_headers config) = JStr "application/json")
  ∧ ∃ config,
      buildRequestConfig (JObj []) inherited_names "get" "/c" (JStr "https://api.example.com")
      = Ok (config, inherited_names)
      ∧ lookup_key "toString" (cfg_headers config) = JNative "toString" 0.
Proof.
  split.
  - eexists. split; [reflexivity|].
    pose proof (buildRequestConfig_headers [("X-Trace", JStr "abc"); ("limit", JNum 5)]
                  traced_list "get" "/pets" (JStr "https://petstore.example.com/v1")
                  _ _ _ eq_refl eq_refl) as Hheaders.
    split; [exact (Hheaders "X-Trace")|]. split; [exact (Hheaders "limit")|].
    exact (Hheaders "Content-Type").
  - eexists. split; [reflexivity|].
    exact (buildRequestConfig_headers [] inherited_names "get" "/c"
             (JStr "https://api.example.com") _ _ _ eq_refl eq_refl "toString").
Defined.

(** X21.  A path parameter under whose name the input has no value keeps its
    placeholder: when the input has a value under the name of none of the
    declared path parameters, neither as a field of its own nor as a member
    that every object inherits, the URL of the request is the base URL
    followed by the route as it is written, braces included, and the call
    does not fail for it. *)
Theorem buildRequestConfig_keeps_placeholders (fields : obj) (operation : json)
    (method route : string) (baseUrl : json) (ex : Extraction) :
  extractParameters operation = Ok ex →
  (∀ name, name ∈ keys (p_path (parameters ex)) → member_of fields name = JUndefined) →
  ∃ config,
    buildRequestConfig (JObj fields) operation method route baseUrl
    = Ok (config, operation_after ex)
    ∧ cfg_url config = to_str baseUrl +:+ route.
Proof.
  intros Hex Hundefined. unfold buildRequestConfig. rewrite Hex. run.
  rewrite substitute_object, !collect_object. eexists. split; [reflexivity|].
  cbn [cfg_url]. revert Hundefined. generalize (to_str baseUrl +:+ route).
  induction (p_path (parameters ex)) as [|[name schema] l IH]; intros url Hundefined; [done|].
  cbn [fold_left]. unfold substitute_field at 2. cbn [fst].
  rewrite (Hundefined name) by apply list_elem_of_here. cbn [is_undefined].
  apply IH. intros other Hother. apply Hundefined. by apply list_elem_of_further.
Qed.

Lemma buildRequestConfig_keeps_placeholders_witness :
  ∃ config,
    buildRequestConfig (JObj [("id", JNum 42)]) get_pet "get" "/pet/{petId}"
      (JStr "https://petstore.example.com/v1")
    = Ok (config, get_pet)
    ∧ cfg_url config = "https://petstore.example.com/v1/pet/{petId}".
Proof.
  refine (buildRequestConfig_keeps_placeholders [("id", JNum 42)] get_pet "get"
            "/pet/{petId}" (JStr "https://petstore.example.com/v1") _ eq_refl _).
  intros name [->|[]%elem_of_nil]%elem_of_cons. reflexivity.
Defined.

(** ** What the resolution of pointers leaves alone *)

Lemma update_keys t key result result' :
  update t key result = Ok result' → keys result' = keys result.
Proof.
  unfold update. destruct (truthy _) eqn:Htruthy; [|by intros [= <-]].
  intros (v' & _ & [= <-])%bind_Ok_inv. rewrite keys_assign.
  rewrite bool_decide_eq_true_2; [done|]. by apply lookup_key_keys, truthy_defined.
Qed.

(** The five updates of a call that finds no pointer in the schema. *)
Lemma resolve_body_updates self spec schema r :
  visited schema = true → truthy (prop_opt schema "$ref") = false →
  resolve_body self spec schema = Ok r →
  ∃ r1 r2 r3 r4 r5,
    update (resolved_properties self) "properties" (own_entries schema) = Ok r1
    ∧ update self "items" r1 = Ok r2
    ∧ update (resolved_list self) "allOf" r2 = Ok r3
    ∧ update (resolved_list self) "oneOf" r3 = Ok r4
    ∧ update (resolved_list self) "anyOf" r4 = Ok r5
    ∧ r = JObj r5.
Proof.
  unfold visited, resolve_body. intros [Htruthy Hobject]%andb_true_iff.
  rewrite Htruthy, Hobject. cbn [negb orb].
  rewrite (prop_truthy schema) by done. run. intros ->.
  rewrite resolve_properties_update.
  intros (r1 & H1 & Hrest)%bind_Ok_inv. rewrite resolve_items_update in Hrest.
  apply bind_Ok_inv in Hrest as (r2 & H2 & Hrest). rewrite resolve_list_update in Hrest.
  apply bind_Ok_inv in Hrest as (r3 & H3 & Hrest). rewrite resolve_list_update in Hrest.
  apply bind_Ok_inv in Hrest as (r4 & H4 & Hrest). rewrite resolve_list_update in Hrest.
  apply bind_Ok_inv in Hrest as (r5 & H5 & [= <-]).
  by exists r1, r2, r3, r4, r5.
Qed.

(** X22.  Of a schema that is an object without a pointer of its own,
    [resolveSchemaRefs] rewrites the values under [properties], [items],
    [allOf], [oneOf] and [anyOf] and nothing else: what it returns has the
    keys of the schema, in their order, and under every other key
    ([additionalProperties], [not], [definitions], ...) the value that the
    schema has there, pointers included. *)
Theorem resolveSchemaRefs_keeps_other_keywords (depth : nat) (schema : obj)
    (spec r : json) :
  truthy (lookup_key "$ref" schema) = false →
  resolveSchemaRefs depth (JObj schema) spec = Ok r →
  ∃ result,
    r = JObj result
    ∧ keys result = keys schema
    ∧ ∀ key, key ∉ ["properties"; "items"; "allOf"; "oneOf"; "anyOf"] →
             lookup_key key result = lookup_key key schema.
Proof.
  intros Href. destruct depth as [|depth]; [done|]. cbn [resolveSchemaRefs].
  intros (r1 & r2 & r3 & r4 & r5 & H1 & H2 & H3 & H4 & H5 & ->)%resolve_body_updates;
    [|done..].
  exists r5. split; [done|]. split.
  - rewrite (update_keys _ _ _ _ H5), (update_keys _ _ _ _ H4), (update_keys _ _ _ _ H3),
      (update_keys _ _ _ _ H2), (update_keys _ _ _ _ H1). done.
  - intros key Hkey. rewrite !not_elem_of_cons in Hkey.
    destruct Hkey as (? & ? & ? & ? & ? & _).
    rewrite (update_frame _ _ _ _ key H5), (update_frame _ _ _ _ key H4),
      (update_frame _ _ _ _ key H3), (update_frame _ _ _ _ key H2),
      (update_frame _ _ _ _ key H1) by done. done.
Qed.

Lemma resolveSchemaRefs_keeps_other_keywords_witness :
  ∃ result,
    JObj [("type", JStr "object");
          ("properties", JObj [("tag", JObj [("type", JStr "string")])]);
          ("additionalProperties", JObj [("$ref", JStr "#/components/schemas/Tag")])]
    = JObj result
    ∧ keys result = ["type"; "properties"; "additionalProperties"]
    ∧ ∀ key, key ∉ ["properties"; "items"; "allOf"; "oneOf"; "anyOf"] →
             lookup_key key result = lookup_key key open_pet.
Proof.
  exact (resolveSchemaRefs_keeps_other_keywords 8 open_pet pet_and_tag _ eq_refl eq_refl).
Defined.

Lemma indexed_from_no_keyword key i l :
  key ∈ ["$ref"; "properties"; "items"; "allOf"; "oneOf"; "anyOf"] →
  lookup_key key (indexed_from i l) = JUndefined.
Proof.
  intros Hkey. revert i. induction l as [|x l IH]; intros i; [done|].
  cbn [indexed_from lookup_key]. destruct (decide _) as [Heq|_]; [|apply IH].
  exfalso. revert Heq. unfold dec_of_nat.
  repeat (apply elem_of_cons in Hkey as [->|Hkey]; [by destruct (Nat.to_uint i)|]).
  by apply elem_of_nil in Hkey.
Qed.

(** X23.  An array where a schema is expected, as under [items] in the
    tuple form, does not come back as an array: [resolveSchemaRefs] returns
    the object that has its elements under their indices, and it resolves
    no pointer in them. *)
Theorem resolveSchemaRefs_array_to_object (depth : nat) (l : list json) (spec : json) :
  resolveSchemaRefs (S depth) (JArr l) spec = Ok (JObj (indexed_from 0 l)).
Proof.
  cbn [resolveSchemaRefs]. unfold resolve_body. cbn [truthy typeof_object negb orb].
  change (prop (JArr l) "$ref") with (Ok JUndefined : res json). run. cbn [truthy own_entries].
  unfold resolve_properties, resolve_items, resolve_list.
  repeat (rewrite indexed_from_no_keyword
            by (repeat first [apply list_elem_of_here | apply list_elem_of_further]);
          cbn [truthy]).
  done.
Qed.

(** ** What the resolution of pointers leaves behind *)

Section Outputs.

Variable self : json → res json.
Variable P : json → Prop.
Hypothesis self_P : ∀ x r, self x = Ok r → P r.

Lemma resolved_entries_outputs l acc acc' :
  foldM (resolve_entry self) l acc = Ok acc' →
  (∀ kv, kv ∈ acc → P kv.2) → ∀ kv, kv ∈ acc' → P kv.2.
Proof.
  revert acc. induction l as [|[k v] l IH]; intros acc; cbn [foldM].
  - by intros [= <-].
  - intros (acc1 & (v' & Hv & [= <-])%bind_Ok_inv & Hrest)%bind_Ok_inv Hacc.
    apply (IH _ Hrest). intros kv [->|Hin]%elem_of_put; [|by apply Hacc].
    by eapply self_P.
Qed.

Lemma resolved_list_outputs v l' :
  resolved_list self v = Ok (JArr l') → ∀ x, x ∈ l' → P x.
Proof.
  unfold resolved_list. destruct v as [| | | | |l| |]; try done.
  intros (ys & Hl & [= <-])%bind_Ok_inv. apply mapM_Ok_inv in Hl.
  induction Hl as [|x y l ys Hxy _ IH]; [by intros ? ?%elem_of_nil|].
  intros z [->|Hin]%elem_of_cons; [by eapply self_P | by apply IH].
Qed.

Lemma resolved_list_array v v' : resolved_list self v = Ok v' → ∃ l', v' = JArr l'.
Proof.
  unfold resolved_list. destruct v as [| | | | |l| |]; try done.
  intros (ys & _ & [= <-])%bind_Ok_inv. by eexists.
Qed.

(** The schemas below what a call returns that found no pointer in the
    schema all come from the recursive calls. *)
Lemma resolve_body_outputs spec schema r :
  visited schema = true → truthy (prop_opt schema "$ref") = false →
  resolve_body self spec schema = Ok r →
  ∀ sub, sub ∈ subschemas r → P sub.
Proof.
  intros Hvisited Href
    (r1 & r2 & r3 & r4 & r5 & H1 & H2 & H3 & H4 & H5 & ->)%resolve_body_updates; [|done..].
  pose proof (update_value _ _ _ _ H1) as V1. pose proof (update_value _ _ _ _ H2) as V2.
  pose proof (update_value _ _ _ _ H3) as V3. pose proof (update_value _ _ _ _ H4) as V4.
  pose proof (update_value _ _ _ _ H5) as V5.
  assert (lookup_key "properties" r5 = lookup_key "properties" r1) as E1.
  { by rewrite (update_frame _ _ _ _ "properties" H5), (update_frame _ _ _ _ "properties" H4),
      (update_frame _ _ _ _ "properties" H3), (update_frame _ _ _ _ "properties" H2). }
  assert (lookup_key "items" r5 = lookup_key "items" r2) as E2.
  { by rewrite (update_frame _ _ _ _ "items" H5), (update_frame _ _ _ _ "items" H4),
      (update_frame _ _ _ _ "items" H3). }
  assert (lookup_key "allOf" r5 = lookup_key "allOf" r3) as E3.
  { by rewrite (update_frame _ _ _ _ "allOf" H5), (update_frame _ _ _ _ "allOf" H4). }
  assert (lookup_key "oneOf" r5 = lookup_key "oneOf" r4) as E4.
  { by rewrite (update_frame _ _ _ _ "oneOf" H5). }
  assert (∀ key before after,
            (if truthy (lookup_key key before)
             then resolved_list self (lookup_key key before) = Ok (lookup_key key after)
             else lookup_key key after = lookup_key key before) →
            ∀ sub, sub ∈ list_at key after → P sub) as Hlist.
  { intros key before after V sub. unfold list_at.
    destruct (lookup_key key after) as [| | | | |l'| |] eqn:Hafter;
      try by intros ?%elem_of_nil.
    destruct (truthy (lookup_key key before)) eqn:Hbefore.
    - intros Hsub. exact (resolved_list_outputs _ _ V sub Hsub).
    - intros _. by rewrite <- V in Hbefore. }
  intros sub. unfold subschemas. cbn [own_entries]. rewrite E1, E2.
  rewrite !elem_of_app. intros [Hsub|[Hsub|[Hsub|[Hsub|Hsub]]]].
  - destruct (truthy (lookup_key "properties" r1)) eqn:Hafter;
      [|by apply elem_of_nil in Hsub].
    destruct (truthy (lookup_key "properties" (own_entries schema))) eqn:Hbefore;
      [|by rewrite V1, Hbefore in Hafter].
    apply bind_Ok_inv in V1 as (acc & Hfold & [= Hacc]). rewrite <- Hacc in Hsub.
    cbn [own_entries] in Hsub. apply list_elem_of_fmap in Hsub as (kv & -> & Hin).
    apply (resolved_entries_outputs _ _ _ Hfold); [by intros ? ?%elem_of_nil | done].
  - destruct (truthy (lookup_key "items" r2)) eqn:Hafter; [|by apply elem_of_nil in Hsub].
    apply list_elem_of_singleton in Hsub as ->.
    destruct (truthy (lookup_key "items" r1)) eqn:Hbefore;
      [exact (self_P _ _ V2) | by rewrite V2, Hbefore in Hafter].
  - unfold list_at in Hsub. rewrite E3 in Hsub. by apply (Hlist "allOf" r2 r3 V3).
  - unfold list_at in Hsub. rewrite E4 in Hsub. by apply (Hlist "oneOf" r3 r4 V4).
  - by apply (Hlist "anyOf" r4 r5 V5).
Qed.

End Outputs.

Lemma meets_visited schema pointer : meets schema pointer → visited schema = true.
Proof. by destruct 1. Qed.

(** X24.  In what [resolveSchemaRefs] returns, every pointer that a call
    comes upon without following a pointer first is a broken one, whose walk
    through the document breaks off and which the call has left in place
    with a warning.  These are the pointer of the returned schema itself
    and, when it has none, the pointers that the schemas under its
    [properties], [items], [allOf], [oneOf] and [anyOf] come upon in the
    same way.  What lies underneath a schema that has a pointer of its own
    is not among them: a schema with a broken pointer is returned as it is,
    and a pointer below it that could be resolved stays, as the pointer to
    [Tag] does in [broken_above]. *)
Theorem resolveSchemaRefs_leaves_broken_pointers (depth : nat) (schema spec r : json)
    (pointer : string) :
  resolveSchemaRefs depth schema spec = Ok r →
  (meets r pointer → walk spec (ref_path pointer) = None)
  ∧ resolveSchemaRefs 8 broken_above pet_and_tag = Ok broken_above
  ∧ all_refs broken_above = ["#/definitions/Missing"; "#/components/schemas/Tag"]
  ∧ walk pet_and_tag (ref_path "#/definitions/Missing") = None
  ∧ walk pet_and_tag (ref_path "#/components/schemas/Tag")
    = Some (JObj [("type", JStr "string")]).
Proof.
  intros Hreturned. split; [|by repeat split]. revert Hreturned.
  revert schema r pointer. induction depth as [|depth IH]; intros schema r pointer; [done|].
  cbn [resolveSchemaRefs]. intros Hr.
  destruct (visited schema) eqn:Hvisited.
  2: { assert (r = schema) as ->.
       { revert Hr. unfold resolve_body, visited in *.
         destruct (truthy schema), (typeof_object schema); try done; by intros [= <-]. }
       intros Hmeets%meets_visited. by rewrite Hmeets in Hvisited. }
  destruct (truthy (prop_opt schema "$ref")) eqn:Href.
  - revert Hr. unfold resolve_body, visited in *.
    apply andb_true_iff in Hvisited as [Htruthy Hobject]. rewrite Htruthy, Hobject.
    cbn [negb orb]. rewrite (prop_truthy schema) by done. run. rewrite Href.
    destruct (prop_opt schema "$ref") as [| | | |own| | |] eqn:Hown; try done.
    destruct (walk spec (ref_path own)) as [resolved|] eqn:Hwalk; [by apply IH|].
    intros [= <-]. intros Hmeets. inversion Hmeets as [? ? _ Hmine _|? ? ? _ Hnone _ _]; subst.
    + unfold own_ref in Hmine. rewrite Hown in Hmine. by injection Hmine as <-.
    + unfold own_ref in Hnone. by rewrite Hown, Href in Hnone.
  - pose proof (resolve_body_updates _ _ _ _ Hvisited Href Hr)
      as (r1 & r2 & r3 & r4 & r5 & H1 & H2 & H3 & H4 & H5 & ->).
    assert (own_ref (JObj r5) = prop_opt schema "$ref") as Hsame.
    { unfold own_ref, prop_opt at 1. cbn [prop].
      rewrite (update_frame _ _ _ _ "$ref" H5), (update_frame _ _ _ _ "$ref" H4),
        (update_frame _ _ _ _ "$ref" H3), (update_frame _ _ _ _ "$ref" H2),
        (update_frame _ _ _ _ "$ref" H1) by done.
      apply own_entries_ref; [done|]. apply prop_truthy.
      unfold visited in Hvisited. by apply andb_true_iff in Hvisited as [? _]. }
    intros Hmeets. inversion Hmeets as [? ? _ Hmine Hnonempty|? sub ? _ _ Hsub Hbelow]; subst.
    + rewrite Hsame in Hmine. rewrite Hmine in Href. cbn [truthy] in Href.
      apply negb_false_iff, bool_decide_eq_true in Href. done.
    + revert Hbelow. generalize pointer.
      apply (resolve_body_outputs (λ s, resolveSchemaRefs depth s spec)
               (λ sub, ∀ p, meets sub p → walk spec (ref_path p) = None))
        with (spec := spec) (schema := schema) (r := JObj r5); try done.
      intros x r' Hx p. by apply (IH x).
Qed.

Lemma resolveSchemaRefs_leaves_broken_pointers_witness :
  walk empty_components (ref_path "#/definitions/Missing") = None.
Proof.
  refine (proj1 (resolveSchemaRefs_leaves_broken_pointers 8
                   (JObj [("type", JStr "object");
                          ("properties",
                           JObj [("owner", JObj [("$ref", JStr "#/definitions/Missing")])])])
                   empty_components _ "#/definitions/Missing" eq_refl) _).
  eapply meets_below; [reflexivity | reflexivity | apply list_elem_of_here |].
  by apply meets_own.
Defined.

(** ** Bracketed hosts *)

(** X25.  The table of private ranges matches the text of the host name
    from its first character, and no pattern of it begins with a bracket:
    a host name that begins with [[], the form in which a parsed URL gives
    an IPv6 address, is let through by [validateURL] whether private hosts
    are blocked or not, the loopback [[::1]] included. *)
Theorem validateURL_passes_bracketed_hosts (new_URL : string → string + URL)
    (config : SecurityConfig) (urlString : string) (parsed : URL) (rest : string) :
  new_URL urlString = inr parsed →
  hostname parsed = "[" +:+ rest →
  drop_last (protocol parsed) ∈ allowedSchemes config →
  allowedHosts config = [] →
  validateURL new_URL urlString config = Ok parsed.
Proof.
  intros Hparse Hhost Hscheme Hhosts. unfold validateURL.
  rewrite Hparse, Hhosts, Hhost, bool_decide_eq_true_2 by done. cbn [negb length].
  assert (isPrivateIP ("[" +:+ rest) = false) as ->; [done|].
  by rewrite andb_false_r.
Qed.

Lemma validateURL_passes_bracketed_hosts_witness :
  validateURL plain_URL "https://[::1]/spec.json" defaultSecurityConfig
  = Ok {| protocol := "https:"; hostname := "[::1]"; href := "https://[::1]/spec.json" |}.
Proof.
  refine (validateURL_passes_bracketed_hosts plain_URL defaultSecurityConfig
            "https://[::1]/spec.json" _ "::1]" eq_refl eq_refl _ eq_refl).
  apply list_elem_of_here.
Defined.

(** ** The buckets of the parameters, name by name *)

(** X26.  Each of the four buckets that [extractParameters] fills holds
    exactly the names that the operation declares at that location, but for
    one: a name is a key of the bucket of a location if and only if it is
    not [__proto__] and some parameter of the operation has that name (as a
    string) and that location.  A parameter without a name is in no bucket,
    and neither is a parameter named [__proto__], which the assignment hands
    to the prototype of the bucket. *)
Theorem extractParameters_buckets_hold_declared (operation : json) (ex : Extraction)
    (l : list json) (loc : location) (name : string) :
  extractParameters operation = Ok ex →
  prop operation "parameters" = Ok (JArr l) →
  name ∈ keys (bucket loc (parameters ex))
  ↔ name ≠ "__proto__"
    ∧ ∃ param declared, param ∈ l ∧ declares param loc declared ∧ name = to_str declared.
Proof.
  intros Hex Hread.
  destruct (extractParameters_buckets _ _ _ Hex Hread) as (ps & rq & log & Hall & ->).
  apply extract_all_Ok in Hall as (_ & Hkeys & _); [|apply no_parameters_plain].
  rewrite Hkeys. split; [|by right].
  intros [Hnone|?]; [|done]. by destruct loc; apply elem_of_nil in Hnone.
Qed.

Lemma extractParameters_buckets_hold_declared_witness :
  "limit" ∈ keys (bucket Query
                    {| p_path := []; p_header := []; p_cookie := []; p_body := JNull;
                       p_query := [("limit", JObj [("type", JStr "string")]);
                                   ("tags", JObj [("type", JStr "string")])] |}).
Proof.
  refine (proj2 (extractParameters_buckets_hold_declared swagger2_list _ _ Query "limit"
                   eq_refl eq_refl) _).
  split; [done|]. eexists _, _. split; [apply list_elem_of_here|]. by repeat split.
Defined.

(** A parameter named [__proto__] leaves the buckets as they are. *)
Lemma proto_parameter_is_dropped :
  parameters <$> extractParameters proto_parameters
  = Ok {| p_path := []; p_header := []; p_cookie := []; p_body := JNull;
          p_query := [("limit", JObj [("type", JStr "integer")])] |}.
Proof. reflexivity. Qed.

(** X27.  A parameter without a [schema] is stored as a string, whatever
    type it states: of an operation all of whose parameters give their type
    on the parameter itself, as Swagger 2.0 has it, every parameter schema
    that [extractParameters] stores has the type [string]. *)
Theorem extractParameters_types_schemaless_as_string (operation : json) (ex : Extraction)
    (l : list json) (loc : location) (name : string) (stored : json) :
  extractParameters operation = Ok ex →
  prop operation "parameters" = Ok (JArr l) →
  (∀ param, param ∈ l → schemaless param) →
  (name, stored) ∈ bucket loc (parameters ex) →
  prop_opt stored "type" = JStr "string".
Proof.
  intros Hex Hread Hschemaless Hstored.
  destruct (extractParameters_buckets _ _ _ Hex Hread) as (ps & rq & log & Hall & Hsame).
  rewrite Hsame in Hstored.
  apply extract_all_Ok in Hall as (_ & _ & Htypes); [|apply no_parameters_plain].
  apply (Htypes Hschemaless) with (loc := loc) (entry := (name, stored)); [|done].
  intros loc' entry Hnone. by destruct loc'; apply elem_of_nil in Hnone.
Qed.

Lemma extractParameters_types_schemaless_as_string_witness :
  prop_opt (JObj [("type", JStr "string")]) "type" = JStr "string"
  ∧ prop_opt (JObj [("name", JStr "limit"); ("in", JStr "query");
                    ("type", JStr "integer"); ("required", JBool true)]) "type"
    = JStr "integer".
Proof.
  split; [|reflexivity].
  refine (extractParameters_types_schemaless_as_string swagger2_list _ _ Query "limit" _
            eq_refl eq_refl _ (list_elem_of_here _ _)).
  intros param [->|[->|[]%elem_of_nil]%elem_of_cons]%elem_of_cons; reflexivity.
Defined.

(** ** Required parameters *)

Lemma extract_all_required l ps rq log ps' rq' log' :
  extract_all (ps, rq, log) l = Ok (ps', rq', log') →
  ∀ loc name,
    name ∈ required_at loc rq'
    ↔ name ∈ required_at loc rq
      ∨ ∃ param, param ∈ l ∧ declares param loc name
                 ∧ is_true (prop_opt param "required") = true.
Proof.
  revert ps rq log. induction l as [|param l IH]; intros ps rq log; cbn [extract_all].
  - intros [= <- <- <-] loc name. split; [by left|].
    intros [?|(param & []%elem_of_nil & _)]. done.
  - intros ([[ps1 rq1] log1] & Hone & Hrest)%bind_Ok_inv loc name.
    rewrite (IH _ _ _ Hrest). apply extract_one_Ok in Hone.
    assert (name ∈ required_at loc rq1
            ↔ name ∈ required_at loc rq
              ∨ declares param loc name ∧ is_true (prop_opt param "required") = true)
      as ->.
    { destruct Hone as [(Hnameless & _ & ->) | [Hnamed Hone]].
      - split; [by left|]. intros [?|[(<- & Htruthy & _) _]]; [done | congruence].
      - destruct (location_of (prop_opt param "in")) as [stored|] eqn:Hloc.
        + destruct Hone as (paramSchema & _ & -> & _).
          destruct (is_true (prop_opt param "required")) eqn:Hrequired.
          * rewrite required_at_push. destruct (decide (loc = stored)) as [->|Hne].
            -- rewrite elem_of_app, list_elem_of_singleton. split.
               ++ intros [?| ->]; [by left | by right].
               ++ intros [?|[(<- & _ & _) _]]; [by left | by right].
            -- split; [by left|]. intros [?|[(_ & _ & Hstored) _]]; [done | congruence].
          * split; [by left|]. by intros [?|[_ ?]].
        + destruct Hone as [_ ->]. split; [by left|].
          intros [?|[(_ & _ & Hstored) _]]; [done | congruence]. }
    split.
    + intros [[?|[Hdeclares Hrequired]] | (other & Hin & Hdeclares & Hrequired)].
      * by left.
      * right. exists param. split; [apply list_elem_of_here | done].
      * right. exists other. split; [by apply list_elem_of_further | done].
    + intros [?|(other & [->|Hin]%elem_of_cons & Hdeclares & Hrequired)].
      * by left; left.
      * by left; right.
      * right. by exists other.
Qed.

Lemma extractParameters_required operation ex (l : list json) :
  extractParameters operation = Ok ex →
  prop operation "parameters" = Ok (JArr l) →
  ∃ ps log, extract_all (no_parameters, no_required, []) l = Ok (ps, required ex, log).
Proof.
  unfold extractParameters. intros Hex Hread. rewrite Hread in Hex.
  apply bind_Ok_inv in Hex as (declared & [= <-] & Hex).
  apply bind_Ok_inv in Hex as ([[ps rq] log] & Hall & Hex).
  exists ps, log. rewrite Hall. do 3 f_equal.
  apply bind_Ok_inv in Hex as (requestBody & _ & Hex).
  destruct (truthy requestBody); [|by injection Hex as <-].
  apply bind_Ok_inv in Hex as (content & _ & Hex).
  apply bind_Ok_inv in Hex as (media & _ & Hex).
  destruct (truthy content && truthy media); [|by injection Hex as <-].
  apply bind_Ok_inv in Hex as (declared_schema & _ & Hex).
  apply bind_Ok_inv in Hex as (body_required & _ & Hex).
  destruct (is_true body_required).
  - by apply bind_Ok_inv in Hex as (body' & _ & [= <-]).
  - by injection Hex as <-.
Qed.

(** X28.  The list of required names that [extractParameters] returns for a
    location holds exactly the names of the parameters of that location
    whose [required] is [true] itself: a parameter whose [required] is
    anything else, the string ["true"] or the number 1, is not required. *)
Theorem extractParameters_required_names (operation : json) (ex : Extraction)
    (l : list json) (loc : location) (name : json) :
  extractParameters operation = Ok ex →
  prop operation "parameters" = Ok (JArr l) →
  name ∈ required_at loc (required ex)
  ↔ ∃ param, param ∈ l ∧ declares param loc name
             ∧ prop_opt param "required" = JBool true.
Proof.
  intros Hex Hread.
  destruct (extractParameters_required _ _ _ Hex Hread) as (ps & log & Hall).
  rewrite (extract_all_required _ _ _ _ _ _ _ Hall). split.
  - intros [Hnone|(param & Hin & Hdeclares & Hrequired)].
    + by destruct loc; apply elem_of_nil in Hnone.
    + exists param. split; [done|]. split; [done|].
      by destruct (prop_opt param "required") as [| |[]| | | | |].
  - intros (param & Hin & Hdeclares & Hrequired). right. exists param.
    by rewrite Hrequired.
Qed.

Lemma extractParameters_required_names_witness :
  JStr "limit" ∈ [JStr "limit"].
Proof.
  refine (proj2 (extractParameters_required_names swagger2_list _ _ Query (JStr "limit")
                   eq_refl eq_refl) _).
  eexists. split; [apply list_elem_of_here|]. by repeat split.
Defined.

(** ** The properties and the required names of an input schema *)

Lemma keys_merged (value : string * json → json) (l props : obj) :
  plain props →
  plain (fold_left (λ acc kv, put kv.1 (value kv) acc) l props)
  ∧ ∀ name,
      name ∈ keys (fold_left (λ acc kv, put kv.1 (value kv) acc) l props)
      ↔ name ∈ keys props ∨ name ∈ keys l ∧ name ≠ "__proto__".
Proof.
  revert props. induction l as [|[k v] l IH]; intros props Hprops; cbn [fold_left].
  - split; [done|]. intros name. change (keys ([] : obj)) with (@nil string).
    rewrite elem_of_nil. tauto.
  - destruct (IH (put k (value (k, v)) props)) as [Hplain Hkeys]; [by apply put_plain|].
    split; [done|]. intros name. rewrite Hkeys, elem_of_keys_put by done.
    change (keys ((k, v) :: l)) with (k :: keys l). rewrite elem_of_cons. cbn [fst].
    split; [|intros [?|[[->|?] ?]]; tauto]. intros [[[-> ?]|?]|[? ?]]; tauto.
Qed.

Lemma keys_Object_assign (src o : obj) name :
  plain o →
  name ∈ keys (Object_assign src o) ↔ name ∈ keys o ∨ name ∈ keys src ∧ name ≠ "__proto__".
Proof. intros Ho. unfold Object_assign. by apply (keys_merged snd). Qed.

(** What the four locations contribute to the input schema. *)
Lemma merged_locations ps rq :
  let merged := fold_left (merge_location ps rq) all_locations ([], []) in
  ((∀ loc, plain (bucket loc ps)) →
   plain merged.1 ∧ ∀ name, name ∈ keys merged.1 ↔ ∃ loc, name ∈ keys (bucket loc ps))
  ∧ (∀ name, name ∈ merged.2 ↔ ∃ loc, name ∈ required_at loc rq).
Proof.
  cbv zeta. unfold all_locations. cbn [fold_left]. unfold merge_location. cbn [fst snd].
  split.
  - intros Hplain.
    pose proof (Hplain Path) as Hpath. pose proof (Hplain Query) as Hquery.
    pose proof (Hplain Header) as Hheader. pose proof (Hplain Cookie) as Hcookie.
    cbn [bucket] in Hpath, Hquery, Hheader, Hcookie.
    set (value := λ loc (kv : string * json),
           JObj (assign "x-parameter-location" (JStr (location_name loc)) (own_entries kv.2))).
    destruct (keys_merged (value Path) (p_path ps) [] plain_nil) as [H1 K1].
    destruct (keys_merged (value Query) (p_query ps) _ H1) as [H2 K2].
    destruct (keys_merged (value Header) (p_header ps) _ H2) as [H3 K3].
    destruct (keys_merged (value Cookie) (p_cookie ps) _ H3) as [H4 K4].
    split; [exact H4|]. intros name. etrans; [exact (K4 name)|]. rewrite K3, K2, K1.
    change (keys ([] : obj)) with (@nil string). rewrite elem_of_nil. split.
    + intros [[[[[]|[? _]]|[? _]]|[? _]]|[? _]];
        [by exists Path | by exists Query | by exists Header | by exists Cookie].
    + assert (∀ o : obj, plain o → name ∈ keys o → name ≠ "__proto__") as Hname.
      { intros o Ho Hin ->. by apply Ho. }
      intros [[] Hin]; cbn [bucket] in Hin.
      * left. left. left. right. split; [done | exact (Hname _ Hpath Hin)].
      * left. left. right. split; [done | exact (Hname _ Hquery Hin)].
      * left. right. split; [done | exact (Hname _ Hheader Hin)].
      * right. split; [done | exact (Hname _ Hcookie Hin)].
  - intros name. rewrite !elem_of_app, elem_of_nil. split.
    + intros [[[[[]|?]|?]|?]|?]; [by exists Path | by exists Query | by exists Header
                                  | by exists Cookie].
    + intros [[] Hin]; cbn [required_at] in Hin; tauto.
Qed.

Lemma input_schema_fields props names :
  let schema := JObj [("type", JStr "object"); ("properties", JObj props);
                      ("required", JArr names); ("additionalProperties", JBool false)] in
  prop_opt schema "properties" = JObj props ∧ prop_opt schema "required" = JArr names.
Proof. done. Qed.

(** X29.  The properties of an input schema are the declared parameters and
    the body: a name is a property of the schema if and only if it is the
    name of a parameter in one of the four buckets, or a property of the
    body schema other than [__proto__] when that schema has properties, or
    [_body] when the body schema has no properties but a type.  A property
    [__proto__] of the body schema is handed by [Object.assign] to the
    prototype of the properties, and is no property of the input schema. *)
Theorem buildInputSchema_properties (operation : json) (ex : Extraction)
    (schema after : json) (name : string) :
  extractParameters operation = Ok ex →
  buildInputSchema operation = Ok (schema, after) →
  let body := p_body (parameters ex) in
  name ∈ keys (own_entries (prop_opt schema "properties"))
  ↔ (∃ loc, name ∈ keys (bucket loc (parameters ex)))
    ∨ (truthy body = true ∧ truthy (prop_opt body "properties") = true
       ∧ name ∈ keys (own_entries (prop_opt body "properties")) ∧ name ≠ "__proto__")
    ∨ (truthy body = true ∧ truthy (prop_opt body "properties") = false
       ∧ truthy (prop_opt body "type") = true ∧ name = "_body").
Proof.
  intros Hex. unfold buildInputSchema. rewrite Hex. run.
  destruct (merged_locations (parameters ex) (required ex)) as [Hmerged _].
  cbv zeta in Hmerged. destruct (fold_left _ _ _) as [props req]. cbn [fst] in Hmerged.
  destruct Hmerged as [Hplain Hprops].
  { intros loc. by apply (extractParameters_plain operation). }
  cbv zeta. set (body := p_body (parameters ex)).
  destruct (truthy body) eqn:Hbody.
  - rewrite (prop_truthy body) by done.
    destruct (truthy (prop_opt body "properties")) eqn:Hproperties.
    + rewrite (prop_truthy body) by done. intros [= <- _].
      rewrite (proj1 (input_schema_fields _ _)). cbn [own_entries].
      rewrite keys_Object_assign, Hprops by done. split.
      * intros [?|[? ?]]; [by left | right; left; done].
      * intros [?|[(_ & _ & ? & ?)|(_ & [=] & _)]]; [by left | by right].
    + rewrite !(prop_truthy body) by done.
      destruct (truthy (prop_opt body "type")) eqn:Htype.
      * intros [= <- _]. rewrite (proj1 (input_schema_fields _ _)). cbn [own_entries].
        rewrite elem_of_keys_assign, Hprops. split.
        -- intros [->|?]; [right; right; done | by left].
        -- intros [?|[(_ & [=] & _)|(_ & _ & _ & ->)]]; [by right | by left].
      * intros [= <- _]. rewrite (proj1 (input_schema_fields _ _)). cbn [own_entries].
        rewrite Hprops. split; [by left|].
        intros [?|[(_ & [=] & _)|(_ & _ & [=] & _)]]. done.
  - intros [= <- _]. rewrite (proj1 (input_schema_fields _ _)). cbn [own_entries].
    rewrite Hprops. split; [by left|].
    intros [?|[([=] & _)|([=] & _)]]. done.
Qed.

Lemma buildInputSchema_properties_witness :
  "name" ∈ keys (own_entries
                   (JObj [("id", JObj [("type", JStr "integer");
                                       ("x-parameter-location", JStr "path")]);
                          ("name", JObj [("type", JStr "string")])])).
Proof.
  refine (proj2 (buildInputSchema_properties rename_pet _ _ _ "name" eq_refl eq_refl) _).
  right. left. repeat split; [apply list_elem_of_here | done].
Defined.

(** A property [__proto__] of the body schema does not reach the input
    schema. *)
Lemma proto_property_is_dropped :
  fst <$> buildInputSchema proto_body
  = Ok (JObj [("type", JStr "object");
              ("properties", JObj [("name", JObj [("type", JStr "string")])]);
              ("required", JArr []);
              ("additionalProperties", JBool false)]).
Proof. reflexivity. Qed.

Lemma dedupe_from_keeps_strings seen l name :
  JStr name ∈ l → JStr name ∈ dedupe_from seen l ∨ JStr name ∈ seen.
Proof.
  revert seen. induction l as [|x l IH]; intros seen; [by intros ?%elem_of_nil|].
  cbn [dedupe_from]. intros [<-|Hin]%elem_of_cons.
  - destruct (existsb (same_value_zero (JStr name)) seen) eqn:Hseen.
    + right. apply existsb_exists in Hseen as (y & Hy%list_elem_of_In & Hsame).
      destruct y; try done. cbn in Hsame. by apply bool_decide_eq_true in Hsame as ->.
    + left. apply list_elem_of_here.
  - destruct (existsb (same_value_zero x) seen).
    + by apply IH.
    + destruct (IH (x :: seen) Hin) as [?|[->|?]%elem_of_cons].
      * left. by apply list_elem_of_further.
      * left. apply list_elem_of_here.
      * by right.
Qed.

(** X30.  Every name that [extractParameters] lists as required, at any of
    the four locations, is in the [required] list of the input schema. *)
Theorem buildInputSchema_requires_parameters (operation : json) (ex : Extraction)
    (schema after : json) (loc : location) (name : string) :
  extractParameters operation = Ok ex →
  buildInputSchema operation = Ok (schema, after) →
  JStr name ∈ required_at loc (required ex) →
  ∃ names, prop_opt schema "required" = JArr names ∧ JStr name ∈ names.
Proof.
  intros Hex. unfold buildInputSchema. rewrite Hex. run.
  destruct (merged_locations (parameters ex) (required ex)) as [_ Hreq].
  cbv zeta in Hreq. destruct (fold_left _ _ _) as [props req]. cbn [snd] in Hreq.
  intros Hschema Hrequired.
  assert (JStr name ∈ req) as Hin by (apply Hreq; by exists loc).
  assert (∃ props' req', schema = JObj [("type", JStr "object"); ("properties", JObj props');
                                        ("required", JArr (dedupe req'));
                                        ("additionalProperties", JBool false)]
                         ∧ JStr name ∈ req') as (props' & req' & -> & Hin').
  { revert Hschema. destruct (truthy (p_body (parameters ex))) eqn:Hbody.
    - rewrite !(prop_truthy (p_body (parameters ex))) by done.
      destruct (truthy (prop_opt _ "properties")).
      + intros [= <- _]. eexists _, _. split; [reflexivity|].
        destruct (prop_opt _ "required"); try done. apply elem_of_app. by left.
      + destruct (truthy (prop_opt _ "type")).
        * intros [= <- _]. eexists _, _. split; [reflexivity|].
          destruct (is_true _); [|done]. apply elem_of_app. by left.
        * intros [= <- _]. by eexists _, _.
    - intros [= <- _]. by eexists _, _. }
  eexists. split; [reflexivity|].
  destruct (dedupe_from_keeps_strings [] req' name Hin') as [?|?%elem_of_nil]; done.
Qed.

Lemma buildInputSchema_requires_parameters_witness :
  ∃ names,
    prop_opt (JObj [("type", JStr "object");
                    ("properties",
                     JObj [("petId", JObj [("type", JStr "integer");
                                           ("x-parameter-location", JStr "path")])]);
                    ("required", JArr [JStr "petId"]);
                    ("additionalProperties", JBool false)]) "required"
    = JArr names
    ∧ JStr "petId" ∈ names.
Proof.
  exact (buildInputSchema_requires_parameters get_pet _ _ _ Path "petId" eq_refl eq_refl
           (list_elem_of_here _ _)).
Defined.
